(** * Cell tracking exercise: a shallow embedding of the tracking notebook

    The Python sources ([solution.py], [solution3_detection.py]) build
    [networkx.DiGraph] objects whose nodes and edges carry attribute
    dictionaries, and pass them through a sequence of in-place passes.
    This development embeds those passes as functions over an explicit
    graph value, Python exceptions as an error monad, Python [float]s as
    binary64 numbers (the kernel's primitive floats), and [int]s as [Z]. *)

From Stdlib Require Import ZArith QArith Qround Floats Ascii String Lia.
From stdpp Require Import gmap strings list fin_maps sorting.

Local Open Scope string_scope.

(** ** Python values, exceptions and built-ins *)

Inductive exn : Set :=
| KeyError | IndexError | ValueError | TypeError | AssertionError | OverflowError.

(** The outcome of running a piece of Python: a value, or a raised exception. *)
Inductive res (A : Type) : Type :=
| Ok (a : A)
| Raise (e : exn).
Arguments Ok {A} a.
Arguments Raise {A} e.

Global Instance res_ret : MRet res := λ A a, Ok a.
Global Instance res_bind : MBind res := λ A B f m,
  match m with Ok a => f a | Raise e => Raise e end.
Global Instance res_fmap : FMap res := λ A B f m,
  match m with Ok a => Ok (f a) | Raise e => Raise e end.

(** [for a in l: s = f(s, a)], stopping at the first exception. *)
Fixpoint for_each {A S : Type} (f : S → A → res S) (l : list A) (s : S) : res S :=
  match l with
  | [] => Ok s
  | a :: l' => s' ← f s a; for_each f l' s'
  end.

(** Attribute values found in the notebook's graphs. *)
Inductive value : Set :=
| VInt (z : Z)
| VFloat (f : float)
| VBool (b : bool).

(** [d[k]] on a dict: [KeyError] when the key is missing. *)
Definition getitem {V : Type} (d : gmap string V) (k : string) : res V :=
  match d !! k with
  | Some v => Ok v
  | None => Raise KeyError
  end.

(** The exact rational value of a finite binary64 number. *)
Definition float_Q (f : float) : option Q :=
  match Prim2SF f with
  | S754_zero _ => Some 0%Q
  | S754_finite s m e =>
      let n := if s then Zneg m else Zpos m in
      Some (if (0 <=? e)%Z then inject_Z (n * 2 ^ e) else (n # 2 ^ Z.to_pos (- e))%Q)
  | S754_infinity _ | S754_nan => None
  end.

(** A number as Python compares it: ints and floats are compared by their
    exact values; [nan] compares false with everything. *)
Inductive xreal : Set := XNaN | XNegInf | XFin (q : Q) | XPosInf.

Definition float_xreal (f : float) : xreal :=
  match Prim2SF f with
  | S754_nan => XNaN
  | S754_infinity s => if s then XNegInf else XPosInf
  | _ => match float_Q f with Some q => XFin q | None => XNaN end
  end.

Definition value_xreal (v : value) : xreal :=
  match v with
  | VInt z => XFin (inject_Z z)
  | VFloat f => float_xreal f
  | VBool b => XFin (if b then 1 else 0)%Q
  end.

(** [a == b] on numbers. *)
Definition py_eq (a b : value) : bool :=
  match value_xreal a, value_xreal b with
  | XFin p, XFin q => Qeq_bool p q
  | XNegInf, XNegInf | XPosInf, XPosInf => true
  | _, _ => false
  end.

(** [a >= b] on numbers. *)
Definition py_ge (a b : value) : bool :=
  match value_xreal a, value_xreal b with
  | XNaN, _ | _, XNaN => false
  | _, XNegInf | XPosInf, _ => true
  | XFin p, XFin q => Qle_bool q p
  | _, _ => false
  end.

(** ** [networkx.DiGraph]

    Nodes and edges are kept in the order in which [networkx] lists them,
    each with its attribute dictionary: the nodes in insertion order, the
    edges source by source in the order of the nodes, and the edges of one
    source in insertion order.  Node ids are the integer labels of the
    notebook. *)
Record DiGraph : Type := mkDiGraph {
  nodes : list (Z * gmap string value);
  edges : list ((Z * Z) * gmap string value)
}.

Definition empty_graph : DiGraph := mkDiGraph [] [].

Section alist.
Context {K V : Type} `{EqDecision K}.

Fixpoint alist_lookup (k : K) (l : list (K * V)) : option V :=
    match l with
    | [] => None
    | (k', v) :: l' => if decide (k' = k) then Some v else alist_lookup k l'
    end.

Fixpoint alist_alter (f : V → V) (k : K) (l : list (K * V)) : list (K * V) :=
    match l with
    | [] => []
    | (k', v) :: l' =>
        if decide (k' = k) then (k', f v) :: l' else (k', v) :: alist_alter f k l'
    end.

End alist.

(** [n in G], [G.nodes[n]], [G.edges[u, v]]. *)
Definition has_node (G : DiGraph) (n : Z) : bool :=
  bool_decide (n ∈ (nodes G).*1).
Definition node_attrs (G : DiGraph) (n : Z) : option (gmap string value) :=
  alist_lookup n (nodes G).
Definition edge_attrs (G : DiGraph) (e : Z * Z) : option (gmap string value) :=
  alist_lookup e (edges G).

(** [G.nodes[n]] as an expression: [KeyError] for a node that is not there. *)
Definition nodes_getitem (G : DiGraph) (n : Z) : res (gmap string value) :=
  match node_attrs G n with Some a => Ok a | None => Raise KeyError end.
Definition edges_getitem (G : DiGraph) (e : Z * Z) : res (gmap string value) :=
  match edge_attrs G e with Some a => Ok a | None => Raise KeyError end.

(** [G.nodes[n][k] = v] and [G.edges[e][k] = v]. *)
Definition set_node_attr (G : DiGraph) (n : Z) (k : string) (v : value) : res DiGraph :=
  _ ← nodes_getitem G n;
  Ok (mkDiGraph (alist_alter (λ a, <[k := v]> a) n (nodes G)) (edges G)).
Definition set_edge_attr (G : DiGraph) (e : Z * Z) (k : string) (v : value) : res DiGraph :=
  _ ← edges_getitem G e;
  Ok (mkDiGraph (nodes G) (alist_alter (λ a, <[k := v]> a) e (edges G))).

(** [G.add_node(n, **a)]: a new node, or an update of the attributes of an
    existing one (keys of [a] win). *)
Definition add_node (G : DiGraph) (n : Z) (a : gmap string value) : DiGraph :=
  if has_node G n
  then mkDiGraph (alist_alter (λ old, a ∪ old) n (nodes G)) (edges G)
  else mkDiGraph (nodes G ++ [(n, a)]) (edges G).

(** The place of a node in the order of the nodes (the number of nodes
    when it is not one). *)
Fixpoint index_of (n : Z) (l : list Z) : nat :=
  match l with
  | [] => 0
  | m :: l' => if decide (m = n) then 0 else S (index_of n l')
  end.
Definition node_rank (G : DiGraph) (n : Z) : nat := index_of n (nodes G).*1.

(** A new edge among the edges as [G.edges] lists them: behind the edges
    of its own source and of the nodes before its source, in front of the
    edges of the nodes after it. *)
Fixpoint insert_edge (rank : Z → nat) (e : (Z * Z) * gmap string value)
    (es : list ((Z * Z) * gmap string value)) : list ((Z * Z) * gmap string value) :=
  match es with
  | [] => [e]
  | e' :: es' =>
      if decide (rank e.1.1 < rank e'.1.1)%nat then e :: e' :: es'
      else e' :: insert_edge rank e es'
  end.

(** [G.add_edge(u, v)]: endpoints that are missing are created without
    attributes; an edge that exists keeps its attributes. *)
Definition add_edge (G : DiGraph) (u v : Z) : DiGraph :=
  let G1 := if has_node G u then G else mkDiGraph (nodes G ++ [(u, ∅)]) (edges G) in
  let G2 := if has_node G1 v then G1 else mkDiGraph (nodes G1 ++ [(v, ∅)]) (edges G1) in
  if bool_decide ((u, v) ∈ (edges G2).*1) then G2
  else mkDiGraph (nodes G2) (insert_edge (node_rank G2) ((u, v), ∅) (edges G2)).

Definition successors (G : DiGraph) (u : Z) : list Z :=
  (filter (λ e, e.1 = u) (edges G).*1).*2.

(** Degrees, counted in a list of edges. *)
Definition outdegree_in (es : list (Z * Z)) (u : Z) : nat :=
  length (filter (λ e, e.1 = u) es).
Definition indegree_in (es : list (Z * Z)) (v : Z) : nat :=
  length (filter (λ e, e.2 = v) es).
Definition out_degree (G : DiGraph) (u : Z) : nat := outdegree_in (edges G).*1 u.
Definition in_degree (G : DiGraph) (v : Z) : nat := indegree_in (edges G).*1 v.

(** ** Task 4a: the appear-ignore tagger ([add_appear_ignore_attr]) *)

(** One turn of [for node in cand_graph.nodes()]. *)
Definition add_appear_ignore_attr_step (cand_graph : DiGraph) (node : Z) : res DiGraph :=
  data ← nodes_getitem cand_graph node;
  time ← getitem data "t";
  data ← nodes_getitem cand_graph node;
  pos_x ← getitem data "x";
  if py_eq time (VInt 0) || py_ge pos_x (VInt 710)
  then set_node_attr cand_graph node "ignore_appear" (VBool true)
  else Ok cand_graph.

Definition add_appear_ignore_attr (cand_graph : DiGraph) : res DiGraph :=
  for_each add_appear_ignore_attr_step (nodes cand_graph).*1 cand_graph.

(** ** Task 5a: the drift-distance tagger ([add_drift_dist_attr]) *)

(** A position read out of a node: [np.array([data["x"], data["y"]])] of
    two floats. *)
Definition as_float (v : value) : res float :=
  match v with
  | VFloat f => Ok f
  | _ => Raise TypeError
  end.

Definition node_pos (data : gmap string value) : res (float * float) :=
  x ← getitem data "x"; y ← getitem data "y";
  fx ← as_float x; fy ← as_float y; Ok (fx, fy).

(** [np.linalg.norm] of a vector of two floats: the square root of its dot
    product with itself. *)
Definition linalg_norm (v : float * float) : float :=
  PrimFloat.sqrt (v.1 * v.1 + v.2 * v.2)%float.

Definition vadd (a b : float * float) : float * float :=
  ((a.1 + b.1)%float, (a.2 + b.2)%float).
Definition vsub (a b : float * float) : float * float :=
  ((a.1 - b.1)%float, (a.2 - b.2)%float).

(** The module-level [drift = np.array([-10, 0])]. *)
Definition drift : float * float := ((-10)%float, 0%float).

(** One turn of [for edge in cand_graph.edges()]. *)
Definition add_drift_dist_attr_step (drift : float * float) (cand_graph : DiGraph)
    (edge : Z * Z) : res DiGraph :=
  let '(source, target) := edge in
  source_data ← nodes_getitem cand_graph source;
  source_pos ← node_pos source_data;
  target_data ← nodes_getitem cand_graph target;
  target_pos ← node_pos target_data;
  let expected_target_pos := vadd source_pos drift in
  let drift_dist := linalg_norm (vsub expected_target_pos target_pos) in
  set_edge_attr cand_graph edge "drift_dist" (VFloat drift_dist).

Definition add_drift_dist_attr (cand_graph : DiGraph) (drift : float * float)
  : res DiGraph :=
  for_each (add_drift_dist_attr_step drift) (edges cand_graph).*1 cand_graph.

(** ** Arrays

    A [numpy] array of integers is a nested list; a segmentation volume has
    the axes (t, row, column). *)
Abbreviation ndarray2 := (list (list Z)).
Abbreviation ndarray3 := (list (list (list Z))).

(** [a[i]] on a sequence or along the first axis of an array: a negative
    index counts from the end, an index out of range raises [IndexError]. *)
Definition np_index (n : nat) (i : Z) : res nat :=
  let j := if (i <? 0)%Z then (i + Z.of_nat n)%Z else i in
  if (0 <=? j)%Z && (j <? Z.of_nat n)%Z then Ok (Z.to_nat j) else Raise IndexError.

Definition np_getitem {A : Type} (a : list A) (i : Z) : res A :=
  j ← np_index (length a) i;
  match a !! j with
  | Some v => Ok v
  | None => Raise IndexError
  end.

Definition shape2 (a : ndarray2) : nat * nat :=
  (length a, match a with r :: _ => length r | [] => 0 end).

(** [np.stack(arrays)]: the arrays along a new first axis; it needs at least
    one array, and all of one shape. *)
Definition np_stack (arrays : list ndarray2) : res ndarray3 :=
  match arrays with
  | [] => Raise ValueError
  | a :: rest =>
      if forallb (λ b, bool_decide (shape2 b = shape2 a)) rest
      then Ok arrays else Raise ValueError
  end.

Definition py_assert (b : bool) : res unit :=
  if b then Ok () else Raise AssertionError.

(** ** The detection notebook: loading the dataset

    [images] and [gt_tracking] are the frames read by [imread] from the
    sorted [*.tif] files of the two directories. *)
Definition load_dataset (images gt_tracking : list ndarray2) : res (ndarray3 * ndarray3) :=
  x ← np_stack images;
  y ← np_stack gt_tracking;
  _ ← py_assert (bool_decide (length x = length x));
  Ok (x, y).

(** ** Task 1: reading the ground-truth tracks ([read_gt_tracks]) *)

Section read_gt_tracks.
(** The built-ins [int(s)] and [float(s)] on the text of a CSV field. *)
Variable py_int_of_str : string → res Z.
Variable py_float_of_str : string → res float.

(** The fields of one row that [csv.DictReader] yields, converted: the node
    id, the node attributes and the parent id. *)
Definition parse_gt_row (row : gmap string string) : res (Z * gmap string value * Z) :=
  id_s ← getitem row "id"; _id ← py_int_of_str id_s;
  x_s ← getitem row "x"; x ← py_float_of_str x_s;
  y_s ← getitem row "y"; y ← py_float_of_str y_s;
  t_s ← getitem row "time"; t ← py_int_of_str t_s;
  let attrs : gmap string value :=
    <["x" := VFloat x]> (<["y" := VFloat y]> (<["t" := VInt t]> ∅)) in
  p_s ← getitem row "parent_id"; parent_id ← py_int_of_str p_s;
  Ok (_id, attrs, parent_id).

(** One turn of the loop over the rows. *)
Definition read_gt_row (gt_tracks : DiGraph) (row : gmap string string) : res DiGraph :=
  '(_id, attrs, parent_id) ← parse_gt_row row;
  let gt_tracks := add_node gt_tracks _id attrs in
  Ok (if bool_decide (parent_id ≠ (-1)%Z)
      then add_edge gt_tracks parent_id _id
      else gt_tracks).

Definition read_gt_tracks (rows : list (gmap string string)) : res DiGraph :=
  for_each read_gt_row rows empty_graph.
End read_gt_tracks.

(** Plain decimal literals, on which [int] and [float] are instantiated in
    the examples: an optional minus sign, digits, and for a float an
    optional fraction. *)
Definition digit_of_ascii (c : ascii) : option Z :=
  let n := Z.of_N (Ascii.N_of_ascii c) in
  if (48 <=? n)%Z && (n <=? 57)%Z then Some (n - 48)%Z else None.

Fixpoint digits_value (acc : Z) (s : string) : option Z :=
  match s with
  | EmptyString => Some acc
  | String c s' =>
      match digit_of_ascii c with
      | Some d => digits_value (10 * acc + d)%Z s'
      | None => None
      end
  end.

Definition unsigned_decimal (s : string) : option Z :=
  match s with
  | EmptyString => None
  | _ => digits_value 0 s
  end.

Definition int_of_decimal (s : string) : res Z :=
  match s with
  | String "-" s' =>
      match unsigned_decimal s' with Some n => Ok (- n)%Z | None => Raise ValueError end
  | _ => match unsigned_decimal s with Some n => Ok n | None => Raise ValueError end
  end.

Fixpoint split_at_dot (s : string) : string * option string :=
  match s with
  | EmptyString => (EmptyString, None)
  | String "." s' => (EmptyString, Some s')
  | String c s' => let '(a, b) := split_at_dot s' in (String c a, b)
  end.

Definition float_of_Z (n : Z) : float :=
  if (n <? 0)%Z then (- PrimFloat.of_uint63 (Uint63.of_Z (- n)))%float
  else PrimFloat.of_uint63 (Uint63.of_Z n).

Definition float_of_decimal (s : string) : res float :=
  let '(neg, body) := match s with String "-" s' => (true, s') | _ => (false, s) end in
  let '(ip, fp) := split_at_dot body in
  let fp := default EmptyString fp in
  match unsigned_decimal (ip +:+ fp) with
  | Some n =>
      let f := (float_of_Z n / float_of_Z (10 ^ Z.of_nat (String.length fp)))%float in
      Ok (if neg then (- f)%float else f)
  | None => Raise ValueError
  end.

(** ** The bonus: matching ground truth to candidates ([get_cand_id],
    [add_gt_annotations]) *)

(** [int(v)]: a float is cut towards zero; [nan] and the infinities raise. *)
Definition py_int (v : value) : res Z :=
  match v with
  | VInt z => Ok z
  | VBool b => Ok (if b then 1 else 0)%Z
  | VFloat f =>
      match Prim2SF f with
      | S754_nan => Raise ValueError
      | S754_infinity _ => Raise OverflowError
      | _ => match float_Q f with
             | Some q => Ok (Z.quot (Qnum q) (Zpos (Qden q)))
             | None => Raise ValueError
             end
      end
  end.

(** A value used as an array index must be an integer. *)
Definition as_index (v : value) : res Z :=
  match v with
  | VInt z => Ok z
  | VBool b => Ok (if b then 1 else 0)%Z
  | VFloat _ => Raise IndexError
  end.

Definition get_cand_id (gt_node : Z) (gt_track : DiGraph) (cand_segmentation : ndarray3)
  : res Z :=
  data ← nodes_getitem gt_track gt_node;
  t ← getitem data "t";
  x ← getitem data "x";
  ix ← py_int x;
  t ← as_index t;
  frame ← np_getitem cand_segmentation t;
  row ← np_getitem frame ix;
  y ← getitem data "y";
  iy ← py_int y;
  np_getitem row iy.

(** [[f(a) for a in l]]. *)
Fixpoint list_comp {A B : Type} (f : A → res B) (l : list A) : res (list B) :=
  match l with
  | [] => Ok []
  | a :: l' => b ← f a; bs ← list_comp f l'; Ok (b :: bs)
  end.

(** One turn of the loop over the ground-truth nodes. *)
Definition annotate_gt_node (gt_tracks : DiGraph) (segmentation : ndarray3)
    (cand_graph : DiGraph) (gt_node : Z) : res DiGraph :=
  cand_id ← get_cand_id gt_node gt_tracks segmentation;
  if bool_decide (cand_id ≠ 0%Z) && has_node cand_graph cand_id then
    cand_graph ← set_node_attr cand_graph cand_id "gt" (VBool true);
    let gt_succs := successors gt_tracks gt_node in
    gt_succ_matches ← list_comp (λ gt_succ, get_cand_id gt_succ gt_tracks segmentation)
                                gt_succs;
    let cand_succs := successors cand_graph cand_id in
    for_each (λ cand_graph succ,
        set_edge_attr cand_graph (cand_id, succ) "gt"
          (VBool (bool_decide (succ ∈ gt_succ_matches))))
      cand_succs cand_graph
  else Ok cand_graph.

(** One turn of the closing loop over the candidate nodes. *)
Definition default_gt_node (cand_graph : DiGraph) (node : Z) : res DiGraph :=
  data ← nodes_getitem cand_graph node;
  if bool_decide (is_Some (data !! "gt")) then Ok cand_graph
  else set_node_attr cand_graph node "gt" (VBool false).

Definition add_gt_annotations (gt_tracks cand_graph : DiGraph) (segmentation : ndarray3)
  : res DiGraph :=
  cand_graph ← for_each (annotate_gt_node gt_tracks segmentation)
                  (nodes gt_tracks).*1 cand_graph;
  for_each default_gt_node (nodes cand_graph).*1 cand_graph.

(** The lookup the specification words: the same sampling, with each
    coordinate rounded to the nearest integer (ties to even, as Python's
    [round]) instead of passed through [int]. *)
Definition py_round (v : value) : res Z :=
  match v with
  | VInt z => Ok z
  | VBool b => Ok (if b then 1 else 0)%Z
  | VFloat f =>
      match Prim2SF f with
      | S754_nan => Raise ValueError
      | S754_infinity _ => Raise OverflowError
      | _ => match float_Q f with
             | Some q =>
                 let lo := Qfloor q in
                 let twice := (2 * (q - inject_Z lo))%Q in
                 Ok (if Qle_bool twice 1 && negb (Qeq_bool twice 1 && Z.odd lo)
                     then lo else lo + 1)%Z
             | None => Raise ValueError
             end
      end
  end.

Definition get_cand_id_rounded (gt_node : Z) (gt_track : DiGraph)
    (cand_segmentation : ndarray3) : res Z :=
  data ← nodes_getitem gt_track gt_node;
  t ← getitem data "t";
  x ← getitem data "x";
  ix ← py_round x;
  t ← as_index t;
  frame ← np_getitem cand_segmentation t;
  row ← np_getitem frame ix;
  y ← getitem data "y";
  iy ← py_round y;
  np_getitem row iy.

(** ** Candidate edges ([_compute_node_frame_dict], [create_kdtree],
    [add_cand_edges]) *)

(** A frame index stored in a node must be an [int]. *)
Definition as_int (v : value) : res Z :=
  match v with
  | VInt z => Ok z
  | _ => Raise TypeError
  end.

Definition _compute_node_frame_dict (cand_graph : DiGraph) : res (gmap Z (list Z)) :=
  for_each (λ (node_frame_dict : gmap Z (list Z)) '(node, data),
      t ← getitem data "t";
      t ← as_int t;
      let node_frame_dict :=
        if bool_decide (is_Some (node_frame_dict !! t)) then node_frame_dict
        else <[t := []]> node_frame_dict in
      Ok (<[t := (default [] (node_frame_dict !! t) ++ [node])%list]> node_frame_dict))
    (nodes cand_graph) ∅.

(** [scipy.spatial.KDTree(data)].  A k-d tree is used only through ball
    queries: it is the list of the points it was built on, in their
    order.  The constructor refuses data that is not a two-dimensional
    array, as the empty list, and data with a [nan] or an infinite
    coordinate, with a [ValueError] each. *)
Definition KDTree (data : list (float * float)) : res (list (float * float)) :=
  match data with
  | [] => Raise ValueError
  | _ =>
      if forallb (λ p, PrimFloat.is_finite p.1 && PrimFloat.is_finite p.2) data
      then Ok data else Raise ValueError
  end.

Definition create_kdtree (cand_graph : DiGraph) (node_ids : list Z)
  : res (list (float * float)) :=
  positions ← list_comp (λ node,
      dx ← nodes_getitem cand_graph node; x ← getitem dx "x"; x ← as_float x;
      dy ← nodes_getitem cand_graph node; y ← getitem dy "y"; y ← as_float y;
      Ok (x, y))
    node_ids;
  KDTree positions.

(** The Euclidean distance of two points. *)
Definition distance (p q : float * float) : float := linalg_norm (vsub p q).

(** The squared Euclidean distance of two points, as the tree computes
    it: the squares of the coordinate differences, added in the order of
    the coordinates. *)
Definition sqeuclidean (p q : float * float) : float :=
  ((p.1 - q.1) * (p.1 - q.1) + (p.2 - q.2) * (p.2 - q.2))%float.

(** [self.query_ball_tree(other, r)]: for each point of [self], the
    indices, in increasing order, of the points of [other] in its ball.
    The tree works on squared distances: a point is in the ball when its
    squared distance is at most [r * r], so that a negative [r] stands
    for its absolute value and no root is taken.  This is the test the
    tree makes on the points of its leaves; its pruning of boxes that lie
    further apart is taken not to change the answer. *)
Definition query_ball_tree (self other : list (float * float)) (r : float)
  : list (list nat) :=
  map (λ p, (filter (λ jq, PrimFloat.leb (sqeuclidean p jq.2) (r * r) = true)
                    (imap (λ j q, (j, q)) other)).*1)
      self.

(** [d[k]] on the frame dictionary. *)
Definition frames_getitem (d : gmap Z (list Z)) (k : Z) : res (list Z) :=
  match d !! k with
  | Some v => Ok v
  | None => Raise KeyError
  end.

(** One turn of [for frame in frames]: the state is the graph and the
    variables [prev_node_ids], [prev_kdtree] that survive the turn. *)
Definition add_cand_edges_step (node_frame_dict : gmap Z (list Z))
    (max_edge_distance : float)
    (st : DiGraph * list Z * list (float * float)) (frame : Z)
  : res (DiGraph * list Z * list (float * float)) :=
  let '(cand_graph, prev_node_ids, prev_kdtree) := st in
  match node_frame_dict !! (frame + 1)%Z with
  | None => Ok (cand_graph, prev_node_ids, prev_kdtree)
  | Some next_node_ids =>
      next_kdtree ← create_kdtree cand_graph next_node_ids;
      let matched_indices := query_ball_tree prev_kdtree next_kdtree max_edge_distance in
      cand_graph ← for_each (λ G '(prev_node_id, next_node_indices),
          for_each (λ G next_node_index,
              next_node_id ← np_getitem next_node_ids (Z.of_nat next_node_index);
              Ok (add_edge G prev_node_id next_node_id))
            next_node_indices G)
        (zip prev_node_ids matched_indices) cand_graph;
      Ok (cand_graph, next_node_ids, next_kdtree)
  end.

Definition add_cand_edges (cand_graph : DiGraph) (max_edge_distance : float)
  : res DiGraph :=
  node_frame_dict ← _compute_node_frame_dict cand_graph;
  let frames := merge_sort Z.le (map_to_list node_frame_dict).*1 in
  frame0 ← np_getitem frames 0;
  prev_node_ids ← frames_getitem node_frame_dict frame0;
  prev_kdtree ← create_kdtree cand_graph prev_node_ids;
  st ← for_each (add_cand_edges_step node_frame_dict max_edge_distance) frames
         (cand_graph, prev_node_ids, prev_kdtree);
  Ok st.1.1.

(** ** Relabelling the segmentation ([relabel_segmentation])

    The function receives references to two objects and mutates one of
    them, so the objects live in a store. *)
Inductive pyobj : Type :=
| ObjGraph (G : DiGraph)
| ObjArray (a : ndarray3).

Definition load_graph (h : gmap positive pyobj) (l : positive) : res DiGraph :=
  match h !! l with
  | Some (ObjGraph G) => Ok G
  | _ => Raise TypeError
  end.
Definition load_array (h : gmap positive pyobj) (l : positive) : res ndarray3 :=
  match h !! l with
  | Some (ObjArray a) => Ok a
  | _ => Raise TypeError
  end.

(** [nx.set_node_attributes(G, {n: {k: v} for n in ns})]: ids that are not
    nodes of [G] are passed over. *)
Definition set_node_attributes (G : DiGraph) (ns : list Z) (k : string) (v : value)
  : DiGraph :=
  foldl (λ G n, mkDiGraph (alist_alter (λ a, <[k := v]> a) n (nodes G)) (edges G)) G ns.

(** The nodes an edge of [es] joins to [v], in either direction. *)
Definition neighbours (es : list (Z * Z)) (v : Z) : list Z :=
  ((filter (λ e, e.1 = v) es).*2 ++ (filter (λ e, e.2 = v) es).*1)%list.

(** The weakly connected component grown from [seen], one layer per unit
    of fuel. *)
Fixpoint component (es : list (Z * Z)) (fuel : nat) (seen : list Z) : list Z :=
  match fuel with
  | O => seen
  | S fuel' =>
      match remove_dups (filter (λ w, w ∉ seen) (seen ≫= neighbours es)) with
      | [] => seen
      | new => component es fuel' (seen ++ new)%list
      end
  end.

(** Modelled from the spec: [assign_tracklet_ids] is imported from the
    [motile_toolbox] package and its body is not part of the sources.
    Every maximal chain of nodes that does not cross a division gets one
    identifier: the edges that leave a node with two or more children are
    dropped, and the weakly connected components of what is left are
    numbered in the order of their first node. *)
Definition assign_tracklet_ids_step (es : list (Z * Z)) (fuel : nat)
    (st : DiGraph * list Z * Z) (v : Z) : DiGraph * list Z * Z :=
  let '(G', seen, track_id) := st in
  if bool_decide (v ∈ seen) then (G', seen, track_id)
  else
    let tracklet := component es fuel [v] in
    (set_node_attributes G' tracklet "tracklet_id" (VInt track_id),
     (seen ++ tracklet)%list, (track_id + 1)%Z).

Definition assign_tracklet_ids (G : DiGraph) : DiGraph :=
  let es := filter (λ e, (out_degree G e.1 < 2)%nat) (edges G).*1 in
  (foldl (assign_tracklet_ids_step es (length (nodes G))) (G, [], 1%Z) (nodes G).*1).1.1.

Definition zeros_like (a : ndarray3) : ndarray3 := map (map (map (λ _, 0%Z))) a.

(** [frame == v], a boolean mask, and [out[mask] = v]. *)
Definition mask_eq (frame : ndarray2) (v : Z) : list (list bool) :=
  map (map (λ p, bool_decide (p = v))) frame.
Definition masked_assign (out : ndarray2) (mask : list (list bool)) (v : Z) : ndarray2 :=
  zip_with (zip_with (λ o (m : bool), if m then v else o)) out mask.

(** One turn of the loop over the nodes, on the objects themselves: the
    new contents of [tracked_masks]. *)
Definition relabel_node (G : DiGraph) (segmentation tracked_masks : ndarray3) (node : Z)
  : res ndarray3 :=
  data ← nodes_getitem G node;
  time_frame ← getitem data "t";
  let previous_seg_id := node in
  data ← nodes_getitem G node;
  track_id ← getitem data "tracklet_id";
  time_frame ← as_index time_frame;
  seg_frame ← np_getitem segmentation time_frame;
  let previous_seg_mask := mask_eq seg_frame previous_seg_id in
  k ← np_index (length tracked_masks) time_frame;
  out_frame ← np_getitem tracked_masks time_frame;
  track_id ← as_int track_id;
  Ok (<[k := masked_assign out_frame previous_seg_mask track_id]> tracked_masks).

(** The same turn in the store: the three objects are read through their
    references, and the result is written to [tracked_masks]. *)
Definition relabel_step (solution_nx_graph segmentation tracked_masks : positive)
    (h : gmap positive pyobj) (node : Z) : res (gmap positive pyobj) :=
  G ← load_graph h solution_nx_graph;
  seg ← load_array h segmentation;
  out ← load_array h tracked_masks;
  out ← relabel_node G seg out node;
  Ok (<[tracked_masks := ObjArray out]> h).

(** The call [relabel_segmentation(solution_nx_graph, segmentation)] in
    the store [h]: the store after the call and the reference returned. *)
Definition relabel_segmentation (h : gmap positive pyobj)
    (solution_nx_graph segmentation : positive) : res (gmap positive pyobj * positive) :=
  G ← load_graph h solution_nx_graph;
  let h := <[solution_nx_graph := ObjGraph (assign_tracklet_ids G)]> h in
  seg ← load_array h segmentation;
  let tracked_masks := fresh (dom h) in
  let h := <[tracked_masks := ObjArray (zeros_like seg)]> h in
  G ← load_graph h solution_nx_graph;
  h ← for_each (relabel_step solution_nx_graph segmentation tracked_masks)
        (nodes G).*1 h;
  Ok (h, tracked_masks).

(** ** The tracking solver ([solve_basic_optimization],
    [solve_appear_optimization], [solve_drift_optimization])

    The notebook describes a solver by the costs and constraints it adds
    to it. *)
Inductive cost : Type :=
| EdgeDistance (weight constant : float) (position_attribute : string * string)
| EdgeSelection (weight constant : float) (attribute : string)
| Appear (constant : float) (ignore_attribute : option string)
| Split (constant : float).

Inductive constraint : Set :=
| MaxParents (max_parents : nat)
| MaxChildren (max_children : nat).

Record Solver : Type := mkSolver {
  graph : DiGraph;
  costs : list cost;
  constraints : list constraint
}.

(** [motile.Solver(motile.TrackGraph(cand_graph, frame_attribute="t"))],
    [solver.add_cost], [solver.add_constraint]. *)
Definition new_solver (cand_graph : DiGraph) : Solver := mkSolver cand_graph [] [].
Definition add_cost (solver : Solver) (c : cost) : Solver :=
  mkSolver (graph solver) (costs solver ++ [c])%list (constraints solver).
Definition add_constraint (solver : Solver) (c : constraint) : Solver :=
  mkSolver (graph solver) (costs solver) (constraints solver ++ [c])%list.

Definition basic_solver (cand_graph : DiGraph) : Solver :=
  let solver := new_solver cand_graph in
  let solver := add_cost solver (EdgeDistance 1 (-20) ("x", "y")) in
  let solver := add_cost solver (Appear 1 None) in
  let solver := add_constraint solver (MaxParents 1) in
  add_constraint solver (MaxChildren 2).

Definition appear_solver (cand_graph : DiGraph) : Solver :=
  let solver := new_solver cand_graph in
  let solver := add_cost solver (EdgeDistance 1 (-20) ("x", "y")) in
  let solver := add_cost solver (Appear 10 (Some "ignore_appear")) in
  let solver := add_constraint solver (MaxParents 1) in
  add_constraint solver (MaxChildren 2).

Definition drift_solver (cand_graph : DiGraph) : Solver :=
  let solver := new_solver cand_graph in
  let solver := add_cost solver (EdgeSelection 1 (-30) "drift_dist") in
  let solver := add_cost solver (Appear 100 (Some "ignore_appear")) in
  let solver := add_cost solver (Split 20) in
  let solver := add_constraint solver (MaxParents 1) in
  add_constraint solver (MaxChildren 2).

(** *** The integer program

    Modelled from the spec: the [motile] library, which builds and solves
    the program, is not part of the sources.  Every candidate node and
    every candidate edge has a binary variable; a cost is a coefficient on
    a variable or on the indicators "the node starts a track" and "the
    node divides"; the constraints are those of the specification. *)
Record ilp : Type := mkIlp {
  ilp_nodes : list Z;
  ilp_edges : list (Z * Z);
  edge_cost : list Q;
  appear_cost : list Q;
  split_cost : list Q;
  ilp_max_parents : list nat;
  ilp_max_children : list nat
}.

Definition finite_Q (f : float) : res Q :=
  match float_Q f with
  | Some q => Ok q
  | None => Raise ValueError
  end.

(** The truth value of an attribute. *)
Definition py_truthy (v : value) : bool :=
  match v with
  | VBool b => b
  | VInt z => negb (z =? 0)%Z
  | VFloat f => negb (PrimFloat.eqb f 0)
  end.

Definition pos_of (data : gmap string value) (attr : string * string)
  : res (float * float) :=
  x ← getitem data attr.1; y ← getitem data attr.2;
  fx ← as_float x; fy ← as_float y; Ok (fx, fy).

Definition edge_coefficient (G : DiGraph) (e : Z * Z) (c : cost) : res Q :=
  match c with
  | EdgeDistance weight constant position_attribute =>
      du ← nodes_getitem G e.1; pu ← pos_of du position_attribute;
      dv ← nodes_getitem G e.2; pv ← pos_of dv position_attribute;
      finite_Q (weight * distance pu pv + constant)%float
  | EdgeSelection weight constant attribute =>
      a ← edges_getitem G e; v ← getitem a attribute; f ← as_float v;
      finite_Q (weight * f + constant)%float
  | _ => Ok 0%Q
  end.

Definition appear_coefficient (G : DiGraph) (v : Z) (c : cost) : res Q :=
  match c with
  | Appear constant ignore_attribute =>
      data ← nodes_getitem G v;
      let ignored :=
        match ignore_attribute with
        | Some k => match data !! k with Some b => py_truthy b | None => false end
        | None => false
        end in
      if ignored then Ok 0%Q else finite_Q constant
  | _ => Ok 0%Q
  end.

Definition split_coefficient (c : cost) : res Q :=
  match c with
  | Split constant => finite_Q constant
  | _ => Ok 0%Q
  end.

Definition Qsum (l : list Q) : Q := foldr Qplus 0%Q l.

(** The coefficient of a variable: the sum of what each cost puts on it. *)
Definition total (f : cost → res Q) (cs : list cost) : res Q :=
  qs ← list_comp f cs; Ok (Qsum qs).

Definition build_ilp (solver : Solver) : res ilp :=
  let G := graph solver in
  _ ← list_comp (λ data : gmap string value, t ← getitem data "t"; as_int t) (nodes G).*2;
  ec ← list_comp (λ e, total (edge_coefficient G e) (costs solver)) (edges G).*1;
  ac ← list_comp (λ v, total (appear_coefficient G v) (costs solver)) (nodes G).*1;
  sc ← list_comp (λ _ : Z, total split_coefficient (costs solver)) (nodes G).*1;
  Ok (mkIlp (nodes G).*1 (edges G).*1 ec ac sc
        (omap (λ c, match c with MaxParents n => Some n | _ => None end)
              (constraints solver))
        (omap (λ c, match c with MaxChildren n => Some n | _ => None end)
              (constraints solver))).

(** An assignment of the binary variables, in the order of the nodes and
    of the edges. *)
Record selection : Set := mkSelection {
  sel_nodes : list bool;
  sel_edges : list bool
}.

(** The items whose variable is 1. *)
Definition selected {A : Type} (xs : list A) (bs : list bool) : list A :=
  (filter (λ p, p.2 = true) (zip xs bs)).*1.

(** The hard constraints: an edge is selected only with both its end
    nodes; a node has at most [max_parents] selected incoming and at most
    [max_children] selected outgoing edges. *)
Definition feasible (P : ilp) (x : selection) : bool :=
  let sn := selected (ilp_nodes P) (sel_nodes x) in
  let se := selected (ilp_edges P) (sel_edges x) in
  bool_decide (length (sel_nodes x) = length (ilp_nodes P))
  && bool_decide (length (sel_edges x) = length (ilp_edges P))
  && forallb (λ e, bool_decide (e.1 ∈ sn) && bool_decide (e.2 ∈ sn)) se
  && forallb (λ v, forallb (λ n, bool_decide (indegree_in se v ≤ n)%nat) (ilp_max_parents P)
                  && forallb (λ n, bool_decide (outdegree_in se v ≤ n)%nat) (ilp_max_children P))
       (ilp_nodes P).

Definition charge (b : bool) (c : Q) : Q := if b then c else 0%Q.

(** The objective: the cost of the selected edges, the appear charge of
    every selected node without a selected incoming edge, and the
    division charge of every node with two or more selected outgoing
    edges. *)
Definition objective (P : ilp) (x : selection) : Q :=
  let se := selected (ilp_edges P) (sel_edges x) in
  let edge_part := Qsum (zip_with charge (sel_edges x) (edge_cost P)) in
  let appear_part :=
    Qsum (zip_with (λ vb c, charge (vb.2 && bool_decide (indegree_in se vb.1 = 0%nat)) c)
            (zip (ilp_nodes P) (sel_nodes x)) (appear_cost P)) in
  let split_part :=
    Qsum (zip_with (λ v c, charge (bool_decide (2 ≤ outdegree_in se v)%nat) c)
            (ilp_nodes P) (split_cost P)) in
  (edge_part + appear_part + split_part)%Q.

Definition optimal (P : ilp) (x : selection) : Prop :=
  feasible P x = true ∧ ∀ x', feasible P x' = true → (objective P x <= objective P x')%Q.

(** [graph_to_nx(solver.get_selected_subgraph())]: the selected nodes and
    edges, with the attributes they have in the candidate graph. *)
Definition get_selected_subgraph (G : DiGraph) (x : selection) : DiGraph :=
  mkDiGraph (selected (nodes G) (sel_nodes x)) (selected (edges G) (sel_edges x)).

(** [solver.solve()] finds an optimal assignment, and nothing says which
    one of several: solving is a relation between the solver and the
    solution graph it may return. *)
Definition solve (solver : Solver) (solution_graph : DiGraph) : Prop :=
  ∃ P x, build_ilp solver = Ok P ∧ optimal P x
         ∧ solution_graph = get_selected_subgraph (graph solver) x.

Definition solve_basic_optimization (cand_graph solution_graph : DiGraph) : Prop :=
  solve (basic_solver cand_graph) solution_graph.
Definition solve_appear_optimization (cand_graph solution_graph : DiGraph) : Prop :=
  solve (appear_solver cand_graph) solution_graph.
Definition solve_drift_optimization (cand_graph solution_graph : DiGraph) : Prop :=
  solve (drift_solver cand_graph) solution_graph.

(** Directed paths, and forests of trees that grow from nodes without a
    parent. *)
Inductive path (G : DiGraph) : Z → Z → list Z → Prop :=
| path_root v : v ∈ (nodes G).*1 → path G v v [v]
| path_step r u v p :
    path G r u p → (u, v) ∈ (edges G).*1 → path G r v (p ++ [v])%list.

Definition rooted_forest (G : DiGraph) : Prop :=
  ∀ v, v ∈ (nodes G).*1 →
    ∃ r p, in_degree G r = 0%nat ∧ path G r v p
           ∧ ∀ r' p', in_degree G r' = 0%nat → path G r' v p' → r' = r ∧ p' = p.

(** The frame of a node. *)
Definition frame_of (G : DiGraph) (n : Z) : option Z :=
  a ← node_attrs G n;
  match a !! "t" with
  | Some (VInt t) => Some t
  | _ => None
  end.

(** ** Vocabulary of the statements *)

(** [x >= b] for a float and an integer, as numbers. *)
Definition at_least (x : float) (b : Z) : Prop :=
  match float_xreal x with
  | XFin q => (inject_Z b <= q)%Q
  | XPosInf => True
  | _ => False
  end.

(** What the appear-ignore tagger does to the attributes of one node. *)
Definition appear_tag (a : gmap string value) : gmap string value :=
  match a !! "t", a !! "x" with
  | Some t, Some x =>
      if py_eq t (VInt 0) || py_ge x (VInt 710)
      then <["ignore_appear" := VBool true]> a else a
  | _, _ => a
  end.

(** The drift distance of an edge: the norm of (source + drift) - target. *)
Definition drift_dist_of (G : DiGraph) (drift : float * float) (e : Z * Z) : option float :=
  au ← node_attrs G e.1;
  av ← node_attrs G e.2;
  match node_pos au, node_pos av with
  | Ok p0, Ok p1 => Some (linalg_norm (vsub (vadd p0 drift) p1))
  | _, _ => None
  end.

(** What the drift tagger does to the attributes of the edge [e]. *)
Definition drift_tag (G : DiGraph) (drift : float * float) (e : Z * Z)
    (a : gmap string value) : gmap string value :=
  match drift_dist_of G drift e with
  | Some f => <["drift_dist" := VFloat f]> a
  | None => a
  end.

(** Test fixtures. *)
Definition node_data (t : Z) (x y : float) : gmap string value :=
  <["t" := VInt t]> (<["x" := VFloat x]> (<["y" := VFloat y]> ∅)).

Definition appear_fixture : DiGraph :=
  mkDiGraph [(1, node_data 0 5 5); (2, node_data 3 800 20); (3, node_data 2 10 700)]%Z
            [((1, 3)%Z, ∅)].

Definition drift_fixture : DiGraph :=
  mkDiGraph [(1, node_data 0 0 0); (2, node_data 1 (-10) 0); (3, node_data 1 0 0)]%Z
            [((1, 2)%Z, ∅); ((1, 3)%Z, ∅)].

(** A row of the ground-truth table, as [csv.DictReader] yields it. *)
Definition csv_row (id time x y parent_id : string) : gmap string string :=
  <["id" := id]> (<["time" := time]> (<["x" := x]> (<["y" := y]>
    (<["parent_id" := parent_id]> ∅)))).

(** A table in which the id 1 comes twice. *)
Definition duplicate_id_table : list (gmap string string) :=
  [csv_row "1" "0" "1.5" "2.5" "-1"; csv_row "2" "1" "4" "4" "1";
   csv_row "1" "5" "30.25" "40" "-1"].

(** An attribute dictionary that has no keys but [x], [y] and [t]. *)
Definition plain_attrs (a : gmap string value) : Prop :=
  ∀ k, is_Some (a !! k) → k = "x" ∨ k = "y" ∨ k = "t".

(** A ground-truth node between pixel rows, over a one-frame segmentation
    whose labels tell the rows apart. *)
Definition lookup_fixture_graph : DiGraph :=
  mkDiGraph [(1%Z, node_data 0 2.75 1.25)] [].
Definition lookup_fixture_seg : ndarray3 :=
  [[[0; 0; 0]; [0; 0; 0]; [0; 7; 7]; [0; 9; 9]]]%Z.

(** The pixel [(k, i, j)] of a volume. *)
Definition pixel (a : ndarray3) (k i j : nat) : option Z :=
  frame ← a !! k; row ← frame !! i; row !! j.

(** Two volumes of one shape. *)
Definition same_shape (a b : ndarray3) : Prop := zeros_like a = zeros_like b.

(** A solution with a division, and a segmentation with a detection (7)
    that is not in it. *)
Definition relabel_fixture_graph : DiGraph :=
  mkDiGraph [(1, node_data 0 0 0); (2, node_data 1 5 5); (3, node_data 1 9 1);
             (4, node_data 2 6 6)]%Z
            [((1, 2)%Z, ∅); ((1, 3)%Z, ∅); ((2, 4)%Z, ∅)].
Definition relabel_fixture_seg : ndarray3 :=
  [[[1; 1; 0]; [0; 0; 0]]; [[2; 0; 3]; [2; 7; 3]]; [[4; 4; 4]; [0; 0; 0]]]%Z.
Definition relabel_fixture_store : gmap positive pyobj :=
  <[1%positive := ObjGraph relabel_fixture_graph]>
    (<[2%positive := ObjArray relabel_fixture_seg]> ∅).

(** The frame and the tracklet id with which a node is painted into a
    volume of [frames] frames. *)
Definition paint_of (G : DiGraph) (frames : nat) (node : Z) : option (nat * Z) :=
  data ← node_attrs G node;
  t ← data !! "t";
  tid ← data !! "tracklet_id";
  match as_index t, as_int tid with
  | Ok ti, Ok id => match np_index frames ti with Ok k => Some (k, id) | Raise _ => None end
  | _, _ => None
  end.

(** The label of a pixel of frame [k] that showed the detection [v], once
    the nodes [done] are painted. *)
Definition label_after (G : DiGraph) (frames : nat) (done : list Z) (k : nat) (v : Z) : Z :=
  if decide (v ∈ done) then
    match paint_of G frames v with
    | Some (kn, tid) => if decide (kn = k) then tid else 0%Z
    | None => 0%Z
    end
  else 0%Z.

(** Detections in the frames 0, 2 and 3: frame 1 is empty. *)
Definition gap_fixture : DiGraph :=
  mkDiGraph [(1, node_data 0 0 0); (2, node_data 2 5 5); (3, node_data 3 1 1)]%Z [].

(** A candidate graph as the data model has it: node ids and edges are not
    repeated, and every edge goes from a node of some frame to a node of
    the next frame. *)
Definition candidate_graph (G : DiGraph) : Prop :=
  NoDup (nodes G).*1 ∧ NoDup (edges G).*1
  ∧ ∀ u v, (u, v) ∈ (edges G).*1 →
      u ∈ (nodes G).*1 ∧ v ∈ (nodes G).*1
      ∧ ∃ tu tv, frame_of G u = Some tu ∧ frame_of G v = Some tv ∧ (tu + 1 = tv)%Z.

(** Two detections in consecutive frames, 3 pixels apart, and the edge
    between them. *)
Definition pair_fixture : DiGraph :=
  mkDiGraph [(1, node_data 0 0 0); (2, node_data 1 3 0)]%Z
            [((1, 2)%Z, <["drift_dist" := VFloat 13]> ∅)].

(** A solver whose costs are all non-negative: every coefficient of its
    program is at least 0. *)
Definition nonneg_costs (P : ilp) : Prop :=
  Forall (Qle 0) (edge_cost P) ∧ Forall (Qle 0) (appear_cost P)
  ∧ Forall (Qle 0) (split_cost P).

(** The assignment that selects nothing. *)
Definition select_nothing (P : ilp) : selection :=
  mkSelection (replicate (length (ilp_nodes P)) false)
              (replicate (length (ilp_edges P)) false).

(** The boundary-aware solver with the constant of the edge cost set to 0
    instead of -20: no cost is negative. *)
Definition appear_solver_without_negative (cand_graph : DiGraph) : Solver :=
  let solver := new_solver cand_graph in
  let solver := add_cost solver (EdgeDistance 1 0 ("x", "y")) in
  let solver := add_cost solver (Appear 10 (Some "ignore_appear")) in
  let solver := add_constraint solver (MaxParents 1) in
  add_constraint solver (MaxChildren 2).

(** Two detections one pixel apart in the frames 0 and 1, after the
    appear-ignore pass: the first carries [ignore_appear]. *)
Definition tagged_fixture : DiGraph :=
  mkDiGraph [(1%Z, <["ignore_appear" := VBool true]> (node_data 0 5 5));
             (2%Z, node_data 1 6 5)]
            [((1, 2)%Z, ∅)].

(** The position of a node, and two nodes within the distance [r] of each
    other as the ball query measures it: their squared distance, computed
    in binary64, is at most [r * r]. *)
Definition pos_of_node (G : DiGraph) (n : Z) (p : float * float) : Prop :=
  ∃ a, node_attrs G n = Some a ∧ node_pos a = Ok p.
Definition within_distance (G : DiGraph) (r : float) (u v : Z) : Prop :=
  ∃ pu pv, pos_of_node G u pu ∧ pos_of_node G v pv
           ∧ PrimFloat.leb (sqeuclidean pu pv) (r * r) = true.

(** A sorted list of frames without a gap: each is the successor of the
    one before. *)
Definition no_gap (frames : list Z) : Prop :=
  ∀ i f f', frames !! i = Some f → frames !! S i = Some f' → f' = (f + 1)%Z.

(** Detections in the three consecutive frames 0, 1 and 2. *)
Definition chain_fixture : DiGraph :=
  mkDiGraph [(1, node_data 0 0 0); (2, node_data 1 5 5); (3, node_data 1 100 1);
             (4, node_data 2 6 6)]%Z [].

(** Two detections in consecutive frames whose distance rounds to 5
    while the square of the distance is above 25. *)
Definition boundary_fixture : DiGraph :=
  mkDiGraph [(1, node_data 0 0 0); (2, node_data 1 0x1.8000000000001p+1 4)]%Z [].

(** A detection in frame 0 and three in frame 1, at the distances 0.5, 5
    and 6 from it. *)
Definition ring_fixture : DiGraph :=
  mkDiGraph [(1, node_data 0 0 0); (2, node_data 1 0.5 0); (3, node_data 1 3 4);
             (4, node_data 1 0 6)]%Z [].

(** Detections in three consecutive frames, with an edge between the
    last two already there. *)
Definition prior_edge_fixture : DiGraph :=
  mkDiGraph [(1, node_data 0 0 0); (2, node_data 1 3 4); (4, node_data 2 3 4)]%Z
            [((2, 4)%Z, <["dist" := VFloat 0]> ∅)].

(** A detection whose [x] is not a number. *)
Definition nan_fixture : DiGraph :=
  mkDiGraph [(1, node_data 0 0 0); (2, node_data 1 nan 4)]%Z [].

(** Whether the lookup of one of the ground-truth nodes [gs] finds the
    candidate [c]. *)
Definition matched_by (gt_tracks : DiGraph) (segmentation : ndarray3) (gs : list Z) (c : Z)
  : bool :=
  existsb (λ g, match get_cand_id g gt_tracks segmentation with
                | Ok c' => bool_decide (c' = c ∧ c ≠ 0%Z)
                | Raise _ => false
                end) gs.

(** What the annotator does to the attributes of a candidate node: the
    match, then the default. *)
Definition gt_true (hit : bool) (a : gmap string value) : gmap string value :=
  if hit then <["gt" := VBool true]> a else a.
Definition gt_default (a : gmap string value) : gmap string value :=
  if bool_decide (is_Some (a !! "gt")) then a else <["gt" := VBool false]> a.

(** Ground truth and candidates for the annotator: the first ground-truth
    node falls on candidate 7, the second on the background. *)
Definition annotator_gt : DiGraph :=
  mkDiGraph [(1, node_data 0 2.75 1.25); (2, node_data 0 0.5 0.5)]%Z [].
Definition annotator_cand : DiGraph :=
  mkDiGraph [(7, node_data 0 2 1.5); (9, node_data 0 3 1.5)]%Z [].

(** ** Further vocabulary, and the parts of the notebook that the statements
    below cover *)

(** The parent ids of a converted table: the last fields that are not -1. *)
Definition parent_ids (parsed : list (Z * gmap string value * Z)) : list Z :=
  filter (λ p, p ≠ (-1)%Z) parsed.*2.

(** The links of a converted table: (parent id, id) for every row with a
    parent. *)
Definition parent_links (parsed : list (Z * gmap string value * Z)) : list (Z * Z) :=
  (λ r, (r.2, r.1.1)) <$> filter (λ r, r.2 ≠ (-1)%Z) parsed.

(** A table whose second row names a parent that has no row. *)
Definition dangling_parent_table : list (gmap string string) :=
  [csv_row "1" "0" "1.5" "2.5" "-1"; csv_row "2" "1" "4" "4" "8";
   csv_row "3" "1" "6" "2" "1"].

(** The attributes a row gives to its node. *)
Definition row_attrs (b : gmap string value) : Prop :=
  ∃ t x y, b !! "t" = Some (VInt t) ∧ b !! "x" = Some (VFloat x)
           ∧ b !! "y" = Some (VFloat y) ∧ plain_attrs b.


(** A table with one root and its two children. *)
Definition lineage_table : list (gmap string string) :=
  [csv_row "1" "0" "1.5" "2.5" "-1"; csv_row "2" "1" "4" "4" "1";
   csv_row "3" "1" "6" "2" "1"].

(** A table whose second row has a time that is no number. *)
Definition bad_time_table : list (gmap string string) :=
  [csv_row "1" "0" "1.5" "2.5" "-1"; csv_row "2" "one" "4" "4" "1";
   csv_row "3" "1" "6" "2" "1"].

(** ** Task 2: candidate nodes from the segmentation
    ([nodes_from_segmentation]) *)

(** What the loop reads of a region: [regionprop.label] and
    [regionprop.centroid]. *)
Record regionprop : Set := mkRegionprop {
  label : Z;
  centroid : float * float
}.

(** [range(n)]. *)
Definition py_range (n : nat) : list Z := Z.of_nat <$> seq 0 n.

Section nodes_from_segmentation.
(** [skimage.measure.regionprops] on a frame of labels. *)
Variable regionprops : ndarray2 → list regionprop.

(** One turn of [for regionprop in props], in the frame [t]. *)
Definition add_region_node (t : Z) (cand_graph : DiGraph) (regionprop : regionprop)
  : res DiGraph :=
  let node_id := label regionprop in
  let attrs : gmap string value :=
    <["t" := VInt t]> (<["x" := VFloat (centroid regionprop).1]>
      (<["y" := VFloat (centroid regionprop).2]> ∅)) in
  _ ← py_assert (negb (has_node cand_graph node_id));
  Ok (add_node cand_graph node_id attrs).

(** One turn of [for t in range(len(segmentation))]. *)
Definition add_frame_nodes (segmentation : ndarray3) (cand_graph : DiGraph) (t : Z)
  : res DiGraph :=
  seg_frame ← np_getitem segmentation t;
  let props := regionprops seg_frame in
  for_each (add_region_node t) props cand_graph.

Definition nodes_from_segmentation (segmentation : ndarray3) : res DiGraph :=
  for_each (add_frame_nodes segmentation) (py_range (length segmentation)) empty_graph.

(** The node a region of the frame [t] becomes, and the nodes of all the
    regions of a segmentation, frame after frame. *)
Definition region_node (t : nat) (rp : regionprop) : Z * gmap string value :=
  (label rp, node_data (Z.of_nat t) (centroid rp).1 (centroid rp).2).
Definition region_nodes (segmentation : ndarray3) : list (Z * gmap string value) :=
  concat (imap (λ t frame, region_node t <$> regionprops frame) segmentation).
End nodes_from_segmentation.

(** Regions for the examples: one for every positive label of the frame,
    in the increasing order of the labels, with the mean row and the mean
    column of its pixels as centroid. *)
Definition label_pixels (frame : ndarray2) (l : Z) : list (nat * nat) :=
  concat (imap (λ i row,
            (λ jv : nat * Z, (i, jv.1))
              <$> filter (λ jv : nat * Z, jv.2 = l) (imap (λ j v, (j, v)) row))
          frame).
Definition mean (l : list nat) : float :=
  (float_of_Z (Z.of_nat (sum_list l)) / float_of_Z (Z.of_nat (length l)))%float.
Definition regionprops_of_labels (frame : ndarray2) : list regionprop :=
  (λ l, let px := label_pixels frame l in mkRegionprop l (mean px.*1, mean px.*2))
    <$> merge_sort Z.le (remove_dups (filter (λ v, (0 < v)%Z) (concat frame))).

(** Two frames with the detections 1, 2 and 3, and two frames that both
    use the label 1. *)
Definition two_frame_seg : ndarray3 :=
  [[[1; 1; 0]; [0; 0; 2]]; [[0; 3; 3]; [0; 3; 3]]]%Z.
Definition reused_label_seg : ndarray3 :=
  [[[1; 1; 0]; [0; 0; 2]]; [[0; 1; 1]; [0; 0; 0]]]%Z.

(** The frame stored in an attribute dictionary, and the nodes of the
    frame [t], in the order of the graph. *)
Definition attrs_frame (a : gmap string value) : option Z :=
  match a !! "t" with
  | Some (VInt t) => Some t
  | _ => None
  end.
Definition frame_group (l : list (Z * gmap string value)) (t : Z) : list Z :=
  (filter (λ na, attrs_frame na.2 = Some t) l).*1.
Definition nodes_at (G : DiGraph) (t : Z) : list Z := frame_group (nodes G) t.

(** The frames that hold nodes leave out no frame between two of them. *)
Definition contiguous_frames (G : DiGraph) : Prop :=
  ∀ t1 t2 t, nodes_at G t1 ≠ [] → nodes_at G t2 ≠ [] → (t1 ≤ t ≤ t2)%Z →
    nodes_at G t ≠ [].

(** The attributes of a detection as the notebook makes it: an integer
    [t] and float [x] and [y] that are numbers (neither [nan] nor
    infinite). *)
Definition detection (a : gmap string value) : Prop :=
  ∃ t x y, a !! "t" = Some (VInt t) ∧ a !! "x" = Some (VFloat x)
           ∧ a !! "y" = Some (VFloat y)
           ∧ PrimFloat.is_finite x = true ∧ PrimFloat.is_finite y = true.

(** The edges of [G] are all in [G'], with their attributes and in the
    order they have in [G]; the other edges of [G'] have no attributes;
    no edge is repeated in [G'] unless one is in [G]. *)
Definition plain_extension (G G' : DiGraph) : Prop :=
  edges G `sublist_of` edges G'
  ∧ (∀ e a, (e, a) ∈ edges G' → (e, a) ∈ edges G ∨ ((e ∉ (edges G).*1) ∧ a = ∅))
  ∧ (NoDup (edges G).*1 → NoDup (edges G').*1).

(** What the turns of the appear-ignore tagger keep of a graph: the
    nodes, and their [t] and [x]. *)
Definition same_t_x (G G1 : DiGraph) : Prop :=
  (nodes G1).*1 = (nodes G).*1
  ∧ ∀ n, (is_Some (node_attrs G1 n) ↔ is_Some (node_attrs G n))
         ∧ ∀ a1 a, node_attrs G1 n = Some a1 → node_attrs G n = Some a →
             a1 !! "t" = a !! "t" ∧ a1 !! "x" = a !! "x".

(** A node without [x] after two complete ones. *)
Definition missing_x_fixture : DiGraph :=
  mkDiGraph [(1, node_data 0 5 5); (2, node_data 3 800 20);
             (3, <["t" := VInt 2]> ∅)]%Z [].

(** A ground-truth node above the first row of the image, and one below
    its last row. *)
Definition above_fixture_graph : DiGraph :=
  mkDiGraph [(1%Z, node_data 0 (-1.5) 1.25)] [].
Definition below_fixture_graph : DiGraph :=
  mkDiGraph [(1%Z, node_data 0 4.5 1.25)] [].

(** The candidates that the successors of the ground-truth node [g] are
    matched to. *)
Definition gt_succ_matches_of (gt_tracks : DiGraph) (segmentation : ndarray3) (g : Z)
  : list Z :=
  match list_comp (λ gt_succ, get_cand_id gt_succ gt_tracks segmentation)
                  (successors gt_tracks g) with
  | Ok l => l
  | Raise _ => []
  end.

(** The mark that the ground-truth nodes [gs], taken in their order, leave
    on the candidate edge from [u] to [v]: the one of the last of them
    that is matched to [u]. *)
Definition edge_mark (gt_tracks cand_graph : DiGraph) (segmentation : ndarray3)
    (gs : list Z) (u v : Z) : option bool :=
  foldl (λ acc g,
      match get_cand_id g gt_tracks segmentation with
      | Ok c =>
          if bool_decide (c = u ∧ u ≠ 0%Z) && has_node cand_graph u
          then Some (bool_decide (v ∈ gt_succ_matches_of gt_tracks segmentation g))
          else acc
      | Raise _ => acc
      end)
    None gs.
Definition gt_edge (mark : option bool) (a : gmap string value) : gmap string value :=
  match mark with
  | Some b => <["gt" := VBool b]> a
  | None => a
  end.

(** Ground truth with a link, over a two-frame segmentation, and
    candidates with the true link and a false one. *)
Definition linked_gt : DiGraph :=
  mkDiGraph [(1, node_data 0 0.5 0.5); (2, node_data 1 0.5 1.5)]%Z [((1, 2)%Z, ∅)].
Definition linked_seg : ndarray3 :=
  [[[7; 0; 0]; [0; 0; 6]]; [[0; 8; 0]; [0; 0; 9]]]%Z.
Definition linked_cand : DiGraph :=
  mkDiGraph [(7, node_data 0 0 0); (6, node_data 0 1 2); (8, node_data 1 0 1);
             (9, node_data 1 1 2)]%Z
            [((7, 8)%Z, ∅); ((7, 9)%Z, ∅); ((6, 9)%Z, ∅)].

(** What the turn for the ground-truth node [g] does to the edges. *)
Definition mark_of_turn (gt_tracks cand_graph : DiGraph) (segmentation : ndarray3)
    (g u v : Z) : option bool :=
  match get_cand_id g gt_tracks segmentation with
  | Ok c =>
      if bool_decide (c = u ∧ u ≠ 0%Z) && has_node cand_graph u
      then Some (bool_decide (v ∈ gt_succ_matches_of gt_tracks segmentation g))
      else None
  | Raise _ => None
  end.


(** ** The labels of the validation graph

    [v is True] and [v is False]: only the booleans themselves. *)
Definition is_True (v : value) : bool :=
  match v with VBool true => true | _ => false end.
Definition is_False (v : value) : bool :=
  match v with VBool false => true | _ => false end.

(** ["gt" in data and data["gt"] is True], and the same with [False]. *)
Definition gt_is (want : value → bool) (data : gmap string value) : bool :=
  match data !! "gt" with
  | Some v => want v
  | None => false
  end.

(** [[n for n, data in G.nodes(data=True) if "gt" in data and data["gt"] is
    True]], and the same with [False]. *)
Definition gt_pos_nodes (validation_graph : DiGraph) : list Z :=
  (filter (λ nd, gt_is is_True nd.2 = true) (nodes validation_graph)).*1.
Definition gt_neg_nodes (validation_graph : DiGraph) : list Z :=
  (filter (λ nd, gt_is is_False nd.2 = true) (nodes validation_graph)).*1.

(** ** Ground-truth detections for the evaluation ([make_gt_detections]) *)

(** [np.zeros(data_shape, dtype="uint32")] for a shape of three axes. *)
Definition np_zeros (data_shape : nat * nat * nat) : ndarray3 :=
  replicate data_shape.1.1 (replicate data_shape.1.2 (replicate data_shape.2 0%Z)).

(** A Python [int] stored into an array of [uint32]: a value outside the
    range of the type is refused with [OverflowError], as NumPy 2 does. *)
Definition to_uint32 (n : Z) : res Z :=
  if (0 <=? n)%Z && (n <? 2 ^ 32)%Z then Ok n else Raise OverflowError.

(** [frame[rr, cc] = v], the two index arrays given as the list of their
    pairs: a negative index counts from the end of its axis, and an index
    out of range raises [IndexError]. *)
Definition fancy_assign (frame : ndarray2) (rc : list (Z * Z)) (v : Z) : res ndarray2 :=
  for_each (λ frame '(r, c),
      i ← np_index (length frame) r;
      row ← np_getitem frame r;
      j ← np_index (length row) c;
      Ok (<[i := <[j := v]> row]> frame))
    rc frame.

Section make_gt_detections.
(** [skimage.draw.disk(center, radius, shape=shape)]: the rows and the
    columns of the pixels of the disk, as the list of their pairs. *)
Variable disk : value * value → value → nat * nat → list (Z * Z).

(** One turn of the loop over the ground-truth nodes: the state is the
    graph, whose nodes are labelled in place, and the array. *)
Definition make_gt_detections_step (radius : value) (frame_shape : nat * nat)
    (st : DiGraph * ndarray3) (node : Z) : res (DiGraph * ndarray3) :=
  let '(gt_tracks, segmentation) := st in
  data ← nodes_getitem gt_tracks node;
  x ← getitem data "x";
  y ← getitem data "y";
  let pos := (x, y) in
  time ← getitem data "t";
  gt_tracks ← set_node_attr gt_tracks node "label" (VInt node);
  let rc := disk pos radius frame_shape in
  time ← as_index time;
  k ← np_index (length segmentation) time;
  frame ← np_getitem segmentation time;
  v ← to_uint32 node;
  frame ← fancy_assign frame rc v;
  Ok (gt_tracks, <[k := frame]> segmentation).

Definition make_gt_detections (data_shape : nat * nat * nat) (gt_tracks : DiGraph)
    (radius : value) : res (DiGraph * ndarray3) :=
  let segmentation := np_zeros data_shape in
  let frame_shape := (data_shape.1.2, data_shape.2) in
  for_each (make_gt_detections_step radius frame_shape) (nodes gt_tracks).*1
           (gt_tracks, segmentation).

(** Whether the index pairs [rc] reach the pixel [(i, j)] of a frame of
    [h] rows and [w] columns. *)
Definition covers (rc : list (Z * Z)) (h w i j : nat) : bool :=
  existsb (λ p, match np_index h p.1, np_index w p.2 with
                | Ok i', Ok j' => bool_decide (i' = i ∧ j' = j)
                | _, _ => false
                end) rc.

(** Whether the disk of the node [n] reaches the pixel [(k, i, j)]. *)
Definition paints (data_shape : nat * nat * nat) (radius : value) (G : DiGraph)
    (n : Z) (k i j : nat) : bool :=
  match node_attrs G n with
  | Some data =>
      match data !! "x", data !! "y", data !! "t" with
      | Some x, Some y, Some t =>
          match as_index t with
          | Ok ti =>
              match np_index data_shape.1.1 ti with
              | Ok k' =>
                  bool_decide (k' = k)
                  && covers (disk (x, y) radius (data_shape.1.2, data_shape.2))
                            data_shape.1.2 data_shape.2 i j
              | Raise _ => false
              end
          | Raise _ => false
          end
      | _, _, _ => false
      end
  | None => false
  end.

(** The label of the pixel [(k, i, j)] once the disks of the nodes [ns]
    are drawn in their order: the last node that reaches it, or 0. *)
Definition detection_label (data_shape : nat * nat * nat) (radius : value) (G : DiGraph)
    (ns : list Z) (k i j : nat) : Z :=
  foldl (λ acc n, if paints data_shape radius G n k i j then n else acc) 0%Z ns.
End make_gt_detections.

(** A square of side 3 around the centre cut to integers, clipped to the
    frame: a stand-in for the disk in the examples. *)
Definition square_disk (center : value * value) (radius : value) (shape : nat * nat)
  : list (Z * Z) :=
  match py_int center.1, py_int center.2 with
  | Ok cx, Ok cy =>
      filter (λ p, (0 ≤ p.1 < Z.of_nat shape.1)%Z ∧ (0 ≤ p.2 < Z.of_nat shape.2)%Z)
        (r ← [cx - 1; cx; cx + 1]%Z; c ← [cy - 1; cy; cy + 1]%Z; [(r, c)])
  | _, _ => []
  end.

(** Two ground-truth nodes in one frame whose squares overlap. *)
Definition overlap_fixture : DiGraph :=
  mkDiGraph [(1, node_data 0 1 1); (2, node_data 0 2 2)]%Z [((1, 2)%Z, ∅)].

(** A frame of [h] rows of [w] columns. *)
Definition rect (h w : nat) (frame : ndarray2) : Prop :=
  length frame = h ∧ Forall (λ row, length row = w) frame.

(** * Properties of the embedding *)

(** ** Association lists and loops *)

Section alist_facts.
Context {K V : Type} `{EqDecision K}.
Implicit Types (k : K) (l : list (K * V)) (f : V → V).

Lemma alist_alter_keys f k l : (alist_alter f k l).*1 = l.*1.
Proof.
  induction l as [|[k' v] l IH]; simpl; [done|].
  case_decide; simpl; [done|]. f_equal. apply IH.
Qed.

Lemma alist_lookup_alter f k k' l :
  alist_lookup k' (alist_alter f k l)
  = if decide (k = k') then f <$> alist_lookup k' l else alist_lookup k' l.
Proof.
  induction l as [|[k0 v] l IH]; simpl.
  - by case_decide.
  - destruct (decide (k0 = k)) as [->|Hne]; simpl.
    + destruct (decide (k = k')) as [->|]; by repeat case_decide.
    + destruct (decide (k0 = k')) as [->|]; [|done].
      by destruct (decide (k = k')) as [<-|].
Qed.

Lemma alist_lookup_Some_in k v l : alist_lookup k l = Some v → (k, v) ∈ l.
Proof.
  induction l as [|[k' v'] l IH]; simpl; [done|].
  case_decide; intros; simplify_eq; [left | right; auto].
Qed.

Lemma alist_lookup_None k l : alist_lookup k l = None ↔ k ∉ l.*1.
Proof.
  induction l as [|[k' v'] l IH]; simpl.
  - split; [intros _; apply not_elem_of_nil | done].
  - rewrite not_elem_of_cons. case_decide; subst.
    + split; [done | tauto].
    + rewrite IH. split; [by auto | tauto].
Qed.

Lemma alist_lookup_is_Some k l : is_Some (alist_lookup k l) ↔ k ∈ l.*1.
Proof.
  rewrite <- not_eq_None_Some, alist_lookup_None.
  split; [apply dec_stable | auto].
Qed.

Lemma alist_lookup_in_NoDup k v l :
  NoDup l.*1 → (k, v) ∈ l → alist_lookup k l = Some v.
Proof.
  induction l as [|[k' v'] l IH]; simpl; [by intros _ ?%elem_of_nil|].
  rewrite NoDup_cons, elem_of_cons. intros [Hk Hnd] [Heq|Hin].
  - simplify_eq. by rewrite decide_True.
  - rewrite decide_False; [by apply IH|].
    intros ->. apply Hk. apply list_elem_of_fmap. by exists (k, v).
Qed.
End alist_facts.

(** A loop keeps an invariant that may mention the items already visited. *)
Lemma for_each_ind {A S : Type} (f : S → A → res S) (I : list A → S → Prop)
    (l : list A) (s s' : S) :
  I [] s →
  (∀ l1 a l2 s1 s2, l = (l1 ++ a :: l2)%list → I l1 s1 → f s1 a = Ok s2 →
                    I (l1 ++ [a])%list s2) →
  for_each f l s = Ok s' → I l s'.
Proof.
  intros H0 Hstep.
  cut (∀ l2 l1 s1, l = (l1 ++ l2)%list → I l1 s1 → for_each f l2 s1 = Ok s' → I l s').
  { intros Hgen. by apply (Hgen l [] s). }
  induction l2 as [|a l2 IH]; intros l1 s1 Hl HI Hrun; simpl in Hrun.
  - rewrite app_nil_r in Hl. by simplify_eq.
  - destruct (f s1 a) as [s2|e] eqn:Hf; simpl in Hrun; [|done].
    apply (IH (l1 ++ [a])%list s2); [by rewrite <- app_assoc | | done].
    by eapply Hstep.
Qed.

(** A loop whose every turn succeeds, succeeds. *)
Lemma for_each_Ok {A S : Type} (f : S → A → res S) (I : S → Prop) (l : list A) (s : S) :
  I s →
  (∀ s1 a, a ∈ l → I s1 → ∃ s2, f s1 a = Ok s2 ∧ I s2) →
  ∃ s', for_each f l s = Ok s' ∧ I s'.
Proof.
  revert s. induction l as [|a l IH]; intros s HI Hstep; simpl; [by eauto|].
  destruct (Hstep s a) as (s2 & -> & HI2); [by left | done |]. simpl.
  apply IH; [done|]. intros s1 b Hb. apply Hstep. by right.
Qed.

Lemma for_each_app {A S : Type} (f : S → A → res S) (l1 l2 : list A) (s : S) :
  for_each f (l1 ++ l2)%list s = (s1 ← for_each f l1 s; for_each f l2 s1).
Proof.
  revert s. induction l1 as [|a l1 IH]; intros s; simpl; [done|].
  destruct (f s a); simpl; [apply IH | done].
Qed.

(** An invariant of the state that every turn keeps holds at the end. *)
Lemma for_each_inv {A S : Type} (f : S → A → res S) (I : S → Prop) (l : list A) (s s' : S) :
  I s → (∀ s1 a s2, a ∈ l → I s1 → f s1 a = Ok s2 → I s2) →
  for_each f l s = Ok s' → I s'.
Proof.
  intros H0 Hstep Hrun.
  apply (for_each_ind f (λ _, I) l s s'); [done | | done].
  intros l1 a l2 s1 s2 -> HI Hf. eapply Hstep; [|done..].
  apply elem_of_app. right. by left.
Qed.

(** A new edge takes its place among the edges without touching them. *)
Lemma insert_edge_Permutation rank e es : insert_edge rank e es ≡ₚ e :: es.
Proof.
  induction es as [|e' es IH]; simpl; [done|].
  case_decide; [done|]. rewrite IH. apply Permutation_swap.
Qed.

Lemma insert_edge_sublist rank e es : es `sublist_of` insert_edge rank e es.
Proof.
  induction es as [|e' es IH]; simpl; [apply sublist_nil_l|].
  case_decide; [by apply sublist_cons | by apply sublist_skip].
Qed.

Lemma elem_of_insert_edge rank e es x : x ∈ insert_edge rank e es ↔ x = e ∨ x ∈ es.
Proof. by rewrite insert_edge_Permutation, elem_of_cons. Qed.

Lemma insert_edge_keys rank e es : (insert_edge rank e es).*1 ≡ₚ e.1 :: es.*1.
Proof. by rewrite insert_edge_Permutation. Qed.

Lemma alist_lookup_insert_edge rank k a es k' :
  k ∉ es.*1 →
  alist_lookup k' (insert_edge rank (k, a) es)
  = if decide (k = k') then Some a else alist_lookup k' es.
Proof.
  induction es as [|[k0 a0] es IH]; simpl; intros Hk.
  - by case_decide.
  - apply not_elem_of_cons in Hk as [Hne Hk].
    destruct (decide (rank k.1 < rank k0.1)%nat); simpl; [done|].
    rewrite IH by done.
    destruct (decide (k0 = k')) as [->|]; [|done].
    by rewrite decide_False by done.
Qed.

(** ** The appear-ignore tagger *)

Lemma appear_tag_lookup_ne a k : k ≠ "ignore_appear" → appear_tag a !! k = a !! k.
Proof.
  intros Hk. unfold appear_tag.
  destruct (a !! "t") as [t|]; [|done]. destruct (a !! "x") as [x|]; [|done].
  destruct (_ || _); [|done]. by rewrite lookup_insert_ne.
Qed.

Lemma appear_tag_idemp a : appear_tag (appear_tag a) = appear_tag a.
Proof.
  unfold appear_tag at 1.
  rewrite !appear_tag_lookup_ne by done.
  unfold appear_tag.
  destruct (a !! "t") as [t|]; [|done]. destruct (a !! "x") as [x|]; [|done].
  destruct (_ || _); [|done]. by rewrite insert_insert_eq.
Qed.

Lemma add_appear_ignore_attr_step_spec G n0 G2 :
  add_appear_ignore_attr_step G n0 = Ok G2 →
  (nodes G2).*1 = (nodes G).*1 ∧ edges G2 = edges G
  ∧ ∀ n, node_attrs G2 n
         = if decide (n0 = n) then appear_tag <$> node_attrs G n else node_attrs G n.
Proof.
  unfold add_appear_ignore_attr_step, nodes_getitem, getitem, set_node_attr, nodes_getitem.
  destruct (node_attrs G n0) as [d|] eqn:Hd; simpl; [|done].
  destruct (d !! "t") as [t|] eqn:Ht; simpl; [|done].
  destruct (d !! "x") as [x|] eqn:Hx; simpl; [|done].
  assert (Htag : appear_tag d
                 = if py_eq t (VInt 0) || py_ge x (VInt 710)
                   then <["ignore_appear" := VBool true]> d else d).
  { unfold appear_tag. by rewrite Ht, Hx. }
  destruct (_ || _); simpl; intros; simplify_eq; simpl.
  - split; [apply alist_alter_keys|]. split; [done|]. intros n.
    unfold node_attrs in *. simpl. rewrite alist_lookup_alter.
    case_decide; [|done]. subst. rewrite Hd. simpl. by rewrite Htag.
  - split; [done|]. split; [done|]. intros n.
    case_decide; [|done]. subst. rewrite Hd. simpl. by rewrite Htag.
Qed.

(** The whole pass maps [appear_tag] over the attribute dictionaries. *)
Lemma add_appear_ignore_attr_lookup cand_graph G' :
  add_appear_ignore_attr cand_graph = Ok G' →
  (nodes G').*1 = (nodes cand_graph).*1 ∧ edges G' = edges cand_graph
  ∧ ∀ n, node_attrs G' n = appear_tag <$> node_attrs cand_graph n.
Proof.
  intros Hrun.
  pose (I := λ (l1 : list Z) (G : DiGraph),
    (nodes G).*1 = (nodes cand_graph).*1 ∧ edges G = edges cand_graph
    ∧ ∀ n, node_attrs G n
           = if decide (n ∈ l1) then appear_tag <$> node_attrs cand_graph n
             else node_attrs cand_graph n).
  assert (HI : I (nodes cand_graph).*1 G').
  { apply (for_each_ind add_appear_ignore_attr_step I _ cand_graph); [| |done].
    - split; [done|]. split; [done|]. intros n.
      by rewrite decide_False by apply not_elem_of_nil.
    - intros l1 a l2 G1 G2 _ (Hk & He & Hl) Hstep.
      apply add_appear_ignore_attr_step_spec in Hstep as (Hk2 & He2 & Hl2).
      split; [congruence|]. split; [congruence|]. intros n.
      rewrite Hl2, Hl. destruct (decide (a = n)) as [->|Hne].
      + rewrite (decide_True (P := n ∈ (l1 ++ [n])%list))
          by (apply elem_of_app; right; apply list_elem_of_singleton; reflexivity).
        case_decide; [|done].
        destruct (node_attrs cand_graph n); simpl; [|done].
        by rewrite appear_tag_idemp.
      + destruct (decide (n ∈ l1)) as [Hin|Hin].
        * rewrite decide_True; [done|]. apply elem_of_app. by left.
        * rewrite decide_False; [done|].
          intros [?| ->%list_elem_of_singleton]%elem_of_app; done. }
  destruct HI as (Hk & He & Hl). repeat split; [done..|].
  intros n. rewrite Hl. case_decide as Hin; [done|].
  assert (node_attrs cand_graph n = None) as ->; [|done].
  by apply alist_lookup_None.
Qed.

Lemma py_eq_int (t n : Z) : py_eq (VInt t) (VInt n) = true ↔ t = n.
Proof.
  unfold py_eq. simpl. rewrite Qeq_bool_iff. unfold Qeq. simpl. lia.
Qed.

Lemma py_ge_float_int (x : float) (b : Z) :
  py_ge (VFloat x) (VInt b) = true ↔ at_least x b.
Proof.
  unfold py_ge, at_least. simpl.
  destruct (float_xreal x); try done.
  apply Qle_bool_iff.
Qed.

(** C7. After the appear-ignore pass over a candidate graph whose nodes do
    not carry [ignore_appear] yet, a node in frame 0 or with [x >= 710]
    has [ignore_appear = True], any other node has no such attribute, and
    nothing else has changed: same nodes, same edges, same values of all
    other attributes. *)
Theorem add_appear_ignore_attr_spec (cand_graph G' : DiGraph) :
  (∀ n a, node_attrs cand_graph n = Some a → a !! "ignore_appear" = None) →
  add_appear_ignore_attr cand_graph = Ok G' →
  (nodes G').*1 = (nodes cand_graph).*1 ∧ edges G' = edges cand_graph
  ∧ ∀ n a t x,
      node_attrs cand_graph n = Some a →
      a !! "t" = Some (VInt t) → a !! "x" = Some (VFloat x) →
      ∃ a', node_attrs G' n = Some a'
        ∧ (t = 0%Z ∨ at_least x 710 → a' !! "ignore_appear" = Some (VBool true))
        ∧ (¬ (t = 0%Z ∨ at_least x 710) → a' !! "ignore_appear" = None)
        ∧ ∀ k, k ≠ "ignore_appear" → a' !! k = a !! k.
Proof.
  intros Hfresh Hrun.
  apply add_appear_ignore_attr_lookup in Hrun as (Hk & He & Hl).
  repeat split; [done..|]. intros n a t x Ha Ht Hx.
  exists (appear_tag a). rewrite Hl, Ha. split; [done|].
  assert (Hcond : py_eq (VInt t) (VInt 0) || py_ge (VFloat x) (VInt 710) = true
                  ↔ t = 0%Z ∨ at_least x 710).
  { by rewrite orb_true_iff, py_eq_int, py_ge_float_int. }
  repeat split.
  - intros Hc%Hcond. unfold appear_tag. rewrite Ht, Hx, Hc. apply lookup_insert_eq.
  - intros Hc. unfold appear_tag. rewrite Ht, Hx.
    destruct (_ || _) eqn:E; [by destruct Hc; apply Hcond | by eapply Hfresh].
  - intros k. apply appear_tag_lookup_ne.
Qed.

Lemma add_appear_ignore_attr_witness :
  ∃ G', add_appear_ignore_attr appear_fixture = Ok G'
    ∧ (nodes G').*1 = (nodes appear_fixture).*1 ∧ edges G' = edges appear_fixture
    ∧ ∀ n a t x,
        node_attrs appear_fixture n = Some a →
        a !! "t" = Some (VInt t) → a !! "x" = Some (VFloat x) →
        ∃ a', node_attrs G' n = Some a'
          ∧ (t = 0%Z ∨ at_least x 710 → a' !! "ignore_appear" = Some (VBool true))
          ∧ (¬ (t = 0%Z ∨ at_least x 710) → a' !! "ignore_appear" = None)
          ∧ ∀ k, k ≠ "ignore_appear" → a' !! k = a !! k.
Proof.
  eexists. split; [vm_compute; reflexivity|].
  apply add_appear_ignore_attr_spec; [|vm_compute; reflexivity].
  intros n a. unfold node_attrs, appear_fixture. simpl.
  repeat case_decide; intros; simplify_eq; reflexivity.
Defined.

(** ** The drift-distance tagger *)

Lemma add_drift_dist_attr_step_spec d G e0 G2 :
  add_drift_dist_attr_step d G e0 = Ok G2 →
  nodes G2 = nodes G ∧ (edges G2).*1 = (edges G).*1
  ∧ is_Some (drift_dist_of G d e0)
  ∧ ∀ e, edge_attrs G2 e
         = if decide (e0 = e) then drift_tag G d e0 <$> edge_attrs G e else edge_attrs G e.
Proof.
  destruct e0 as [u v].
  unfold add_drift_dist_attr_step, nodes_getitem, set_edge_attr, edges_getitem,
    drift_tag, drift_dist_of. simpl.
  destruct (node_attrs G u) as [au|]; simpl; [|done].
  destruct (node_pos au) as [p0|]; simpl; [|done].
  destruct (node_attrs G v) as [av|]; simpl; [|done].
  destruct (node_pos av) as [p1|]; simpl; [|done].
  destruct (edge_attrs G (u, v)) as [a|] eqn:Ha; simpl; [|done].
  intros; simplify_eq; simpl.
  split; [done|]. split; [apply alist_alter_keys|]. split; [by eexists|].
  intros e. unfold edge_attrs. simpl. by rewrite alist_lookup_alter.
Qed.

Lemma add_drift_dist_attr_lookup cand_graph d G' :
  add_drift_dist_attr cand_graph d = Ok G' →
  nodes G' = nodes cand_graph ∧ (edges G').*1 = (edges cand_graph).*1
  ∧ (∀ e, e ∈ (edges cand_graph).*1 → is_Some (drift_dist_of cand_graph d e))
  ∧ ∀ e, edge_attrs G' e = drift_tag cand_graph d e <$> edge_attrs cand_graph e.
Proof.
  intros Hrun.
  pose (I := λ (l1 : list (Z * Z)) (G : DiGraph),
    nodes G = nodes cand_graph ∧ (edges G).*1 = (edges cand_graph).*1
    ∧ (∀ e, e ∈ l1 → is_Some (drift_dist_of cand_graph d e))
    ∧ ∀ e, edge_attrs G e
           = if decide (e ∈ l1) then drift_tag cand_graph d e <$> edge_attrs cand_graph e
             else edge_attrs cand_graph e).
  assert (HI : I (edges cand_graph).*1 G').
  { apply (for_each_ind (add_drift_dist_attr_step d) I _ cand_graph); [| |done].
    - split; [done|]. split; [done|]. split; [by intros e ?%elem_of_nil|].
      intros e. by rewrite decide_False by apply not_elem_of_nil.
    - intros l1 a l2 G1 G2 _ (Hn & Hk & Hd & Hl) Hstep.
      apply add_drift_dist_attr_step_spec in Hstep as (Hn2 & Hk2 & Hd2 & Hl2).
      assert (Hdd : ∀ e, drift_dist_of G1 d e = drift_dist_of cand_graph d e).
      { intros e. unfold drift_dist_of, node_attrs. by rewrite Hn. }
      split; [congruence|]. split; [congruence|]. split.
      { intros e [Hin| ->%list_elem_of_singleton]%elem_of_app; [by apply Hd|].
        by rewrite <- Hdd. }
      intros e. rewrite Hl2, Hl.
      assert (Htag : drift_tag G1 d a = drift_tag cand_graph d a).
      { unfold drift_tag. by rewrite Hdd. }
      destruct (decide (a = e)) as [->|Hne].
      + rewrite (decide_True (P := e ∈ (l1 ++ [e])%list))
          by (apply elem_of_app; right; apply list_elem_of_singleton; reflexivity).
        rewrite Htag. case_decide; [|done].
        destruct (edge_attrs cand_graph e); simpl; [|done]. f_equal.
        unfold drift_tag. destruct (drift_dist_of cand_graph d e); [|done].
        by rewrite insert_insert_eq.
      + destruct (decide (e ∈ l1)) as [Hin|Hin].
        * rewrite decide_True; [done|]. apply elem_of_app. by left.
        * rewrite decide_False; [done|].
          intros [?| ->%list_elem_of_singleton]%elem_of_app; done. }
  destruct HI as (Hn & Hk & Hd & Hl). repeat split; [done..|].
  intros e. rewrite Hl. case_decide as Hin; [done|].
  assert (edge_attrs cand_graph e = None) as ->; [|done].
  by apply alist_lookup_None.
Qed.

(** C8. After the drift pass with drift vector [d], every edge of the
    candidate graph carries a [drift_dist] equal to the Euclidean norm of
    (source position + [d]) - target position, the positions being the
    [(x, y)] attributes of its end nodes; the nodes, the set of edges and
    every other edge attribute are as before. *)
Theorem add_drift_dist_attr_spec (cand_graph G' : DiGraph) (d : float * float) :
  add_drift_dist_attr cand_graph d = Ok G' →
  nodes G' = nodes cand_graph ∧ (edges G').*1 = (edges cand_graph).*1
  ∧ ∀ u v a,
      edge_attrs cand_graph (u, v) = Some a →
      ∃ au av p0 p1 a',
        node_attrs cand_graph u = Some au ∧ node_pos au = Ok p0
        ∧ node_attrs cand_graph v = Some av ∧ node_pos av = Ok p1
        ∧ edge_attrs G' (u, v) = Some a'
        ∧ a' !! "drift_dist" = Some (VFloat (linalg_norm (vsub (vadd p0 d) p1)))
        ∧ ∀ k, k ≠ "drift_dist" → a' !! k = a !! k.
Proof.
  intros (Hn & Hk & Hd & Hl)%add_drift_dist_attr_lookup.
  split; [done|]. split; [done|]. intros u v a Ha.
  destruct (Hd (u, v)) as [f Hf].
  { apply alist_lookup_is_Some. unfold edge_attrs in Ha. by rewrite Ha. }
  specialize (Hl (u, v)). rewrite Ha in Hl. simpl in Hl.
  unfold drift_tag in Hl. rewrite Hf in Hl.
  unfold drift_dist_of in Hf. simpl in Hf.
  destruct (node_attrs cand_graph u) as [au|]; simpl in Hf; [|done].
  destruct (node_attrs cand_graph v) as [av|]; simpl in Hf; [|done].
  destruct (node_pos au) as [p0|] eqn:Hp0; [|done].
  destruct (node_pos av) as [p1|] eqn:Hp1; [|done].
  simplify_eq. exists au, av, p0, p1. eexists.
  split_and!; try done.
  - apply lookup_insert_eq.
  - intros k Hne. by apply lookup_insert_ne.
Qed.

Lemma add_drift_dist_attr_witness :
  ∃ G' a12 a13,
    add_drift_dist_attr drift_fixture drift = Ok G'
    ∧ edge_attrs G' (1, 2)%Z = Some a12 ∧ a12 !! "drift_dist" = Some (VFloat 0)
    ∧ edge_attrs G' (1, 3)%Z = Some a13 ∧ a13 !! "drift_dist" = Some (VFloat 10).
Proof.
  destruct (add_drift_dist_attr drift_fixture drift) as [G'|] eqn:Hrun;
    [|vm_compute in Hrun; discriminate].
  destruct (add_drift_dist_attr_spec _ _ _ Hrun) as (_ & _ & Hedge).
  destruct (Hedge 1%Z 2%Z ∅ eq_refl) as (au & av & p0 & p1 & a12 & Hu & Hp0 & Hv & Hp1 & H12 & Hd12 & _).
  destruct (Hedge 1%Z 3%Z ∅ eq_refl) as (bu & bv & q0 & q1 & a13 & Ku & Kp0 & Kv & Kp1 & H13 & Hd13 & _).
  vm_compute in Hu, Hv, Ku, Kv. simplify_eq.
  vm_compute in Hp0, Hp1, Kp0, Kp1. simplify_eq.
  exists G', a12, a13. repeat split; done.
Defined.

(** ** The dataset loader of the detection notebook *)

(** The assertion compares the image series with itself: it holds whatever
    the label series is. *)
Lemma load_dataset_never_asserts images gt_tracking x y :
  np_stack images = Ok x → np_stack gt_tracking = Ok y →
  load_dataset images gt_tracking = Ok (x, y).
Proof.
  intros Hx Hy. unfold load_dataset. rewrite Hx, Hy. simpl.
  by rewrite bool_decide_true.
Qed.

(** C2. The loader is claimed to fail when the image series and the label
    series differ in length.  It does not: on one image and two label
    frames it returns both stacks, of lengths 1 and 2. *)
Theorem load_dataset_accepts_mismatch :
  ∃ x y, load_dataset [[[7; 7]]]%Z [[[1; 0]]; [[0; 1]]]%Z = Ok (x, y)
         ∧ length x = 1%nat ∧ length y = 2%nat.
Proof. by eexists _, _. Qed.

(** ** The ground-truth loader *)

Lemma has_node_is_Some G n : has_node G n = true ↔ is_Some (node_attrs G n).
Proof.
  unfold has_node, node_attrs. by rewrite bool_decide_eq_true, alist_lookup_is_Some.
Qed.

Lemma alist_lookup_snoc {K V : Type} `{EqDecision K} (k k' : K) (v : V) l :
  alist_lookup k (l ++ [(k', v)])%list
  = match alist_lookup k l with
    | Some a => Some a
    | None => if decide (k' = k) then Some v else None
    end.
Proof.
  induction l as [|[k0 v0] l IH]; simpl; [done|].
  destruct (decide (k0 = k)); [done | apply IH].
Qed.

Lemma node_attrs_add_node G n a m :
  node_attrs (add_node G n a) m
  = if decide (n = m)
    then Some (match node_attrs G n with Some old => a ∪ old | None => a end)
    else node_attrs G m.
Proof.
  unfold add_node. destruct (has_node G n) eqn:Hn.
  - apply has_node_is_Some in Hn as [old Hold].
    unfold node_attrs in *. simpl. rewrite alist_lookup_alter.
    case_decide; [|done]. subst. by rewrite Hold.
  - assert (node_attrs G n = None) as Hnone.
    { apply eq_None_not_Some. rewrite <- has_node_is_Some. by rewrite Hn. }
    unfold node_attrs in *. simpl. rewrite alist_lookup_snoc.
    case_decide; subst; [by rewrite Hnone|]. by destruct (alist_lookup m (nodes G)).
Qed.

Lemma node_attrs_add_edge G u v m :
  node_attrs (add_edge G u v) m
  = match node_attrs G m with
    | Some a => Some a
    | None => if decide (u = m ∨ v = m) then Some ∅ else None
    end.
Proof.
  assert (Hstep : ∀ G w,
    node_attrs (if has_node G w then G else mkDiGraph (nodes G ++ [(w, ∅)]) (edges G)) m
    = match node_attrs G m with
      | Some a => Some a
      | None => if decide (w = m) then Some ∅ else None
      end).
  { intros G0 w. destruct (has_node G0 w) eqn:Hw.
    - destruct (node_attrs G0 m) eqn:Hm; [done|]. case_decide; [|done]. subst.
      apply has_node_is_Some in Hw as [? ?]. congruence.
    - unfold node_attrs. simpl. apply alist_lookup_snoc. }
  unfold add_edge.
  set (G1 := if has_node G u then G else _).
  set (G2 := if has_node G1 v then G1 else _).
  assert (node_attrs (if bool_decide ((u, v) ∈ (edges G2).*1) then G2
                      else mkDiGraph (nodes G2)
                             (insert_edge (node_rank G2) ((u, v), ∅) (edges G2))) m
          = node_attrs G2 m) as -> by (by case_bool_decide).
  unfold G2. rewrite Hstep. unfold G1. rewrite Hstep.
  destruct (node_attrs G m); [done|].
  repeat case_decide; try done; tauto.
Qed.

Section read_gt_tracks_facts.
Variable py_int_of_str : string → res Z.
Variable py_float_of_str : string → res float.
Let parse := parse_gt_row py_int_of_str py_float_of_str.
Let step := read_gt_row py_int_of_str py_float_of_str.

Lemma parse_gt_row_shape row n a p :
  parse row = Ok (n, a, p) →
  ∃ x y t, a = <["x" := VFloat x]> (<["y" := VFloat y]> (<["t" := VInt t]> ∅)).
Proof.
  unfold parse, parse_gt_row. intros Hrow.
  repeat match type of Hrow with
         | (?m ≫= _) = _ => destruct m; simpl in Hrow; [|done]
         end.
  simplify_eq. by eexists _, _, _.
Qed.

Lemma parse_gt_row_attrs row n a p :
  parse row = Ok (n, a, p) →
  plain_attrs a ∧ ∀ old, plain_attrs old → a ∪ old = a.
Proof.
  intros (x & y & t & ->)%parse_gt_row_shape.
  assert (Hplain : ∀ k, is_Some ((<["x" := VFloat x]> (<["y" := VFloat y]>
                           (<["t" := VInt t]> (∅ : gmap string value)))) !! k)
                        ↔ k = "x" ∨ k = "y" ∨ k = "t").
  { intros k. rewrite !lookup_insert_is_Some, lookup_empty, <- not_eq_None_Some.
    destruct (decide ("x" = k)), (decide ("y" = k)), (decide ("t" = k));
      subst; intuition congruence. }
  split.
  - intros k. apply Hplain.
  - intros old Hold. apply map_eq. intros k. rewrite lookup_union.
    destruct (old !! k) eqn:Hk.
    + destruct (proj2 (Hplain k)) as [w ->]; [apply Hold; by rewrite Hk | done].
    + match goal with |- ?o ∪ None = _ => by destruct o end.
Qed.

(** A turn of the loop cannot fail once the fields of the row are read. *)
Lemma read_gt_row_Ok G row n a p :
  parse row = Ok (n, a, p) → ∃ G', step G row = Ok G'.
Proof.
  intros Hrow. unfold step, read_gt_row. fold parse. rewrite Hrow. simpl. by eexists.
Qed.

(** What a turn does to the attributes of the nodes. *)
Lemma read_gt_row_attrs G row G' n a p :
  parse row = Ok (n, a, p) → step G row = Ok G' →
  (∀ m b, node_attrs G m = Some b → plain_attrs b) →
  (∀ m b, node_attrs G' m = Some b → plain_attrs b)
  ∧ node_attrs G' n = Some a
  ∧ ∀ m, m ≠ n → ∀ b, node_attrs G m = Some b → node_attrs G' m = Some b.
Proof.
  intros Hrow Hstep Hplain.
  destruct (parse_gt_row_attrs _ _ _ _ Hrow) as [Ha Hunion].
  unfold step, read_gt_row in Hstep. fold parse in Hstep. rewrite Hrow in Hstep.
  simpl in Hstep. injection Hstep as <-.
  assert (Hn : ∀ m, node_attrs (add_node G n a) m
                    = if decide (n = m) then Some a else node_attrs G m).
  { intros m. rewrite node_attrs_add_node. destruct (decide (n = m)); [|done]. f_equal.
    destruct (node_attrs G n) as [old|] eqn:Hold; [|done].
    apply Hunion. by eapply Hplain. }
  set (G' := if bool_decide (p ≠ (-1)%Z) then _ else _).
  assert (He : ∀ m, node_attrs G' m
                    = match node_attrs (add_node G n a) m with
                      | Some b => Some b
                      | None => if decide (p ≠ (-1)%Z ∧ (p = m ∨ n = m))
                                then Some ∅ else None
                      end).
  { intros m. unfold G'. destruct (bool_decide_reflect (p ≠ (-1)%Z)) as [Hp|Hp].
    - rewrite node_attrs_add_edge. destruct (node_attrs (add_node G n a) m); [done|].
      destruct (decide (p = m ∨ n = m)).
      + by rewrite decide_True.
      + rewrite decide_False; [done | tauto].
    - destruct (node_attrs (add_node G n a) m); [done|].
      rewrite decide_False; [done | tauto]. }
  clearbody G'. split_and!.
  - intros m b. rewrite He, Hn. destruct (decide (n = m)); [by intros; simplify_eq|].
    destruct (node_attrs G m) eqn:Hm; [intros; simplify_eq; by eapply Hplain|].
    destruct (decide _); [|done]. intros; simplify_eq. intros k. rewrite lookup_empty.
    by intros [? ?].
  - by rewrite He, Hn, decide_True.
  - intros m Hne b Hb. rewrite He, Hn, decide_False, Hb; done.
Qed.

End read_gt_tracks_facts.

(** C4 (amended). A table whose fields all convert is read without any
    error, also when an id comes more than once; the node of such an id
    ends with the attributes of the last row that carries it: those of
    earlier rows are overwritten silently. *)
Theorem read_gt_tracks_last_row_wins
    (py_int_of_str : string → res Z) (py_float_of_str : string → res float)
    (before after : list (gmap string string)) (row : gmap string string)
    (n p : Z) (a : gmap string value) :
  (∀ r, r ∈ (before ++ row :: after)%list →
        ∃ parsed, parse_gt_row py_int_of_str py_float_of_str r = Ok parsed) →
  parse_gt_row py_int_of_str py_float_of_str row = Ok (n, a, p) →
  (∀ r n' a' p', r ∈ after →
        parse_gt_row py_int_of_str py_float_of_str r = Ok (n', a', p') → n' ≠ n) →
  ∃ G, read_gt_tracks py_int_of_str py_float_of_str (before ++ row :: after)%list = Ok G
       ∧ node_attrs G n = Some a.
Proof.
  intros Hall Hrow Hafter.
  set (parse := parse_gt_row py_int_of_str py_float_of_str) in *.
  set (step := read_gt_row py_int_of_str py_float_of_str).
  pose (plain := λ G : DiGraph, ∀ m b, node_attrs G m = Some b → plain_attrs b).
  destruct (for_each_Ok step (λ _, True) (before ++ row :: after)%list empty_graph I)
    as (G & Hrun & _).
  { intros G1 r Hr _. destruct (Hall r Hr) as [[[n' a'] p'] Hp].
    destruct (read_gt_row_Ok _ _ G1 r n' a' p' Hp) as [G2 HG2]. by exists G2. }
  exists G. split; [done|].
  unfold read_gt_tracks in *. fold step in Hrun.
  rewrite for_each_app in Hrun.
  destruct (for_each step before empty_graph) as [G1|] eqn:Hbefore; simpl in Hrun; [|done].
  destruct (step G1 row) as [G2|] eqn:Hstep; simpl in Hrun; [|done].
  assert (Hplain1 : plain G1).
  { apply (for_each_inv step plain before empty_graph G1); [done | | done].
    intros s1 r s2 Hr Hs1 Hs2. destruct (Hall r) as [[[n' a'] p'] Hp].
    { apply elem_of_app. by left. }
    by destruct (read_gt_row_attrs _ _ s1 r s2 n' a' p' Hp Hs2 Hs1). }
  destruct (read_gt_row_attrs _ _ G1 row G2 n a p Hrow Hstep Hplain1) as (Hplain2 & Hn & _).
  apply (for_each_inv step (λ G, plain G ∧ node_attrs G n = Some a) after G2 G);
    [done | | done].
  intros s1 r s2 Hr [Hs1 Hs1n] Hs2. destruct (Hall r) as [[[n' a'] p'] Hp].
  { apply elem_of_app. right. by right. }
  destruct (read_gt_row_attrs _ _ s1 r s2 n' a' p' Hp Hs2 Hs1) as (Hp2 & _ & Hother).
  split; [done|]. apply Hother; [|done]. intros ->. by eapply Hafter.
Qed.

Lemma read_gt_tracks_last_row_wins_witness :
  ∃ G a, read_gt_tracks int_of_decimal float_of_decimal duplicate_id_table = Ok G
         ∧ node_attrs G 1%Z = Some a
         ∧ a !! "t" = Some (VInt 5) ∧ a !! "x" = Some (VFloat 30.25).
Proof.
  destruct (read_gt_tracks_last_row_wins int_of_decimal float_of_decimal
              [csv_row "1" "0" "1.5" "2.5" "-1"; csv_row "2" "1" "4" "4" "1"] []
              (csv_row "1" "5" "30.25" "40" "-1") 1%Z (-1)%Z
              (<["x" := VFloat 30.25]> (<["y" := VFloat 40]> (<["t" := VInt 5]> ∅))))
    as (G & Hrun & Hn).
  - intros r Hr. simpl in Hr.
    repeat (apply elem_of_cons in Hr as [->|Hr]);
      [eexists; vm_compute; reflexivity .. | by apply elem_of_nil in Hr].
  - vm_compute. reflexivity.
  - intros r n' a' p' Hr. by apply elem_of_nil in Hr.
  - exists G. eexists. split; [exact Hrun|]. split; [exact Hn|].
    split; vm_compute; reflexivity.
Defined.

(** C4 (as claimed). The claim is that a table with two rows of the same id
    is refused.  This table has the id 1 twice and is read to the end: the
    graph has two nodes, and node 1 carries the frame and position of the
    later row. *)
Lemma read_gt_tracks_duplicate_id_accepted :
  ∃ G a, read_gt_tracks int_of_decimal float_of_decimal duplicate_id_table = Ok G
         ∧ (nodes G).*1 = [1; 2]%Z
         ∧ node_attrs G 1%Z = Some a
         ∧ a !! "t" = Some (VInt 5) ∧ a !! "x" = Some (VFloat 30.25)
         ∧ a !! "y" = Some (VFloat 40).
Proof.
  eexists _, _. split; [vm_compute; reflexivity|].
  split; [reflexivity|]. split; [vm_compute; reflexivity|].
  split_and!; vm_compute; reflexivity.
Qed.

(** ** The ground-truth annotator's lookup *)

Local Arguments py_int : simpl never.
Local Arguments np_getitem : simpl never.

Lemma np_index_in_range (n : nat) (i : nat) :
  (i < n)%nat → np_index n (Z.of_nat i) = Ok i.
Proof.
  intros Hi. unfold np_index.
  assert ((Z.of_nat i <? 0)%Z = false) as -> by lia.
  assert ((0 <=? Z.of_nat i)%Z && (Z.of_nat i <? Z.of_nat n)%Z = true) as ->.
  { apply andb_true_iff. lia. }
  by rewrite Nat2Z.id.
Qed.

Lemma np_getitem_in_range {A : Type} (a : list A) (i : nat) (v : A) :
  a !! i = Some v → np_getitem a (Z.of_nat i) = Ok v.
Proof.
  intros Hv. unfold np_getitem.
  rewrite np_index_in_range by (by eapply lookup_lt_Some). simpl. by rewrite Hv.
Qed.

(** The integer part of a non-negative rational is pinned down by
    [i <= q < i + 1]. *)
Lemma Qquot_floor (q : Q) (i : nat) :
  (inject_Z (Z.of_nat i) <= q)%Q → (q < inject_Z (Z.of_nat i) + 1)%Q →
  Z.quot (Qnum q) (Zpos (Qden q)) = Z.of_nat i.
Proof.
  destruct q as [a b]. unfold Qle, Qlt. simpl. intros Hle Hlt.
  rewrite Z.quot_div_nonneg by nia.
  symmetry. apply (Z.div_unique_pos a (Zpos b) (Z.of_nat i) (a - Z.of_nat i * Zpos b)); nia.
Qed.

Lemma py_int_float (x : float) (q : Q) (i : nat) :
  float_Q x = Some q →
  (inject_Z (Z.of_nat i) <= q)%Q → (q < inject_Z (Z.of_nat i) + 1)%Q →
  py_int (VFloat x) = Ok (Z.of_nat i).
Proof.
  intros Hq Hle Hlt. unfold py_int. rewrite Hq.
  unfold float_Q in Hq. destruct (Prim2SF x); try done; by rewrite (Qquot_floor q i).
Qed.

(** C3 (amended). The lookup of a ground-truth node samples the
    segmentation in the node's frame at the integer parts of its
    coordinates: for a node at frame [t] and non-negative position
    [(x, y)] it returns the pixel [(t, i, j)] with [i <= x < i + 1] and
    [j <= y < j + 1], the coordinates cut, not rounded. *)
Theorem get_cand_id_truncates (gt_track : DiGraph) (cand_segmentation : ndarray3)
    (gt_node : Z) (data : gmap string value) (t i j : nat) (x y : float) (qx qy : Q)
    (frame : ndarray2) (row : list Z) (v : Z) :
  node_attrs gt_track gt_node = Some data →
  data !! "t" = Some (VInt (Z.of_nat t)) →
  data !! "x" = Some (VFloat x) → data !! "y" = Some (VFloat y) →
  float_Q x = Some qx → float_Q y = Some qy →
  (inject_Z (Z.of_nat i) <= qx)%Q → (qx < inject_Z (Z.of_nat i) + 1)%Q →
  (inject_Z (Z.of_nat j) <= qy)%Q → (qy < inject_Z (Z.of_nat j) + 1)%Q →
  cand_segmentation !! t = Some frame → frame !! i = Some row → row !! j = Some v →
  get_cand_id gt_node gt_track cand_segmentation = Ok v.
Proof.
  intros Hdata Ht Hx Hy Hqx Hqy Hi1 Hi2 Hj1 Hj2 Hframe Hrow Hv.
  unfold get_cand_id, nodes_getitem, getitem. rewrite Hdata. simpl.
  rewrite Ht, Hx. simpl.
  rewrite (py_int_float x qx i) by done. simpl.
  rewrite (np_getitem_in_range _ _ _ Hframe). simpl.
  rewrite (np_getitem_in_range _ _ _ Hrow). simpl.
  rewrite Hy. simpl.
  rewrite (py_int_float y qy j) by done. simpl.
  by apply np_getitem_in_range.
Qed.

Lemma get_cand_id_truncates_witness :
  get_cand_id 1 lookup_fixture_graph lookup_fixture_seg = Ok 7%Z.
Proof.
  eapply (get_cand_id_truncates lookup_fixture_graph lookup_fixture_seg 1
            _ 0 2 1 2.75 1.25).
  - reflexivity.
  - vm_compute. reflexivity.
  - vm_compute. reflexivity.
  - vm_compute. reflexivity.
  - vm_compute. reflexivity.
  - vm_compute. reflexivity.
  - vm_compute. discriminate.
  - vm_compute. reflexivity.
  - vm_compute. discriminate.
  - vm_compute. reflexivity.
  - reflexivity.
  - reflexivity.
  - reflexivity.
Defined.

(** C3 (as claimed). Sampling at the rounded coordinates is another
    lookup: for a node at [(2.75, 1.25)] the code reads the pixel
    [(2, 1)], labelled 7, where rounding reads [(3, 1)], labelled 9. *)
Lemma get_cand_id_not_rounded :
  get_cand_id 1 lookup_fixture_graph lookup_fixture_seg = Ok 7%Z
  ∧ get_cand_id_rounded 1 lookup_fixture_graph lookup_fixture_seg = Ok 9%Z
  ∧ get_cand_id 1 lookup_fixture_graph lookup_fixture_seg
    ≠ get_cand_id_rounded 1 lookup_fixture_graph lookup_fixture_seg.
Proof.
  split_and!; [vm_compute; reflexivity .. | vm_compute; discriminate].
Qed.

(** ** Tracklet ids *)

Lemma set_node_attributes_spec G ns k v :
  (nodes (set_node_attributes G ns k v)).*1 = (nodes G).*1
  ∧ edges (set_node_attributes G ns k v) = edges G
  ∧ ∀ n, node_attrs (set_node_attributes G ns k v) n
         = if decide (n ∈ ns) then <[k := v]> <$> node_attrs G n else node_attrs G n.
Proof.
  unfold set_node_attributes. revert G. induction ns as [|n0 ns IH]; intros G; simpl.
  - split; [done|]. split; [done|]. by intros n.
  - destruct (IH (mkDiGraph (alist_alter (λ a, <[k:=v]> a) n0 (nodes G)) (edges G)))
      as (Hk & He & Hl).
    split; [by rewrite Hk; simpl; rewrite alist_alter_keys|]. split; [done|].
    intros n. rewrite Hl. unfold node_attrs. simpl. rewrite alist_lookup_alter.
    destruct (decide (n ∈ n0 :: ns)) as [Hin0|Hin0].
    + destruct (decide (n ∈ ns)) as [Hin|Hin].
      * destruct (decide (n0 = n)); [|done].
        destruct (alist_lookup n (nodes G)); simpl; [|done]. by rewrite insert_insert_eq.
      * apply elem_of_cons in Hin0 as [->|?]; [|done]. by rewrite decide_True.
    + apply not_elem_of_cons in Hin0 as [Hne Hin].
      rewrite (decide_False (P := n ∈ ns)) by done. by rewrite decide_False.
Qed.

Lemma component_incl es fuel seen v : v ∈ seen → v ∈ component es fuel seen.
Proof.
  revert seen. induction fuel as [|fuel IH]; intros seen Hv; simpl; [done|].
  destruct (remove_dups _); [done|]. apply IH, elem_of_app. by left.
Qed.

(** A left fold keeps an invariant that may mention the items visited. *)
Lemma foldl_ind {A S : Type} (f : S → A → S) (I : list A → S → Prop) (l : list A) (s : S) :
  I [] s →
  (∀ l1 a l2 s1, l = (l1 ++ a :: l2)%list → I l1 s1 → I (l1 ++ [a])%list (f s1 a)) →
  I l (foldl f s l).
Proof.
  intros H0 Hstep.
  cut (∀ l2 l1 s1, l = (l1 ++ l2)%list → I l1 s1 → I l (foldl f s1 l2)).
  { intros Hgen. by apply (Hgen l [] s). }
  induction l2 as [|a l2 IH]; intros l1 s1 Hl HI; simpl.
  - rewrite app_nil_r in Hl. by subst.
  - apply (IH (l1 ++ [a])%list); [by rewrite <- app_assoc|]. by eapply Hstep.
Qed.

(** Every node gets a tracklet id; nothing else changes. *)
Lemma assign_tracklet_ids_spec G :
  (nodes (assign_tracklet_ids G)).*1 = (nodes G).*1
  ∧ edges (assign_tracklet_ids G) = edges G
  ∧ ∀ n data, node_attrs G n = Some data →
      ∃ data' tid, node_attrs (assign_tracklet_ids G) n = Some data'
        ∧ data' !! "tracklet_id" = Some (VInt tid)
        ∧ ∀ k, k ≠ "tracklet_id" → data' !! k = data !! k.
Proof.
  unfold assign_tracklet_ids.
  set (es := filter _ _). set (fuel := length (nodes G)).
  pose (I := λ (l1 : list Z) (st : DiGraph * list Z * Z),
    (nodes st.1.1).*1 = (nodes G).*1 ∧ edges st.1.1 = edges G
    ∧ (∀ n, n ∈ l1 → n ∈ st.1.2)
    ∧ ∀ n data, node_attrs G n = Some data →
        ∃ data', node_attrs st.1.1 n = Some data'
          ∧ (n ∈ st.1.2 → ∃ tid, data' !! "tracklet_id" = Some (VInt tid))
          ∧ ∀ k, k ≠ "tracklet_id" → data' !! k = data !! k).
  assert (HI : I (nodes G).*1
                 (foldl (assign_tracklet_ids_step es fuel) (G, [], 1%Z) (nodes G).*1)).
  { apply foldl_ind.
    - split; [done|]. split; [done|]. split; [by intros n ?%elem_of_nil|].
      intros n data Hn. exists data. split; [done|]. split; [|done].
      by intros ?%elem_of_nil.
    - intros l1 a l2 [[G1 seen] tid] _ (Hk & He & Hseen & Hattrs). simpl in *.
      unfold assign_tracklet_ids_step, I. case_bool_decide as Ha; cbn [fst snd].
      + split; [done|]. split; [done|]. split; [|done].
        intros n [?| ->%list_elem_of_singleton]%elem_of_app; auto.
      + destruct (set_node_attributes_spec G1 (component es fuel [a]) "tracklet_id"
                    (VInt tid)) as (Hk2 & He2 & Hl2).
        split; [congruence|]. split; [congruence|]. split.
        { intros n [?| ->%list_elem_of_singleton]%elem_of_app; apply elem_of_app.
          - left. auto.
          - right. apply component_incl. by left. }
        intros n data Hn. destruct (Hattrs n data Hn) as (d1 & Hd1 & Htid & Hsame).
        rewrite Hl2, Hd1. destruct (decide (n ∈ component es fuel [a])) as [Hin|Hin]; simpl.
        * eexists. split; [done|]. split.
          -- intros _. eexists. apply lookup_insert_eq.
          -- intros k Hne. rewrite lookup_insert_ne by done. by apply Hsame.
        * exists d1. split; [done|]. split; [|done].
          intros [?|?]%elem_of_app; [auto | done]. }
  destruct HI as (Hk & He & Hseen & Hattrs).
  split; [done|]. split; [done|]. intros n data Hn.
  destruct (Hattrs n data Hn) as (d1 & Hd1 & Htid & Hsame).
  destruct Htid as [tid Htid].
  { apply Hseen. apply alist_lookup_is_Some. unfold node_attrs in Hn. by rewrite Hn. }
  by exists d1, tid.
Qed.

(** ** Relabelling the segmentation *)

Lemma np_getitem_Ok {A : Type} (a : list A) (i : Z) (v : A) :
  np_getitem a i = Ok v ↔ ∃ k, np_index (length a) i = Ok k ∧ a !! k = Some v.
Proof.
  unfold np_getitem. destruct (np_index (length a) i) as [k|]; simpl.
  - destruct (a !! k) eqn:Hk; split.
    + intros; simplify_eq. by exists k.
    + intros (k' & ? & ?). by simplify_eq.
    + done.
    + intros (k' & ? & ?). by simplify_eq.
  - split; [done|]. by intros (k' & ? & ?).
Qed.

Lemma np_index_lt n i k : np_index n i = Ok k → (k < n)%nat.
Proof.
  unfold np_index. destruct (_ && _) eqn:E; [|done].
  apply andb_true_iff in E as [? ?]. intros; simplify_eq. lia.
Qed.

Lemma zeros_like_length a b : same_shape a b → length a = length b.
Proof.
  unfold same_shape, zeros_like. intros H.
  apply (f_equal length) in H. by rewrite !length_map in H.
Qed.

Lemma zeros_row_masked (r : list Z) (s : list Z) (n v : Z) :
  map (λ _, 0%Z) r = map (λ _, 0%Z) s →
  map (λ _, 0%Z) (zip_with (λ o (m : bool), if m then v else o) r
                   (map (λ p, bool_decide (p = n)) s))
  = map (λ _, 0%Z) r.
Proof.
  revert s. induction r as [|x r IH]; intros [|y s] H; simpl in *; try done.
  f_equal. apply IH. by simplify_eq.
Qed.

Lemma zeros_frame_masked (a b : ndarray2) (n v : Z) :
  map (map (λ _, 0%Z)) a = map (map (λ _, 0%Z)) b →
  map (map (λ _, 0%Z)) (masked_assign a (mask_eq b n) v) = map (map (λ _, 0%Z)) a.
Proof.
  unfold masked_assign, mask_eq.
  revert b. induction a as [|r a IH]; intros [|s b] H; simpl in *; try done.
  simplify_eq. f_equal; [by apply zeros_row_masked | by apply IH].
Qed.

Lemma pixel_masked (a b : ndarray2) (n v : Z) (i j : nat) (o p : Z) :
  (a !! i ≫= (.!! j)) = Some o → (b !! i ≫= (.!! j)) = Some p →
  (masked_assign a (mask_eq b n) v !! i ≫= (.!! j))
  = Some (if decide (p = n) then v else o).
Proof.
  unfold masked_assign, mask_eq. intros Ha Hb.
  rewrite lookup_zip_with, list_lookup_fmap.
  destruct (a !! i) as [r|]; simpl in *; [|done].
  destruct (b !! i) as [s|]; simpl in *; [|done].
  rewrite lookup_zip_with, list_lookup_fmap, Ha, Hb. simpl.
  by rewrite (bool_decide_decide (p = n)); destruct (decide (p = n)).
Qed.

Lemma pixel_zeros_like seg k i j v :
  pixel seg k i j = Some v → pixel (zeros_like seg) k i j = Some 0%Z.
Proof.
  unfold pixel, zeros_like. rewrite list_lookup_fmap.
  destruct (seg !! k) as [f|]; simpl; [|done]. rewrite list_lookup_fmap.
  destruct (f !! i) as [r|]; simpl; [|done]. rewrite list_lookup_fmap.
  by destruct (r !! j).
Qed.

Lemma same_shape_zeros_like seg : same_shape (zeros_like seg) seg.
Proof.
  unfold same_shape, zeros_like.
  rewrite <- !list_fmap_compose. apply list_fmap_ext. intros _ f _. simpl.
  rewrite <- !list_fmap_compose. apply list_fmap_ext. intros _ r _. simpl.
  by rewrite <- !list_fmap_compose.
Qed.

(** One node painted: the shape is kept, and a pixel changes exactly when
    it lies in the node's frame and showed the node's id. *)
Lemma relabel_node_spec G seg out node out' :
  same_shape out seg → relabel_node G seg out node = Ok out' →
  ∃ kn tid, paint_of G (length seg) node = Some (kn, tid)
    ∧ same_shape out' seg
    ∧ ∀ k i j v o, pixel seg k i j = Some v → pixel out k i j = Some o →
        pixel out' k i j = Some (if decide (kn = k ∧ v = node) then tid else o).
Proof.
  intros Hshape. pose proof (zeros_like_length _ _ Hshape) as Hlen.
  unfold relabel_node, paint_of, nodes_getitem, getitem.
  destruct (node_attrs G node) as [data|]; simpl; [|done].
  destruct (data !! "t") as [t|]; simpl; [|done].
  destruct (data !! "tracklet_id") as [tid|]; simpl; [|done].
  destruct (as_index t) as [ti|]; simpl; [|done].
  destruct (np_getitem seg ti) as [seg_frame|] eqn:Hseg; simpl; [|done].
  rewrite Hlen.
  destruct (np_index (length seg) ti) as [kn|] eqn:Hkn; simpl; [|done].
  destruct (np_getitem out ti) as [out_frame|] eqn:Hout; simpl; [|done].
  destruct (as_int tid) as [id|]; simpl; [|done].
  intros; simplify_eq. exists kn, id. split; [done|].
  apply np_getitem_Ok in Hseg as (k1 & Hk1 & Hsf).
  apply np_getitem_Ok in Hout as (k2 & Hk2 & Hof).
  rewrite Hlen in Hk2. rewrite Hkn in Hk1, Hk2. simplify_eq.
  rename k1 into kn.
  assert (Hframes : map (map (λ _, 0%Z)) out_frame = map (map (λ _, 0%Z)) seg_frame).
  { unfold same_shape, zeros_like in Hshape.
    apply (f_equal (.!! kn)) in Hshape.
    rewrite !list_lookup_fmap, Hsf, Hof in Hshape. simpl in Hshape. by simplify_eq. }
  split.
  - unfold same_shape in *. rewrite <- Hshape. unfold zeros_like.
    rewrite list_fmap_insert. apply list_insert_id.
    rewrite list_lookup_fmap, Hof. simpl. f_equal. symmetry. by apply zeros_frame_masked.
  - intros k i j v o Hv Ho. unfold pixel in *.
    destruct (decide (kn = k)) as [->|Hne].
    + rewrite list_lookup_insert_eq by (by eapply lookup_lt_Some). simpl.
      rewrite Hsf in Hv. rewrite Hof in Ho. simpl in *.
      rewrite (pixel_masked _ _ _ _ _ _ o v Ho Hv).
      f_equal. destruct (decide (v = node)).
      * by rewrite decide_True.
      * rewrite decide_False; [done | tauto].
    + rewrite list_lookup_insert_ne by done. rewrite Ho.
      rewrite decide_False; [done | tauto].
Qed.

(** All the nodes painted, one after the other. *)
Lemma relabel_nodes_spec G seg ns out :
  for_each (relabel_node G seg) ns (zeros_like seg) = Ok out →
  same_shape out seg
  ∧ (∀ n, n ∈ ns → is_Some (paint_of G (length seg) n))
  ∧ ∀ k i j v, pixel seg k i j = Some v →
      pixel out k i j = Some (label_after G (length seg) ns k v).
Proof.
  intros Hrun.
  apply (for_each_ind (relabel_node G seg)
    (λ l1 out, same_shape out seg
       ∧ (∀ n, n ∈ l1 → is_Some (paint_of G (length seg) n))
       ∧ ∀ k i j v, pixel seg k i j = Some v →
           pixel out k i j = Some (label_after G (length seg) l1 k v))
    ns (zeros_like seg) out); [| |done].
  - split; [apply same_shape_zeros_like|]. split; [by intros n ?%elem_of_nil|].
    intros k i j v Hv. unfold label_after.
    rewrite decide_False by apply not_elem_of_nil. by eapply pixel_zeros_like.
  - intros l1 a l2 out1 out2 _ (Hshape & Hpaint & Hpix) Hstep.
    destruct (relabel_node_spec _ _ _ _ _ Hshape Hstep) as (kn & tid & Hp & Hshape2 & Hpix2).
    split; [done|]. split.
    { intros n [?| ->%list_elem_of_singleton]%elem_of_app; [auto | by rewrite Hp]. }
    intros k i j v Hv. rewrite (Hpix2 k i j v _ Hv (Hpix k i j v Hv)). f_equal.
    unfold label_after.
    destruct (decide (v = a)) as [->|Hva].
    + rewrite (decide_True (P := a ∈ (l1 ++ [a])%list))
        by (apply elem_of_app; right; by left).
      rewrite Hp. destruct (decide (kn = k)) as [->|Hk].
      * by rewrite decide_True.
      * rewrite decide_False by tauto. by destruct (decide (a ∈ l1)).
    + rewrite decide_False by tauto.
      destruct (decide (v ∈ l1)) as [Hin|Hin].
      * rewrite decide_True; [done | apply elem_of_app; by left].
      * rewrite decide_False; [done|].
        intros [?| ->%list_elem_of_singleton]%elem_of_app; done.
Qed.

Lemma relabel_step_eq (lg ls lt : positive) (h : gmap positive pyobj) G seg out n :
  h !! lg = Some (ObjGraph G) → h !! ls = Some (ObjArray seg) →
  h !! lt = Some (ObjArray out) →
  relabel_step lg ls lt h n
  = (out' ← relabel_node G seg out n; Ok (<[lt := ObjArray out']> h)).
Proof.
  intros HG Hseg Hout. unfold relabel_step, load_graph, load_array.
  by rewrite HG, Hseg, Hout.
Qed.

(** In the store the loop only ever writes to [tracked_masks]. *)
Lemma relabel_loop_store (lg ls lt : positive) G seg ns :
  lt ≠ lg → lt ≠ ls →
  ∀ (h h' : gmap positive pyobj) out,
    h !! lg = Some (ObjGraph G) → h !! ls = Some (ObjArray seg) →
    h !! lt = Some (ObjArray out) →
    for_each (relabel_step lg ls lt) ns h = Ok h' →
    ∃ out', for_each (relabel_node G seg) ns out = Ok out'
            ∧ h' = <[lt := ObjArray out']> h.
Proof.
  intros Hlg Hls. induction ns as [|n ns IH]; intros h h' out HG Hseg Hout Hrun;
    simpl in *.
  - simplify_eq. exists out. split; [done|]. by rewrite insert_id.
  - rewrite (relabel_step_eq _ _ _ _ _ _ _ _ HG Hseg Hout) in Hrun.
    destruct (relabel_node G seg out n) as [out1|]; simpl in *; [|done].
    destruct (IH (<[lt := ObjArray out1]> h) h' out1) as (out' & Hfold & ->);
      [by rewrite lookup_insert_ne .. | apply lookup_insert_eq | done |].
    exists out'. split; [done|]. by rewrite insert_insert_eq.
Qed.

Lemma load_graph_Some (h : gmap positive pyobj) l G :
  h !! l = Some (ObjGraph G) → load_graph h l = Ok G.
Proof. intros H. unfold load_graph. by rewrite H. Qed.

Lemma load_array_Some (h : gmap positive pyobj) l a :
  h !! l = Some (ObjArray a) → load_array h l = Ok a.
Proof. intros H. unfold load_array. by rewrite H. Qed.

(** The call, taken apart: the graph object is replaced by the graph with
    tracklet ids, a new array is allocated, and the nodes are painted into
    it. *)
Lemma relabel_segmentation_run (h h' : gmap positive pyobj) (lg ls lr : positive) G seg :
  h !! lg = Some (ObjGraph G) → h !! ls = Some (ObjArray seg) →
  relabel_segmentation h lg ls = Ok (h', lr) →
  h !! lr = None ∧ lr ≠ lg ∧ lr ≠ ls
  ∧ ∃ out,
      for_each (relabel_node (assign_tracklet_ids G) seg)
        (nodes (assign_tracklet_ids G)).*1 (zeros_like seg) = Ok out
      ∧ h' = <[lr := ObjArray out]> (<[lg := ObjGraph (assign_tracklet_ids G)]> h).
Proof.
  intros HG Hseg. unfold relabel_segmentation.
  rewrite (load_graph_Some _ _ _ HG). simpl.
  set (G' := assign_tracklet_ids G).
  set (h1 := <[lg := ObjGraph G']> h).
  assert (Hne : lg ≠ ls) by (intros ->; congruence).
  assert (HG1 : h1 !! lg = Some (ObjGraph G')) by apply lookup_insert_eq.
  assert (Hseg1 : h1 !! ls = Some (ObjArray seg))
    by (by unfold h1; rewrite lookup_insert_ne).
  rewrite (load_array_Some _ _ _ Hseg1). simpl.
  set (lt := fresh (dom h1)).
  assert (Hfresh : h1 !! lt = None) by (apply not_elem_of_dom, is_fresh).
  assert (Hltg : lt ≠ lg) by (intros Heq; congruence).
  assert (Hlts : lt ≠ ls) by (intros Heq; congruence).
  set (h2 := <[lt := ObjArray (zeros_like seg)]> h1).
  assert (HG2 : h2 !! lg = Some (ObjGraph G'))
    by (by unfold h2; rewrite lookup_insert_ne).
  assert (Hseg2 : h2 !! ls = Some (ObjArray seg))
    by (by unfold h2; rewrite lookup_insert_ne).
  assert (Hout2 : h2 !! lt = Some (ObjArray (zeros_like seg)))
    by apply lookup_insert_eq.
  rewrite (load_graph_Some _ _ _ HG2). simpl.
  destruct (for_each _ _ h2) as [h3|] eqn:Hloop; simpl; [|done].
  intros; simplify_eq.
  split; [by unfold h1 in Hfresh; rewrite lookup_insert_ne in Hfresh|].
  split; [done|]. split; [done|].
  destruct (relabel_loop_store lg ls _ G' seg _ Hltg Hlts _ _ _ HG2 Hseg2 Hout2 Hloop)
    as (out & Hfold & ->).
  exists out. split; [done|]. unfold h2. by rewrite insert_insert_eq.
Qed.

(** C9. The volume returned by the relabelling has the shape of the
    segmentation; for each node of the solution graph, every pixel of the
    node's frame that showed the node's id shows the node's tracklet id;
    and a pixel that showed something that is not a node of the solution
    graph (a detection left out, or the background) is 0. *)
Theorem relabel_segmentation_pixels (h h' : gmap positive pyobj) (lg ls lr : positive)
    (G : DiGraph) (seg : ndarray3) :
  h !! lg = Some (ObjGraph G) → h !! ls = Some (ObjArray seg) →
  relabel_segmentation h lg ls = Ok (h', lr) →
  ∃ G' out,
    h' !! lg = Some (ObjGraph G') ∧ (nodes G').*1 = (nodes G).*1
    ∧ h' !! lr = Some (ObjArray out) ∧ same_shape out seg
    ∧ (∀ n data (t : nat) tid i j,
         node_attrs G' n = Some data →
         data !! "t" = Some (VInt (Z.of_nat t)) →
         data !! "tracklet_id" = Some (VInt tid) →
         pixel seg t i j = Some n → pixel out t i j = Some tid)
    ∧ (∀ k i j v, pixel seg k i j = Some v → v ∉ (nodes G).*1 →
         pixel out k i j = Some 0%Z).
Proof.
  intros HG Hseg Hrun.
  destruct (relabel_segmentation_run _ _ _ _ _ _ _ HG Hseg Hrun)
    as (Hfresh & Hlg & Hls & out & Hfold & ->).
  destruct (assign_tracklet_ids_spec G) as (Hk & He & Hattrs).
  destruct (relabel_nodes_spec _ _ _ _ Hfold) as (Hshape & Hpaint & Hpix).
  exists (assign_tracklet_ids G), out.
  split; [by rewrite lookup_insert_ne, lookup_insert_eq|]. split; [done|].
  split; [apply lookup_insert_eq|]. split; [done|]. split.
  - intros n data t tid i j Hn Ht Htid Hv.
    rewrite (Hpix _ _ _ _ Hv). f_equal. unfold label_after.
    rewrite decide_True.
    2:{ apply alist_lookup_is_Some. unfold node_attrs in Hn. by rewrite Hn. }
    unfold paint_of. rewrite Hn. simpl. rewrite Ht, Htid. simpl.
    rewrite np_index_in_range.
    2:{ unfold pixel in Hv. destruct (seg !! t) eqn:E; [|done]. by eapply lookup_lt_Some. }
    by rewrite decide_True.
  - intros k i j v Hv Hnot. rewrite (Hpix _ _ _ _ Hv). f_equal. unfold label_after.
    rewrite decide_False; [done|]. by rewrite Hk.
Qed.

Lemma relabel_segmentation_pixels_witness :
  ∃ h' lr G' out,
    relabel_segmentation relabel_fixture_store 1 2 = Ok (h', lr)
    ∧ h' !! 1%positive = Some (ObjGraph G')
    ∧ (nodes G').*1 = (nodes relabel_fixture_graph).*1
    ∧ h' !! lr = Some (ObjArray out) ∧ same_shape out relabel_fixture_seg
    ∧ (∀ n data (t : nat) tid i j,
         node_attrs G' n = Some data →
         data !! "t" = Some (VInt (Z.of_nat t)) →
         data !! "tracklet_id" = Some (VInt tid) →
         pixel relabel_fixture_seg t i j = Some n → pixel out t i j = Some tid)
    ∧ (∀ k i j v, pixel relabel_fixture_seg k i j = Some v →
         v ∉ (nodes relabel_fixture_graph).*1 → pixel out k i j = Some 0%Z).
Proof.
  destruct (relabel_segmentation relabel_fixture_store 1 2) as [[h' lr]|] eqn:Hrun;
    [|vm_compute in Hrun; discriminate].
  destruct (relabel_segmentation_pixels relabel_fixture_store h' 1 2 lr
              relabel_fixture_graph relabel_fixture_seg eq_refl eq_refl Hrun)
    as (G' & out & H).
  by exists h', lr, G', out.
Defined.

(** C10. The call changes the graph object it is given: afterwards every
    node of that graph carries a [tracklet_id].  The segmentation object
    is as it was; the result is a reference that was not allocated before
    the call, and no other object of the store has changed. *)
Theorem relabel_segmentation_effect (h h' : gmap positive pyobj) (lg ls lr : positive)
    (G : DiGraph) (seg : ndarray3) :
  h !! lg = Some (ObjGraph G) → h !! ls = Some (ObjArray seg) →
  relabel_segmentation h lg ls = Ok (h', lr) →
  (∃ G', h' !! lg = Some (ObjGraph G')
     ∧ (nodes G').*1 = (nodes G).*1 ∧ edges G' = edges G
     ∧ ∀ n data, node_attrs G n = Some data →
         ∃ data' tid, node_attrs G' n = Some data'
           ∧ data' !! "tracklet_id" = Some (VInt tid)
           ∧ ∀ k, k ≠ "tracklet_id" → data' !! k = data !! k)
  ∧ h' !! ls = Some (ObjArray seg)
  ∧ h !! lr = None ∧ lr ≠ ls ∧ lr ≠ lg
  ∧ (∃ out, h' !! lr = Some (ObjArray out) ∧ same_shape out seg)
  ∧ ∀ l, l ≠ lg → l ≠ lr → h' !! l = h !! l.
Proof.
  intros HG Hseg Hrun.
  destruct (relabel_segmentation_run _ _ _ _ _ _ _ HG Hseg Hrun)
    as (Hfresh & Hlg & Hls & out & Hfold & ->).
  destruct (assign_tracklet_ids_spec G) as (Hk & He & Hattrs).
  destruct (relabel_nodes_spec _ _ _ _ Hfold) as (Hshape & _ & _).
  assert (Hne : lg ≠ ls) by (intros ->; congruence).
  split_and!; try done.
  - exists (assign_tracklet_ids G).
    split; [by rewrite lookup_insert_ne, lookup_insert_eq|]. done.
  - by rewrite !lookup_insert_ne.
  - exists out. split; [apply lookup_insert_eq | done].
  - intros l ? ?. by rewrite !lookup_insert_ne.
Qed.

Lemma relabel_segmentation_effect_witness :
  ∃ h' lr,
    relabel_segmentation relabel_fixture_store 1 2 = Ok (h', lr)
    ∧ (∃ G', h' !! 1%positive = Some (ObjGraph G')
         ∧ (nodes G').*1 = (nodes relabel_fixture_graph).*1
         ∧ edges G' = edges relabel_fixture_graph
         ∧ ∀ n data, node_attrs relabel_fixture_graph n = Some data →
             ∃ data' tid, node_attrs G' n = Some data'
               ∧ data' !! "tracklet_id" = Some (VInt tid)
               ∧ ∀ k, k ≠ "tracklet_id" → data' !! k = data !! k)
    ∧ h' !! 2%positive = Some (ObjArray relabel_fixture_seg)
    ∧ relabel_fixture_store !! lr = None ∧ lr ≠ 2%positive ∧ lr ≠ 1%positive
    ∧ (∃ out, h' !! lr = Some (ObjArray out) ∧ same_shape out relabel_fixture_seg)
    ∧ ∀ l, l ≠ 1%positive → l ≠ lr → h' !! l = relabel_fixture_store !! l.
Proof.
  destruct (relabel_segmentation relabel_fixture_store 1 2) as [[h' lr]|] eqn:Hrun;
    [|vm_compute in Hrun; discriminate].
  exists h', lr. split; [done|].
  exact (relabel_segmentation_effect relabel_fixture_store h' 1 2 lr
           relabel_fixture_graph relabel_fixture_seg eq_refl eq_refl Hrun).
Defined.

(** ** Candidate edges *)

(** C1. Every candidate edge is claimed to join a frame to the next one,
    with no edge across a gap.  On detections in the frames 0, 2 and 3,
    all within the distance 50 of each other, the only edge made joins
    node 1 of frame 0 to node 3 of frame 3, and the nodes 2 and 3 of the
    adjacent frames 2 and 3 are left unlinked: after the skipped frame the
    loop still holds the nodes of frame 0 as the previous ones. *)
Theorem add_cand_edges_crosses_gap :
  ∃ G, add_cand_edges gap_fixture 50 = Ok G
       ∧ (edges G).*1 = [(1, 3)%Z]
       ∧ frame_of G 1 = Some 0%Z ∧ frame_of G 3 = Some 3%Z.
Proof.
  eexists. split; [vm_compute; reflexivity|].
  split_and!; vm_compute; reflexivity.
Qed.

(** ** Selections and degrees *)

Lemma selected_cons {A : Type} (x : A) xs (b : bool) bs :
  selected (x :: xs) (b :: bs) = if b then x :: selected xs bs else selected xs bs.
Proof.
  unfold selected. simpl. rewrite filter_cons. simpl.
  destruct b; by case_decide.
Qed.

Lemma selected_nil_r {A : Type} (xs : list A) : selected xs [] = [].
Proof. by destruct xs. Qed.

Lemma selected_sublist {A : Type} (xs : list A) bs : selected xs bs `sublist_of` xs.
Proof.
  revert bs. induction xs as [|x xs IH]; intros [|b bs].
  - constructor.
  - constructor.
  - rewrite selected_nil_r. apply sublist_nil_l.
  - rewrite selected_cons. destruct b; [by apply sublist_skip | by apply sublist_cons].
Qed.

Lemma selected_fmap {A B : Type} (f : A → B) xs bs :
  f <$> selected xs bs = selected (f <$> xs) bs.
Proof.
  revert bs. induction xs as [|x xs IH]; intros [|b bs]; try done.
  rewrite fmap_cons, !selected_cons. destruct b; [rewrite fmap_cons|]; by rewrite IH.
Qed.

Lemma selected_replicate_false {A : Type} (xs : list A) n :
  selected xs (replicate n false) = [].
Proof.
  revert n. induction xs as [|x xs IH]; intros [|n]; try done.
  simpl. by rewrite selected_cons.
Qed.

Lemma indegree_pos es u v : (u, v) ∈ es → (1 ≤ indegree_in es v)%nat.
Proof.
  intros Hin. unfold indegree_in.
  assert (Hf : (u, v) ∈ filter (λ e : Z * Z, e.2 = v) es) by (by apply list_elem_of_filter).
  destruct (filter _ es); [by apply elem_of_nil in Hf | simpl; lia].
Qed.

Lemma outdegree_pos es u v : (u, v) ∈ es → (1 ≤ outdegree_in es u)%nat.
Proof.
  intros Hin. unfold outdegree_in.
  assert (Hf : (u, v) ∈ filter (λ e : Z * Z, e.1 = u) es) by (by apply list_elem_of_filter).
  destruct (filter _ es); [by apply elem_of_nil in Hf | simpl; lia].
Qed.

Lemma indegree_unique es u u' v :
  NoDup es → (u, v) ∈ es → (u', v) ∈ es → (indegree_in es v ≤ 1)%nat → u = u'.
Proof.
  intros Hnd Hu Hu' Hdeg. unfold indegree_in in Hdeg.
  assert (Hf : (u, v) ∈ filter (λ e : Z * Z, e.2 = v) es) by (by apply list_elem_of_filter).
  assert (Hf' : (u', v) ∈ filter (λ e : Z * Z, e.2 = v) es) by (by apply list_elem_of_filter).
  destruct (filter _ es) as [|e [|e' l]]; simpl in Hdeg; [by apply elem_of_nil in Hf| |lia].
  apply list_elem_of_singleton in Hf, Hf'. congruence.
Qed.

Lemma indegree_zero_or_edge es v : indegree_in es v = 0%nat ∨ ∃ u, (u, v) ∈ es.
Proof.
  unfold indegree_in. destruct (filter _ es) as [|[u w] l] eqn:Hf; [by left|].
  right. exists u.
  assert (Hin : (u, w) ∈ filter (λ e : Z * Z, e.2 = v) es) by (rewrite Hf; by left).
  apply list_elem_of_filter in Hin as [Hw Hin]. simpl in Hw. by subst.
Qed.

(** ** Forests *)

Section forest.
Variable G : DiGraph.
Hypothesis edges_NoDup : NoDup (edges G).*1.
Hypothesis edges_closed : ∀ u v, (u, v) ∈ (edges G).*1 → u ∈ (nodes G).*1 ∧ v ∈ (nodes G).*1.
Hypothesis one_parent : ∀ v, v ∈ (nodes G).*1 → (in_degree G v ≤ 1)%nat.
Hypothesis next_frame : ∀ u v, (u, v) ∈ (edges G).*1 →
  ∃ tu tv, frame_of G u = Some tu ∧ frame_of G v = Some tv ∧ (tu + 1 = tv)%Z.

Lemma path_unique r v p :
  path G r v p → in_degree G r = 0%nat →
  ∀ r' p', path G r' v p' → in_degree G r' = 0%nat → r' = r ∧ p' = p.
Proof.
  induction 1 as [v Hv|r u v p Hp IH He]; intros Hr r' p' Hp' Hr'.
  - inversion Hp' as [|? u' ? p0 Hp0 He']; subst; [done|].
    pose proof (indegree_pos _ _ _ He') as Hpos. unfold in_degree in Hr. lia.
  - inversion Hp' as [|? u' ? p0 Hp0 He']; subst.
    + pose proof (indegree_pos _ _ _ He) as Hpos. unfold in_degree in Hr'. lia.
    + assert (u' = u) as ->.
      { eapply indegree_unique; [done..|]. apply one_parent. by eapply edges_closed. }
      destruct (IH Hr r' p0 Hp0 Hr') as [-> ->]. done.
Qed.

(** A lower bound of the frames of the nodes. *)
Lemma frames_bounded (l : list Z) :
  ∃ tmin, ∀ v t, v ∈ l → frame_of G v = Some t → (tmin ≤ t)%Z.
Proof.
  induction l as [|n l IHl].
  - exists 0%Z. by intros v t ?%elem_of_nil.
  - destruct IHl as [tmin IH]. destruct (frame_of G n) as [tn|] eqn:Hn.
    + exists (Z.min tmin tn). intros v t [->|Hv]%elem_of_cons Hf.
      * simplify_eq. lia.
      * specialize (IH v t Hv Hf). lia.
    + exists tmin. intros v t [->|Hv]%elem_of_cons Hf; [congruence | eauto].
Qed.

Lemma path_exists v : v ∈ (nodes G).*1 → ∃ r p, in_degree G r = 0%nat ∧ path G r v p.
Proof.
  destruct (frames_bounded (nodes G).*1) as [tmin Hmin].
  cut (∀ (n : nat) v t, v ∈ (nodes G).*1 → frame_of G v = Some t →
         (t - tmin < Z.of_nat n)%Z → ∃ r p, in_degree G r = 0%nat ∧ path G r v p).
  { intros Hgen Hv.
    destruct (indegree_zero_or_edge (edges G).*1 v) as [H0|[u Hu]].
    - exists v, [v]. split; [done | by constructor].
    - destruct (next_frame u v Hu) as (tu & tv & _ & Htv & _).
      apply (Hgen (S (Z.to_nat (tv - tmin))) v tv Hv Htv). lia. }
  clear v. induction n as [|n IH]; intros v t Hv Ht Hlt.
  - specialize (Hmin v t Hv Ht). lia.
  - destruct (indegree_zero_or_edge (edges G).*1 v) as [H0|[u Hu]].
    + exists v, [v]. split; [done | by constructor].
    + destruct (next_frame u v Hu) as (tu & tv & Htu & Htv & Hnext).
      assert (tv = t) as -> by congruence.
      destruct (IH u tu) as (r & p & Hr & Hp);
        [exact (proj1 (edges_closed u v Hu)) | done | lia |].
      exists r, (p ++ [v])%list. split; [done|]. by econstructor.
Qed.

Lemma rooted_forest_intro : rooted_forest G.
Proof.
  intros v Hv. destruct (path_exists v Hv) as (r & p & Hr & Hp).
  exists r, p. split; [done|]. split; [done|].
  intros r' p' Hr' Hp'. by eapply path_unique.
Qed.
End forest.

(** ** The solver *)

Lemma list_comp_length {A B : Type} (f : A → res B) l bs :
  list_comp f l = Ok bs → length bs = length l.
Proof.
  revert bs. induction l as [|a l IH]; intros bs; simpl; [by intros; simplify_eq|].
  destruct (f a); simpl; [|done]. destruct (list_comp f l); simpl; [|done].
  intros; simplify_eq. simpl. f_equal. by apply IH.
Qed.

Lemma build_ilp_shape solver P :
  build_ilp solver = Ok P →
  ilp_nodes P = (nodes (graph solver)).*1
  ∧ ilp_edges P = (edges (graph solver)).*1
  ∧ ilp_max_parents P
    = omap (λ c, match c with MaxParents n => Some n | _ => None end) (constraints solver)
  ∧ ilp_max_children P
    = omap (λ c, match c with MaxChildren n => Some n | _ => None end) (constraints solver).
Proof.
  unfold build_ilp. intros Hb.
  repeat match type of Hb with
         | (?m ≫= _) = _ => destruct m; simpl in Hb; [|done]
         end.
  by simplify_eq.
Qed.

Lemma feasible_spec P x :
  feasible P x = true →
  let sn := selected (ilp_nodes P) (sel_nodes x) in
  let se := selected (ilp_edges P) (sel_edges x) in
  (∀ u v, (u, v) ∈ se → u ∈ sn ∧ v ∈ sn)
  ∧ ∀ v, v ∈ ilp_nodes P →
      (∀ n, n ∈ ilp_max_parents P → (indegree_in se v ≤ n)%nat)
      ∧ (∀ n, n ∈ ilp_max_children P → (outdegree_in se v ≤ n)%nat).
Proof.
  unfold feasible. rewrite !andb_true_iff, !forallb_forall.
  intros [[_ Hinc] Hdeg]. split.
  - intros u v Hin. apply list_elem_of_In, Hinc in Hin.
    apply andb_true_iff in Hin as [H1 H2].
    by apply bool_decide_eq_true in H1, H2.
  - intros v Hv. apply list_elem_of_In, Hdeg in Hv.
    apply andb_true_iff in Hv as [H1 H2]. rewrite forallb_forall in H1, H2.
    split; intros n Hn%list_elem_of_In.
    + by apply H1, bool_decide_eq_true in Hn.
    + by apply H2, bool_decide_eq_true in Hn.
Qed.

(** The frame of a selected node is its frame in the candidate graph. *)
Lemma frame_of_selected G x v :
  NoDup (nodes G).*1 → v ∈ (nodes (get_selected_subgraph G x)).*1 →
  frame_of (get_selected_subgraph G x) v = frame_of G v.
Proof.
  intros Hnd Hv. unfold frame_of, node_attrs. simpl in *.
  apply list_elem_of_fmap in Hv as ([v' a] & -> & Hin). simpl.
  assert (H1 : alist_lookup v' (selected (nodes G) (sel_nodes x)) = Some a).
  { apply alist_lookup_in_NoDup; [|done].
    rewrite selected_fmap. eapply sublist_NoDup; [done | apply selected_sublist]. }
  assert (H2 : alist_lookup v' (nodes G) = Some a).
  { apply alist_lookup_in_NoDup; [done|].
    eapply elem_of_sublist; [done | apply selected_sublist]. }
  by rewrite H1, H2.
Qed.

(** What the constraints give for any solver that limits parents to one
    and children to two. *)
Lemma solve_forest solver solution_graph :
  candidate_graph (graph solver) →
  MaxParents 1 ∈ constraints solver → MaxChildren 2 ∈ constraints solver →
  solve solver solution_graph →
  (∀ v, v ∈ (nodes solution_graph).*1 →
        (in_degree solution_graph v ≤ 1)%nat ∧ (out_degree solution_graph v ≤ 2)%nat)
  ∧ (∀ u v, (u, v) ∈ (edges solution_graph).*1 →
        ∃ tu tv, frame_of solution_graph u = Some tu
                 ∧ frame_of solution_graph v = Some tv ∧ (tu + 1 = tv)%Z)
  ∧ rooted_forest solution_graph.
Proof.
  intros (Hnd & Hed & Hadj) Hmp Hmc (P & x & HP & [Hfeas _] & ->).
  destruct (build_ilp_shape _ _ HP) as (Hn & He & Hp & Hc).
  destruct (feasible_spec _ _ Hfeas) as [Hinc Hdeg]. rewrite Hn, He in Hinc, Hdeg.
  set (G := graph solver) in *. set (sol := get_selected_subgraph G x).
  assert (Hsn : (nodes sol).*1 = selected (nodes G).*1 (sel_nodes x))
    by apply selected_fmap.
  assert (Hse : (edges sol).*1 = selected (edges G).*1 (sel_edges x))
    by apply selected_fmap.
  assert (Hdegs : ∀ v, v ∈ (nodes sol).*1 →
            (in_degree sol v ≤ 1)%nat ∧ (out_degree sol v ≤ 2)%nat).
  { intros v Hv. unfold in_degree, out_degree. rewrite Hse.
    destruct (Hdeg v) as [H1 H2].
    { rewrite Hsn in Hv. eapply elem_of_sublist; [done | apply selected_sublist]. }
    split.
    - apply H1. rewrite Hp. apply list_elem_of_omap. by exists (MaxParents 1).
    - apply H2. rewrite Hc. apply list_elem_of_omap. by exists (MaxChildren 2). }
  assert (Hframes : ∀ u v, (u, v) ∈ (edges sol).*1 →
            ∃ tu tv, frame_of sol u = Some tu ∧ frame_of sol v = Some tv
                     ∧ (tu + 1 = tv)%Z).
  { intros u v Huv. rewrite Hse in Huv.
    destruct (Hinc u v Huv) as [Hu Hv]. rewrite <- Hsn in Hu, Hv.
    destruct (Hadj u v) as (_ & _ & tu & tv & Htu & Htv & Hnext).
    { eapply elem_of_sublist; [done | apply selected_sublist]. }
    exists tu, tv. unfold sol. by rewrite !frame_of_selected. }
  split; [done|]. split; [done|].
  apply rooted_forest_intro; [| |by intros v Hv; apply Hdegs|done].
  - rewrite Hse. eapply sublist_NoDup; [done | apply selected_sublist].
  - intros u v Huv. rewrite Hse in Huv. rewrite Hsn. by apply Hinc.
Qed.

(** What the solvers keep of a well-formed candidate graph.  Over a
    candidate graph whose edges all join a frame to the next one, every
    solution graph that one of the three solver configurations returns
    has at most one incoming and at most two outgoing edges at every
    node, has only edges from a frame to the next one, and is a forest:
    every node is reached by exactly one path from exactly one node
    without incoming edge.  The frames of the edges are those of the
    candidate graph: the solvers select edges, they do not check them. *)
Theorem solution_graph_is_forest (cand_graph solution_graph : DiGraph) :
  candidate_graph cand_graph →
  solve_basic_optimization cand_graph solution_graph
  ∨ solve_appear_optimization cand_graph solution_graph
  ∨ solve_drift_optimization cand_graph solution_graph →
  (∀ v, v ∈ (nodes solution_graph).*1 →
        (in_degree solution_graph v ≤ 1)%nat ∧ (out_degree solution_graph v ≤ 2)%nat)
  ∧ (∀ u v, (u, v) ∈ (edges solution_graph).*1 →
        ∃ tu tv, frame_of solution_graph u = Some tu
                 ∧ frame_of solution_graph v = Some tv ∧ (tu + 1 = tv)%Z)
  ∧ rooted_forest solution_graph.
Proof.
  intros Hcand [Hs|[Hs|Hs]]; (eapply solve_forest; [| | |exact Hs]); try done;
    simpl; rewrite ?elem_of_cons; auto.
Qed.

(** An optimality claim on a concrete program is settled by running
    through the assignments. *)
Ltac settle_assignment H :=
  first [ vm_compute in H; discriminate H
        | vm_compute; intros ?; discriminate
        | vm_compute; reflexivity ].

Lemma pair_fixture_candidate : candidate_graph pair_fixture.
Proof.
  split; [refine (bool_decide_unpack _ _); vm_compute; exact I|].
  split; [refine (bool_decide_unpack _ _); vm_compute; exact I|].
  intros u v Hin. simpl in Hin. apply list_elem_of_singleton in Hin. simplify_eq.
  split; [simpl; by left|]. split; [simpl; right; by left|].
  exists 0%Z, 1%Z. split_and!; vm_compute; reflexivity.
Qed.

Lemma pair_fixture_basic_solution :
  solve_basic_optimization pair_fixture
    (get_selected_subgraph pair_fixture (mkSelection [true; true] [true])).
Proof.
  unfold solve_basic_optimization, solve. eexists _, _.
  split; [vm_compute; reflexivity|]. split; [|reflexivity].
  split; [vm_compute; reflexivity|].
  intros [[|b1 [|b2 [|b3 xn]]] [|c1 [|c2 xe]]] Hx;
    try (vm_compute in Hx; discriminate Hx);
    destruct b1, b2, c1; settle_assignment Hx.
Qed.

Lemma solution_graph_is_forest_witness :
  let solution_graph :=
    get_selected_subgraph pair_fixture (mkSelection [true; true] [true]) in
  (∀ v, v ∈ (nodes solution_graph).*1 →
        (in_degree solution_graph v ≤ 1)%nat ∧ (out_degree solution_graph v ≤ 2)%nat)
  ∧ (∀ u v, (u, v) ∈ (edges solution_graph).*1 →
        ∃ tu tv, frame_of solution_graph u = Some tu
                 ∧ frame_of solution_graph v = Some tv ∧ (tu + 1 = tv)%Z)
  ∧ rooted_forest solution_graph.
Proof.
  intros solution_graph.
  apply (solution_graph_is_forest pair_fixture solution_graph pair_fixture_candidate).
  left. apply pair_fixture_basic_solution.
Defined.

(** C5. Every solution graph is claimed to have only edges from a frame
    to the next one.  On the detections in the frames 0, 2 and 3 the
    candidate edge builder makes the single edge from node 1 of frame 0
    to node 3 of frame 3, and the basic solver selects it: the program
    has one optimum, the two end nodes with the edge between them (the
    edge costs its length minus 20, the appearance of node 1 costs 1), so
    that every solution graph the solver returns has an edge across three
    frames. *)
Theorem solve_basic_optimization_crosses_gap :
  ∃ cand_graph, add_cand_edges gap_fixture 50 = Ok cand_graph
    ∧ (∃ solution_graph, solve_basic_optimization cand_graph solution_graph)
    ∧ ∀ solution_graph, solve_basic_optimization cand_graph solution_graph →
        (nodes solution_graph).*1 = [1; 3]%Z
        ∧ (edges solution_graph).*1 = [(1, 3)%Z]
        ∧ frame_of solution_graph 1 = Some 0%Z
        ∧ frame_of solution_graph 3 = Some 3%Z.
Proof.
  eexists. split; [vm_compute; reflexivity|].
  assert (Hbest : ∀ P, build_ilp (basic_solver
            (mkDiGraph (nodes gap_fixture) [((1, 3)%Z, ∅)])) = Ok P →
            ∀ x, optimal P x ↔ x = mkSelection [true; false; true] [true]).
  { intros P HP. vm_compute in HP. injection HP as <-.
    intros x. split.
    - intros [Hfeas Hopt].
      specialize (Hopt (mkSelection [true; false; true] [true]) eq_refl).
      destruct x as [[|b1 [|b2 [|b3 [|b4 xn]]]] [|c1 [|c2 xe]]];
        try (vm_compute in Hfeas; discriminate Hfeas).
      destruct b1, b2, b3, c1;
        first [ vm_compute in Hfeas; discriminate Hfeas
              | exfalso; vm_compute in Hopt; by apply Hopt
              | reflexivity ].
    - intros ->. split; [vm_compute; reflexivity|].
      intros [[|b1 [|b2 [|b3 [|b4 xn]]]] [|c1 [|c2 xe]]] Hx;
        try (vm_compute in Hx; discriminate Hx);
        destruct b1, b2, b3, c1; settle_assignment Hx. }
  split.
  - eexists. unfold solve_basic_optimization, solve. eexists _, _.
    split; [vm_compute; reflexivity|]. split; [|reflexivity].
    eapply Hbest; [vm_compute; reflexivity | reflexivity].
  - intros solution_graph (P & x & HP & Hopt & ->).
    assert (x = mkSelection [true; false; true] [true]) as ->.
    { eapply Hbest; [|exact Hopt]. exact HP. }
    split_and!; vm_compute; reflexivity.
Qed.

(** ** Solvers without a negative cost *)

Lemma Qsum_nonneg l : Forall (Qle 0) l → (0 <= Qsum l)%Q.
Proof.
  induction 1 as [|q l Hq _ IH]; simpl; [apply Qle_refl|].
  replace 0%Q with (0 + 0)%Q by reflexivity. by apply Qplus_le_compat.
Qed.

Lemma Qsum_zero l : Forall (λ q, q == 0)%Q l → (Qsum l == 0)%Q.
Proof.
  induction 1 as [|q l Hq _ IH]; simpl; [reflexivity|]. rewrite Hq, IH. reflexivity.
Qed.

Lemma charges_nonneg {A : Type} (g : A → bool) (xs : list A) (cs : list Q) :
  Forall (Qle 0) cs → Forall (Qle 0) (zip_with (λ a c, charge (g a) c) xs cs).
Proof.
  intros Hcs. revert xs. induction Hcs as [|c cs Hc _ IH]; intros [|a xs]; simpl;
    try constructor; [|apply IH].
  unfold charge. destruct (g a); [done | apply Qle_refl].
Qed.

Lemma charges_zero {A : Type} (g : A → bool) (xs : list A) (cs : list Q) :
  (∀ a, a ∈ xs → g a = false) →
  Forall (λ q, q == 0)%Q (zip_with (λ a c, charge (g a) c) xs cs).
Proof.
  revert cs. induction xs as [|a xs IH]; intros [|c cs] Hg; simpl; try constructor.
  - rewrite (Hg a) by (by left). reflexivity.
  - apply IH. intros b Hb. apply Hg. by right.
Qed.

Lemma objective_nonneg P x : nonneg_costs P → (0 <= objective P x)%Q.
Proof.
  intros (He & Ha & Hs). unfold objective.
  replace 0%Q with (0 + 0 + 0)%Q by reflexivity.
  repeat apply Qplus_le_compat; apply Qsum_nonneg.
  - by apply (charges_nonneg (λ b : bool, b)).
  - by apply (charges_nonneg (λ vb : Z * bool, vb.2 && bool_decide (_ = 0%nat))).
  - by apply (charges_nonneg (λ v : Z, bool_decide (2 ≤ _)%nat)).
Qed.

Lemma select_nothing_feasible P : feasible P (select_nothing P) = true.
Proof.
  unfold feasible, select_nothing. simpl.
  rewrite !selected_replicate_false, !length_replicate. simpl.
  rewrite !bool_decide_eq_true_2 by done. simpl.
  apply forallb_forall. intros v _. apply andb_true_iff.
  split; apply forallb_forall; intros n _;
    first [done | apply bool_decide_eq_true_2; unfold indegree_in, outdegree_in; simpl; lia].
Qed.

Lemma select_nothing_objective P : (objective P (select_nothing P) == 0)%Q.
Proof.
  unfold objective, select_nothing. simpl. rewrite selected_replicate_false.
  transitivity (0 + 0 + 0)%Q; [|reflexivity].
  repeat apply Qplus_comp; apply Qsum_zero.
  - apply (charges_zero (λ b : bool, b)).
    intros b Hb. by apply elem_of_replicate in Hb as [-> _].
  - apply (charges_zero (λ vb : Z * bool, vb.2 && bool_decide (indegree_in [] vb.1 = 0%nat))).
    intros [v b] Hb. apply elem_of_zip_r, elem_of_replicate in Hb as [Hb _].
    simpl in *. by subst.
  - apply (charges_zero (λ v : Z, bool_decide (2 ≤ outdegree_in [] v)%nat)).
    intros v _. apply bool_decide_eq_false_2. unfold outdegree_in. simpl. lia.
Qed.

(** When no cost of the solver is negative, selecting nothing is
    optimal, with objective 0, so that the empty graph is among the
    optimal solutions; and every optimal assignment has objective 0 as
    well. *)
Lemma nonneg_costs_empty_solution_optimal (solver : Solver) (P : ilp) :
  build_ilp solver = Ok P → nonneg_costs P →
  optimal P (select_nothing P)
  ∧ (objective P (select_nothing P) == 0)%Q
  ∧ solve solver (mkDiGraph [] [])
  ∧ ∀ x, optimal P x → (objective P x == 0)%Q.
Proof.
  intros HP Hnonneg.
  assert (Hopt : optimal P (select_nothing P)).
  { split; [apply select_nothing_feasible|]. intros x' _.
    rewrite select_nothing_objective. by apply objective_nonneg. }
  split; [done|]. split; [apply select_nothing_objective|]. split.
  - exists P, (select_nothing P). split; [done|]. split; [done|].
    destruct (build_ilp_shape _ _ HP) as (Hn & He & _).
    unfold get_selected_subgraph, select_nothing. simpl.
    by rewrite !selected_replicate_false.
  - intros x [Hfeas Hmin]. apply Qle_antisym.
    + rewrite <- (select_nothing_objective P). apply Hmin, select_nothing_feasible.
    + by apply objective_nonneg.
Qed.

Lemma tagged_fixture_nonneg :
  ∃ P, build_ilp (appear_solver_without_negative tagged_fixture) = Ok P ∧ nonneg_costs P.
Proof.
  eexists. split; [vm_compute; reflexivity|].
  unfold nonneg_costs. simpl.
  split_and!; repeat constructor; vm_compute; intros ?; discriminate.
Qed.

Lemma nonneg_costs_empty_solution_optimal_witness :
  solve (appear_solver_without_negative tagged_fixture) (mkDiGraph [] []).
Proof.
  destruct tagged_fixture_nonneg as (P & HP & Hnonneg).
  apply (nonneg_costs_empty_solution_optimal _ P HP Hnonneg).
Defined.

(** Selecting nothing need not be the only optimum.  For the
    boundary-aware solver with the constant 0 in place of -20 no cost is
    negative, yet selecting the first-frame node alone also has objective
    0, since its appear cost is waived.  The program does not say which
    of its optima a solver returns. *)
Lemma nonneg_costs_tie :
  ∃ P, build_ilp (appear_solver_without_negative tagged_fixture) = Ok P
       ∧ nonneg_costs P
       ∧ optimal P (select_nothing P)
       ∧ optimal P (mkSelection [true; false] [false]).
Proof.
  destruct tagged_fixture_nonneg as (P & HP & Hnonneg).
  exists P. split; [done|]. split; [done|].
  split; [by apply (nonneg_costs_empty_solution_optimal _ P HP Hnonneg)|].
  pose proof HP as HP'. vm_compute in HP'. injection HP' as HP'.
  split; [rewrite <- HP'; vm_compute; reflexivity|].
  intros x' _. apply (Qle_trans _ 0).
  - rewrite <- HP'. vm_compute. intros ?; discriminate.
  - by apply objective_nonneg.
Qed.

(** ** Candidate edges: what holds of every edge made *)

Lemma list_comp_Forall2 {A B : Type} (f : A → res B) l bs :
  list_comp f l = Ok bs → Forall2 (λ a b, f a = Ok b) l bs.
Proof.
  revert bs. induction l as [|a l IH]; intros bs; simpl.
  - intros; simplify_eq. constructor.
  - destruct (f a) as [b|] eqn:Hb; simpl; [|done].
    destruct (list_comp f l) as [bs'|]; simpl; [|done].
    intros; simplify_eq. constructor; [done | by apply IH].
Qed.

Lemma create_kdtree_spec G node_ids tree :
  create_kdtree G node_ids = Ok tree → Forall2 (pos_of_node G) node_ids tree.
Proof.
  unfold create_kdtree.
  destruct (list_comp _ node_ids) as [positions|] eqn:Hc; simpl; [|done].
  intros Htree.
  assert (tree = positions) as ->.
  { unfold KDTree in Htree. destruct positions; [done|].
    by destruct (forallb _ _); simplify_eq. }
  apply list_comp_Forall2 in Hc. eapply Forall2_impl; [exact Hc|].
  intros n [x y]. unfold nodes_getitem, pos_of_node, node_pos, getitem.
  destruct (node_attrs G n) as [a|]; simpl; [|done].
  destruct (a !! "x") as [[| |]|] eqn:Hx; simpl; try done.
  destruct (a !! "y") as [[| |]|] eqn:Hy; simpl; try done.
  intros; simplify_eq. exists a. split; [done|]. by rewrite Hx, Hy.
Qed.

Lemma add_edge_existing G u v :
  is_Some (node_attrs G u) → is_Some (node_attrs G v) →
  nodes (add_edge G u v) = nodes G
  ∧ ∀ e, e ∈ (edges (add_edge G u v)).*1 → e ∈ (edges G).*1 ∨ e = (u, v).
Proof.
  intros Hu%has_node_is_Some Hv%has_node_is_Some. unfold add_edge.
  rewrite Hu, Hv. case_bool_decide; simpl.
  - split; [done|]. by left.
  - split; [done|]. intros e. rewrite insert_edge_keys, elem_of_cons. simpl. tauto.
Qed.

Lemma np_index_nat n i k : np_index n (Z.of_nat i) = Ok k → k = i.
Proof.
  unfold np_index. assert ((Z.of_nat i <? 0)%Z = false) as -> by (apply Z.ltb_ge; lia).
  destruct (_ && _); [|done]. intros; simplify_eq. by rewrite Nat2Z.id.
Qed.

(** The edges made between the nodes of two frames. *)
Lemma link_frames_spec G D Gc Gc' prev ptree next ntree :
  nodes Gc = nodes G →
  Forall2 (pos_of_node G) prev ptree → Forall2 (pos_of_node G) next ntree →
  for_each (λ G '(prev_node_id, next_node_indices),
      for_each (λ G next_node_index,
          next_node_id ← np_getitem next (Z.of_nat next_node_index);
          Ok (add_edge G prev_node_id next_node_id))
        next_node_indices G)
    (zip prev (query_ball_tree ptree ntree D)) Gc = Ok Gc' →
  nodes Gc' = nodes G
  ∧ ∀ e, e ∈ (edges Gc').*1 →
      e ∈ (edges Gc).*1 ∨ (e.1 ∈ prev ∧ e.2 ∈ next ∧ within_distance G D e.1 e.2).
Proof.
  intros Hnodes Hprev Hnext.
  set (J := λ Gx : DiGraph, nodes Gx = nodes G
    ∧ ∀ e, e ∈ (edges Gx).*1 →
        e ∈ (edges Gc).*1 ∨ (e.1 ∈ prev ∧ e.2 ∈ next ∧ within_distance G D e.1 e.2)).
  apply (for_each_inv _ J); [split; [done | by left]|].
  intros G1 [u idxs] G2 Hin HJ1.
  apply elem_of_lookup_zip_with_1 in Hin as (i & u' & idxs' & Heq & Hu & Hidxs).
  injection Heq as -> ->. rename u' into u. unfold query_ball_tree in Hidxs.
  apply list_lookup_fmap_Some_1 in Hidxs as (p & -> & Hp).
  pose proof (Forall2_lookup_lr _ _ _ _ _ _ Hprev Hu Hp) as Hpu.
  apply (for_each_inv _ J); [done|].
  intros G3 idx G4 Hidx [Hn3 He3].
  apply list_elem_of_fmap in Hidx as ([j q] & -> & Hjq).
  apply list_elem_of_filter in Hjq as [Hclose Hjq]. simpl in *.
  apply elem_of_lookup_imap_1 in Hjq as (j' & q' & Heq & Hq).
  injection Heq as -> ->. rename j' into j, q' into q.
  destruct (np_getitem next (Z.of_nat j)) as [v|] eqn:Hv; simpl; [|done].
  intros; simplify_eq.
  apply np_getitem_Ok in Hv as (k & Hk & Hv). apply np_index_nat in Hk as ->.
  pose proof (Forall2_lookup_lr _ _ _ _ _ _ Hnext Hv Hq) as Hpv.
  destruct (add_edge_existing G3 u v) as [Hn4 He4].
  { destruct Hpu as (a & Ha & _). unfold node_attrs in *. rewrite Hn3. by rewrite Ha. }
  { destruct Hpv as (a & Ha & _). unfold node_attrs in *. rewrite Hn3. by rewrite Ha. }
  split; [congruence|]. intros e [He| ->]%He4; [by apply He3|].
  right. simpl. split_and!.
  - by eapply list_elem_of_lookup_2.
  - by eapply list_elem_of_lookup_2.
  - by exists p, q.
Qed.

(** One turn of the loop over the frames. *)
Lemma add_cand_edges_step_spec G D d Gc prev ptree frame Gc' prev' ptree' :
  nodes Gc = nodes G → Forall2 (pos_of_node G) prev ptree →
  add_cand_edges_step d D (Gc, prev, ptree) frame = Ok (Gc', prev', ptree') →
  nodes Gc' = nodes G ∧ Forall2 (pos_of_node G) prev' ptree'
  ∧ ((d !! (frame + 1)%Z = None ∧ Gc' = Gc ∧ prev' = prev)
     ∨ (d !! (frame + 1)%Z = Some prev'
        ∧ ∀ e, e ∈ (edges Gc').*1 →
            e ∈ (edges Gc).*1
            ∨ (e.1 ∈ prev ∧ e.2 ∈ prev' ∧ within_distance G D e.1 e.2))).
Proof.
  intros Hnodes Hprev. unfold add_cand_edges_step.
  destruct (d !! (frame + 1)%Z) as [next|] eqn:Hd.
  - destruct (create_kdtree Gc next) as [ntree|] eqn:Hk; simpl; [|done].
    assert (Hnext : Forall2 (pos_of_node G) next ntree).
    { apply create_kdtree_spec in Hk. eapply Forall2_impl; [exact Hk|].
      intros n p. unfold pos_of_node, node_attrs. by rewrite Hnodes. }
    destruct (for_each _ _ Gc) as [G2|] eqn:Hloop; simpl; [|done].
    intros; simplify_eq.
    destruct (link_frames_spec _ _ _ _ _ _ _ _ Hnodes Hprev Hnext Hloop) as [Hn2 He2].
    split; [done|]. split; [done|]. right. by split.
  - intros; simplify_eq. split; [done|]. split; [done|]. left. by split.
Qed.

(** The frame dictionary lists nodes under their own frame. *)
Lemma _compute_node_frame_dict_spec G d :
  _compute_node_frame_dict G = Ok d →
  ∀ t ids n, d !! t = Some ids → n ∈ ids →
    ∃ a, (n, a) ∈ nodes G ∧ a !! "t" = Some (VInt t).
Proof.
  intros Hrun.
  refine (for_each_inv _
    (λ d : gmap Z (list Z), ∀ t ids n, d !! t = Some ids → n ∈ ids →
       ∃ a, (n, a) ∈ nodes G ∧ a !! "t" = Some (VInt t)) _ _ _ _ _ Hrun).
  - intros t ids n Hl. by rewrite lookup_empty in Hl.
  - intros d1 [node data] d2 Hin Hd1. unfold getitem.
    destruct (data !! "t") as [[t0| |]|] eqn:Ht; simpl; try done.
    intros Hd2 t ids n Hl Hn. simplify_eq.
    set (d' := if bool_decide (is_Some (d1 !! t0)) then d1 else <[t0 := []]> d1) in *.
    assert (Hold : ∀ m, m ∈ default [] (d' !! t0) →
              ∃ a, (m, a) ∈ nodes G ∧ a !! "t" = Some (VInt t0)).
    { intros m Hm. unfold d' in Hm. case_bool_decide as Hsome.
      - destruct Hsome as [ids0 Hids0]. rewrite Hids0 in Hm. by eapply Hd1.
      - rewrite lookup_insert_eq in Hm. by apply elem_of_nil in Hm. }
    destruct (decide (t0 = t)) as [->|Hne].
    + rewrite lookup_insert_eq in Hl. simplify_eq.
      apply elem_of_app in Hn as [Hn| ->%list_elem_of_singleton]; [by apply Hold|].
      by exists data.
    + rewrite lookup_insert_ne in Hl by done.
      unfold d' in Hl. case_bool_decide; [by eapply Hd1|].
      rewrite lookup_insert_ne in Hl by done. by eapply Hd1.
Qed.

(** X1. Every edge made by [add_cand_edges] joins two nodes in each
    other's ball as the tree measures it: the squared distance of their
    positions, computed in binary64, is at most [max_edge_distance]
    squared, so that a negative [max_edge_distance] links like its
    absolute value.  The nodes of the graph are as before. *)
Theorem add_cand_edges_within_distance (cand_graph G' : DiGraph) (max_edge_distance : float) :
  add_cand_edges cand_graph max_edge_distance = Ok G' →
  nodes G' = nodes cand_graph
  ∧ ∀ u v, (u, v) ∈ (edges G').*1 →
      (u, v) ∈ (edges cand_graph).*1
      ∨ within_distance cand_graph max_edge_distance u v.
Proof.
  unfold add_cand_edges.
  destruct (_compute_node_frame_dict cand_graph) as [d|]; simpl; [|done].
  destruct (np_getitem _ 0) as [frame0|]; simpl; [|done].
  destruct (frames_getitem d frame0) as [prev0|]; simpl; [|done].
  destruct (create_kdtree cand_graph prev0) as [ptree0|] eqn:Hk; simpl; [|done].
  destruct (for_each _ _ _) as [[[Gc prev] ptree]|] eqn:Hloop; simpl; [|done].
  intros; simplify_eq.
  cut (nodes G' = nodes cand_graph ∧ Forall2 (pos_of_node cand_graph) prev ptree
       ∧ ∀ e, e ∈ (edges G').*1 →
           e ∈ (edges cand_graph).*1
           ∨ within_distance cand_graph max_edge_distance e.1 e.2).
  { intros (Hn & _ & He). split; [done|]. intros u v Huv. by apply (He (u, v)). }
  refine (for_each_inv _
    (λ st : DiGraph * list Z * list (float * float),
       nodes st.1.1 = nodes cand_graph
       ∧ Forall2 (pos_of_node cand_graph) st.1.2 st.2
       ∧ ∀ e, e ∈ (edges st.1.1).*1 →
           e ∈ (edges cand_graph).*1
           ∨ within_distance cand_graph max_edge_distance e.1 e.2)
    _ _ (G', prev, ptree) _ _ Hloop).
  - split; [done|]. split; [by apply create_kdtree_spec|]. by left.
  - intros [[G1 prev1] ptree1] frame [[G2 prev2] ptree2] _ (Hn1 & Hp1 & He1) Hstep.
    simpl in *.
    destruct (add_cand_edges_step_spec _ _ _ _ _ _ _ _ _ _ Hn1 Hp1 Hstep)
      as (Hn2 & Hp2 & [(_ & -> & ->)|[_ He2]]); [done|].
    split; [done|]. split; [done|].
    intros e [He|(_ & _ & He)]%He2; [by apply He1 | by right].
Qed.

(** The ball is measured on squares.  The distance of the two detections
    of [boundary_fixture] rounds to 5, but its square is above 25 and
    they are not linked at the distance 5. *)
Example add_cand_edges_boundary_pair :
  PrimFloat.leb (distance (0, 0)%float (0x1.8000000000001p+1, 4)%float) 5 = true
  ∧ add_cand_edges boundary_fixture 5 = Ok boundary_fixture.
Proof. split; vm_compute; reflexivity. Qed.

(** A negative distance links what its absolute value links. *)
Example add_cand_edges_negative_distance :
  (λ G, (edges G).*1) <$> add_cand_edges ring_fixture (-5) = Ok [(1, 2); (1, 3)]%Z
  ∧ add_cand_edges ring_fixture (-5) = add_cand_edges ring_fixture 5.
Proof. split; vm_compute; reflexivity. Qed.

Lemma frames_present_keys (d : gmap Z (list Z)) f :
  f ∈ merge_sort Z.le (map_to_list d).*1 → is_Some (d !! f).
Proof.
  rewrite merge_sort_Permutation.
  intros ([f' ids] & -> & Hin)%list_elem_of_fmap.
  apply elem_of_map_to_list in Hin. by exists ids.
Qed.

(** X2. When the frames that hold nodes are consecutive integers, every
    edge made by [add_cand_edges] goes from a node of some frame [t] to a
    node of frame [t + 1]. *)
Theorem add_cand_edges_adjacent (cand_graph G' : DiGraph) (max_edge_distance : float) :
  NoDup (nodes cand_graph).*1 →
  (∀ d, _compute_node_frame_dict cand_graph = Ok d →
        no_gap (merge_sort Z.le (map_to_list d).*1)) →
  add_cand_edges cand_graph max_edge_distance = Ok G' →
  ∀ u v, (u, v) ∈ (edges G').*1 →
    (u, v) ∈ (edges cand_graph).*1
    ∨ ∃ t, frame_of cand_graph u = Some t ∧ frame_of cand_graph v = Some (t + 1)%Z.
Proof.
  intros Hnd Hgap. unfold add_cand_edges.
  destruct (_compute_node_frame_dict cand_graph) as [d|] eqn:Hd; simpl; [|done].
  specialize (Hgap d eq_refl).
  pose proof (_compute_node_frame_dict_spec _ _ Hd) as Hdict.
  set (frames := merge_sort Z.le (map_to_list d).*1) in *.
  destruct (np_getitem frames 0) as [frame0|] eqn:Hf0; simpl; [|done].
  destruct (frames_getitem d frame0) as [prev0|] eqn:Hp0; simpl; [|done].
  destruct (create_kdtree cand_graph prev0) as [ptree0|] eqn:Hk; simpl; [|done].
  destruct (for_each _ _ _) as [[[Gc prev] ptree]|] eqn:Hloop; simpl; [|done].
  intros [= ->].
  assert (Hframe : ∀ f ids n, d !! f = Some ids → n ∈ ids → frame_of cand_graph n = Some f).
  { intros f ids n Hf Hn. destruct (Hdict f ids n Hf Hn) as (a & Ha & Ht).
    unfold frame_of, node_attrs. rewrite (alist_lookup_in_NoDup n a) by done.
    simpl. by rewrite Ht. }
  pose (I := λ (l1 : list Z) (st : DiGraph * list Z * list (float * float)),
     nodes st.1.1 = nodes cand_graph
     ∧ Forall2 (pos_of_node cand_graph) st.1.2 st.2
     ∧ (∀ a l2, frames = (l1 ++ a :: l2)%list → d !! a = Some st.1.2)
     ∧ ∀ e, e ∈ (edges st.1.1).*1 →
         e ∈ (edges cand_graph).*1
         ∨ ∃ f ids ids', d !! f = Some ids ∧ d !! (f + 1)%Z = Some ids'
                         ∧ e.1 ∈ ids ∧ e.2 ∈ ids').
  assert (HI : I frames (G', prev, ptree)).
  { apply (for_each_ind (add_cand_edges_step d max_edge_distance) I frames
             (cand_graph, prev0, ptree0)); [| |done].
    - split; [done|]. split; [by apply create_kdtree_spec|]. split; [|by left].
      intros a l2 Hfr. simpl in *.
      apply np_getitem_Ok in Hf0 as (k & Hk0 & Hf0).
      apply (np_index_nat _ 0) in Hk0 as ->. rewrite Hfr in Hf0. simpl in Hf0.
      simplify_eq. unfold frames_getitem in Hp0.
      destruct (d !! frame0); by simplify_eq.
    - intros l1 a l2 [[G1 prev1] ptree1] [[G2 prev2] ptree2] Hfr
        (Hn1 & Hp1 & Hcur & He1) Hstep. simpl in *.
      specialize (Hcur a l2 Hfr).
      destruct (add_cand_edges_step_spec _ _ _ _ _ _ _ _ _ _ Hn1 Hp1 Hstep)
        as (Hn2 & Hp2 & Hcase).
      split; [done|]. split; [done|].
      assert (Hnext : ∀ a' l2', frames = ((l1 ++ [a]) ++ a' :: l2')%list → a' = (a + 1)%Z).
      { intros a' l2' Hfr'. apply (Hgap (length l1) a a').
        - rewrite Hfr. by apply list_lookup_middle.
        - rewrite Hfr', <- app_assoc. simpl.
          rewrite lookup_app_r by lia.
          by replace (S (length l1) - length l1)%nat with 1%nat by lia. }
      destruct Hcase as [(Hnone & -> & ->)|[Hsome He2]].
      + split; [|done]. intros a' l2' Hfr'.
        rewrite (Hnext a' l2' Hfr') , Hnone.
        destruct (frames_present_keys d (a + 1)%Z) as [ids Hids]; [|congruence].
        fold frames. rewrite Hfr', <- (Hnext a' l2' Hfr').
        apply elem_of_app. right. by left.
      + split.
        { intros a' l2' Hfr'. by rewrite (Hnext a' l2' Hfr'). }
        intros e [He|(Hu & Hv & _)]%He2; [by apply He1|].
        right. by exists a, prev1, prev2. }
  destruct HI as (_ & _ & _ & He).
  intros u v [Huv|(f & ids & ids' & Hf & Hf' & Hu & Hv)]%He; [by left|].
  right. exists f. simpl in *. split; by eapply Hframe.
Qed.

Lemma add_cand_edges_within_distance_witness :
  ∃ G', add_cand_edges chain_fixture 50 = Ok G'
    ∧ nodes G' = nodes chain_fixture
    ∧ ∀ u v, (u, v) ∈ (edges G').*1 →
        (u, v) ∈ (edges chain_fixture).*1 ∨ within_distance chain_fixture 50 u v.
Proof.
  destruct (add_cand_edges chain_fixture 50) as [G'|] eqn:Hrun;
    [|vm_compute in Hrun; discriminate].
  exists G'. split; [done|].
  exact (add_cand_edges_within_distance chain_fixture G' 50 Hrun).
Defined.

Lemma chain_fixture_no_gap d :
  _compute_node_frame_dict chain_fixture = Ok d →
  no_gap (merge_sort Z.le (map_to_list d).*1).
Proof.
  intros Hd. vm_compute in Hd. injection Hd as <-.
  intros [|[|[|i]]] f f' Hf Hf'; vm_compute in Hf, Hf'; by simplify_eq.
Qed.

Lemma add_cand_edges_adjacent_witness :
  ∃ G', add_cand_edges chain_fixture 50 = Ok G'
    ∧ ∀ u v, (u, v) ∈ (edges G').*1 →
        (u, v) ∈ (edges chain_fixture).*1
        ∨ ∃ t, frame_of chain_fixture u = Some t
               ∧ frame_of chain_fixture v = Some (t + 1)%Z.
Proof.
  destruct (add_cand_edges chain_fixture 50) as [G'|] eqn:Hrun;
    [|vm_compute in Hrun; discriminate].
  exists G'. split; [done|].
  apply (add_cand_edges_adjacent chain_fixture G' 50); [|exact chain_fixture_no_gap|exact Hrun].
  refine (bool_decide_unpack _ _). vm_compute. exact I.
Defined.

(** ** The ground-truth annotator *)

Lemma set_node_attr_spec G n k v G' :
  set_node_attr G n k v = Ok G' →
  (nodes G').*1 = (nodes G).*1 ∧ edges G' = edges G
  ∧ ∀ m, node_attrs G' m
         = if decide (n = m) then <[k := v]> <$> node_attrs G m else node_attrs G m.
Proof.
  unfold set_node_attr, nodes_getitem.
  destruct (node_attrs G n); simpl; [|done]. intros; simplify_eq. simpl.
  split; [apply alist_alter_keys|]. split; [done|]. intros m.
  unfold node_attrs. simpl. apply alist_lookup_alter.
Qed.

Lemma set_edge_attr_nodes G e k v G' :
  set_edge_attr G e k v = Ok G' →
  nodes G' = nodes G ∧ (edges G').*1 = (edges G).*1.
Proof.
  unfold set_edge_attr, edges_getitem.
  destruct (edge_attrs G e); simpl; [|done]. intros; simplify_eq. simpl.
  split; [done | apply alist_alter_keys].
Qed.

Lemma gt_true_fmap_false (o : option (gmap string value)) : gt_true false <$> o = o.
Proof. by destruct o. Qed.

Lemma gt_true_orb b1 b2 a : gt_true b2 (gt_true b1 a) = gt_true (b1 || b2) a.
Proof. destruct b1, b2; simpl; try done. apply insert_insert_eq. Qed.

Lemma annotate_gt_node_spec gt_tracks segmentation G g G' :
  annotate_gt_node gt_tracks segmentation G g = Ok G' →
  ∃ c, get_cand_id g gt_tracks segmentation = Ok c
    ∧ (nodes G').*1 = (nodes G).*1 ∧ (edges G').*1 = (edges G).*1
    ∧ ∀ m, node_attrs G' m
           = gt_true (bool_decide (c = m ∧ m ≠ 0%Z)) <$> node_attrs G m.
Proof.
  unfold annotate_gt_node.
  destruct (get_cand_id g gt_tracks segmentation) as [c|]; simpl; [|done].
  destruct (bool_decide_reflect (c ≠ 0%Z)) as [Hc|Hc]; simpl.
  - destruct (has_node G c) eqn:Hhas.
    + destruct (set_node_attr G c "gt" (VBool true)) as [G1|] eqn:Hset; simpl; [|done].
      destruct (list_comp _ _) as [matches|]; simpl; [|done].
      intros Hloop. exists c. split; [done|].
      apply set_node_attr_spec in Hset as (Hk1 & He1 & Hl1).
      assert (Hkeep : nodes G' = nodes G1 ∧ (edges G').*1 = (edges G1).*1).
      { refine (for_each_inv _ (λ Gx, nodes Gx = nodes G1 ∧ (edges Gx).*1 = (edges G1).*1)
                  _ _ _ _ _ Hloop); [done|].
        intros Gx succ Gy _ [Hn He] (Hn' & He')%set_edge_attr_nodes.
        split; congruence. }
      destruct Hkeep as [Hn He]. split; [by rewrite Hn|]. split; [by rewrite He, He1|].
      intros m. unfold node_attrs at 1. rewrite Hn. fold (node_attrs G1 m). rewrite Hl1.
      destruct (decide (c = m)) as [->|Hne].
      * by rewrite bool_decide_eq_true_2.
      * rewrite bool_decide_eq_false_2 by tauto. by rewrite gt_true_fmap_false.
    + intros [= <-]. exists c. split; [done|]. split; [done|]. split; [done|].
      intros m. case_bool_decide as Hm; [|by rewrite gt_true_fmap_false].
      destruct Hm as [-> _].
      assert (node_attrs G m = None) as ->; [|done].
      apply eq_None_not_Some. rewrite <- has_node_is_Some. by rewrite Hhas.
  - intros [= <-]. exists c. split; [done|]. split; [done|]. split; [done|].
    intros m. rewrite bool_decide_eq_false_2; [by rewrite gt_true_fmap_false|].
    intros [-> ?]. tauto.
Qed.

Lemma matched_by_snoc gt_tracks segmentation gs g c m :
  get_cand_id g gt_tracks segmentation = Ok c →
  matched_by gt_tracks segmentation (gs ++ [g]) m
  = matched_by gt_tracks segmentation gs m || bool_decide (c = m ∧ m ≠ 0%Z).
Proof.
  intros Hc. unfold matched_by. rewrite existsb_app. simpl. rewrite Hc.
  by rewrite orb_false_r.
Qed.

Lemma matched_by_true gt_tracks segmentation gs m :
  matched_by gt_tracks segmentation gs m = true
  ↔ ∃ g, g ∈ gs ∧ get_cand_id g gt_tracks segmentation = Ok m ∧ m ≠ 0%Z.
Proof.
  unfold matched_by. rewrite existsb_exists. split.
  - intros (g & Hg%list_elem_of_In & Hm).
    destruct (get_cand_id g gt_tracks segmentation) as [c|] eqn:Hc; [|done].
    apply bool_decide_eq_true in Hm as [-> ?]. by exists g.
  - intros (g & Hg%list_elem_of_In & Hc & Hm). exists g. split; [done|].
    rewrite Hc. by apply bool_decide_eq_true.
Qed.

Lemma default_gt_node_spec G n G' :
  default_gt_node G n = Ok G' →
  (nodes G').*1 = (nodes G).*1 ∧ edges G' = edges G
  ∧ ∀ m, node_attrs G' m
         = if decide (n = m) then gt_default <$> node_attrs G m else node_attrs G m.
Proof.
  unfold default_gt_node, nodes_getitem.
  destruct (node_attrs G n) as [data|] eqn:Hdata; simpl; [|done].
  destruct (bool_decide_reflect (is_Some (data !! "gt"))) as [Hgt|Hgt].
  - intros; simplify_eq. split; [done|]. split; [done|]. intros m.
    destruct (decide (n = m)) as [->|]; [|done]. rewrite Hdata. simpl.
    unfold gt_default. by rewrite bool_decide_eq_true_2.
  - intros (Hk & He & Hl)%set_node_attr_spec. split; [done|]. split; [done|].
    intros m. rewrite Hl. destruct (decide (n = m)) as [->|]; [|done].
    rewrite Hdata. simpl. unfold gt_default. by rewrite bool_decide_eq_false_2.
Qed.

Lemma gt_default_idemp a : gt_default (gt_default a) = gt_default a.
Proof.
  unfold gt_default. destruct (bool_decide (is_Some (a !! "gt"))) eqn:Hgt.
  - by rewrite Hgt.
  - rewrite bool_decide_eq_true_2; [done|]. rewrite lookup_insert_eq. by eexists.
Qed.

(** The two loops of the annotator, on the attributes of the candidates. *)
Lemma add_gt_annotations_lookup gt_tracks cand_graph segmentation G' :
  add_gt_annotations gt_tracks cand_graph segmentation = Ok G' →
  (nodes G').*1 = (nodes cand_graph).*1 ∧ (edges G').*1 = (edges cand_graph).*1
  ∧ ∀ m, node_attrs G' m
         = (λ a, gt_default
                   (gt_true (matched_by gt_tracks segmentation (nodes gt_tracks).*1 m) a))
           <$> node_attrs cand_graph m.
Proof.
  unfold add_gt_annotations.
  destruct (for_each _ (nodes gt_tracks).*1 cand_graph) as [G1|] eqn:Hloop1; simpl; [|done].
  intros Hloop2.
  assert (H1 : (nodes G1).*1 = (nodes cand_graph).*1
               ∧ (edges G1).*1 = (edges cand_graph).*1
               ∧ ∀ m, node_attrs G1 m
                      = gt_true (matched_by gt_tracks segmentation (nodes gt_tracks).*1 m)
                        <$> node_attrs cand_graph m).
  { apply (for_each_ind (annotate_gt_node gt_tracks segmentation)
      (λ l1 Gx, (nodes Gx).*1 = (nodes cand_graph).*1
                ∧ (edges Gx).*1 = (edges cand_graph).*1
                ∧ ∀ m, node_attrs Gx m
                       = gt_true (matched_by gt_tracks segmentation l1 m)
                         <$> node_attrs cand_graph m)
      (nodes gt_tracks).*1 cand_graph G1); [| |done].
    - split; [done|]. split; [done|]. intros m. simpl. by rewrite gt_true_fmap_false.
    - intros l1 g l2 Gx Gy _ (Hk & He & Hl) (c & Hc & Hk2 & He2 & Hl2)%annotate_gt_node_spec.
      split; [congruence|]. split; [congruence|]. intros m.
      rewrite Hl2, Hl, (matched_by_snoc _ _ _ _ c) by done.
      destruct (node_attrs cand_graph m); simpl; [|done]. by rewrite gt_true_orb. }
  destruct H1 as (Hk1 & He1 & Hl1).
  pose (I := λ (l1 : list Z) (Gx : DiGraph),
          (nodes Gx).*1 = (nodes G1).*1 ∧ edges Gx = edges G1
          ∧ ∀ m, node_attrs Gx m
                 = if decide (m ∈ l1) then gt_default <$> node_attrs G1 m
                   else node_attrs G1 m).
  assert (H2 : I (nodes G1).*1 G').
  { apply (for_each_ind default_gt_node I (nodes G1).*1 G1 G'); [| |done]; unfold I.
    - split; [done|]. split; [done|]. intros m.
      by rewrite decide_False by apply not_elem_of_nil.
    - intros l1 n l2 Gx Gy _ (Hk & He & Hl) (Hk2 & He2 & Hl2)%default_gt_node_spec.
      split; [congruence|]. split; [congruence|]. intros m. rewrite Hl2, Hl.
      destruct (decide (n = m)) as [->|Hne].
      + rewrite (decide_True (P := m ∈ (l1 ++ [m])%list))
          by (apply elem_of_app; right; by left).
        destruct (decide (m ∈ l1)); [|done].
        destruct (node_attrs G1 m); simpl; [|done]. by rewrite gt_default_idemp.
      + destruct (decide (m ∈ l1)) as [Hin|Hin].
        * rewrite decide_True; [done | apply elem_of_app; by left].
        * rewrite decide_False; [done|].
          intros [?| ->%list_elem_of_singleton]%elem_of_app; done. }
  destruct H2 as (Hk2 & He2 & Hl2).
  split; [congruence|]. split; [congruence|]. intros m. rewrite Hl2, Hl1.
  destruct (node_attrs cand_graph m) eqn:Hm; simpl.
  - rewrite decide_True; [done|]. rewrite Hk1. apply alist_lookup_is_Some.
    unfold node_attrs in Hm. by rewrite Hm.
  - by destruct (decide _).
Qed.

(** X3. After the annotation of candidates that carry no [gt] yet, every
    candidate node has a boolean [gt]: it is [True] exactly when the
    lookup of some ground-truth node returns the id of the candidate (and
    that id is not 0), and [False] otherwise; no other node attribute
    changes, and nodes and edges are the same. *)
Theorem add_gt_annotations_spec (gt_tracks cand_graph G' : DiGraph)
    (segmentation : ndarray3) :
  (∀ c a, node_attrs cand_graph c = Some a → a !! "gt" = None) →
  add_gt_annotations gt_tracks cand_graph segmentation = Ok G' →
  (nodes G').*1 = (nodes cand_graph).*1 ∧ (edges G').*1 = (edges cand_graph).*1
  ∧ ∀ c a, node_attrs cand_graph c = Some a →
      ∃ a' b, node_attrs G' c = Some a' ∧ a' !! "gt" = Some (VBool b)
        ∧ (b = true ↔ ∃ g, g ∈ (nodes gt_tracks).*1
                          ∧ get_cand_id g gt_tracks segmentation = Ok c ∧ c ≠ 0%Z)
        ∧ ∀ k, k ≠ "gt" → a' !! k = a !! k.
Proof.
  intros Hfresh (Hk & He & Hl)%add_gt_annotations_lookup.
  split; [done|]. split; [done|]. intros c a Ha.
  eexists _, (matched_by gt_tracks segmentation (nodes gt_tracks).*1 c).
  rewrite Hl, Ha. simpl. split; [done|].
  split; [|split; [apply matched_by_true|]].
  - unfold gt_true, gt_default. destruct (matched_by _ _ _ _).
    + rewrite bool_decide_eq_true_2 by (rewrite lookup_insert_eq; by eexists).
      apply lookup_insert_eq.
    + rewrite bool_decide_eq_false_2.
      * apply lookup_insert_eq.
      * rewrite (Hfresh c a Ha). by intros [? ?].
  - intros k Hne. unfold gt_true, gt_default.
    destruct (matched_by _ _ _ _); case_bool_decide;
      rewrite ?lookup_insert_ne by done; done.
Qed.

Lemma add_gt_annotations_witness :
  ∃ G', add_gt_annotations annotator_gt annotator_cand lookup_fixture_seg = Ok G'
    ∧ (nodes G').*1 = (nodes annotator_cand).*1
    ∧ (edges G').*1 = (edges annotator_cand).*1
    ∧ ∀ c a, node_attrs annotator_cand c = Some a →
        ∃ a' b, node_attrs G' c = Some a' ∧ a' !! "gt" = Some (VBool b)
          ∧ (b = true ↔ ∃ g, g ∈ (nodes annotator_gt).*1
                ∧ get_cand_id g annotator_gt lookup_fixture_seg = Ok c ∧ c ≠ 0%Z)
          ∧ ∀ k, k ≠ "gt" → a' !! k = a !! k.
Proof.
  destruct (add_gt_annotations annotator_gt annotator_cand lookup_fixture_seg)
    as [G'|] eqn:Hrun; [|vm_compute in Hrun; discriminate].
  exists G'. split; [done|].
  apply (add_gt_annotations_spec annotator_gt annotator_cand G' lookup_fixture_seg);
    [|exact Hrun].
  intros c a. unfold node_attrs, annotator_cand. simpl.
  repeat case_decide; intros; simplify_eq; reflexivity.
Defined.

(** ** The ground-truth loader: the graph as a whole *)

Lemma has_node_true G n : has_node G n = true ↔ n ∈ (nodes G).*1.
Proof. apply bool_decide_eq_true. Qed.

Lemma has_node_false G n : has_node G n = false ↔ n ∉ (nodes G).*1.
Proof. apply bool_decide_eq_false. Qed.

Lemma add_node_keys G n a :
  (nodes (add_node G n a)).*1
  = (if has_node G n then (nodes G).*1 else (nodes G).*1 ++ [n])%list
  ∧ edges (add_node G n a) = edges G.
Proof.
  unfold add_node. destruct (has_node G n); simpl.
  - split; [apply alist_alter_keys | done].
  - split; [|done]. by rewrite fmap_app.
Qed.

Lemma add_edge_keys G u v :
  (nodes (add_edge G u v)).*1
  = ((nodes G).*1 ++ (if has_node G u then [] else [u])
     ++ (if bool_decide (v ∈ (nodes G).*1 ∨ v = u) then [] else [v]))%list
  ∧ edges (add_edge G u v)
    ≡ₚ (edges G ++ (if bool_decide ((u, v) ∈ (edges G).*1) then [] else [((u, v), ∅)]))%list.
Proof.
  unfold add_edge.
  set (G1 := if has_node G u then G else _).
  assert (H1 : (nodes G1).*1 = ((nodes G).*1 ++ (if has_node G u then [] else [u]))%list
               ∧ edges G1 = edges G).
  { unfold G1. destruct (has_node G u); simpl; [by rewrite app_nil_r|].
    by rewrite fmap_app. }
  destruct H1 as [Hn1 He1]. clearbody G1.
  set (G2 := if has_node G1 v then G1 else _).
  assert (H2 : (nodes G2).*1
               = ((nodes G).*1 ++ (if has_node G u then [] else [u])
                  ++ (if bool_decide (v ∈ (nodes G).*1 ∨ v = u) then [] else [v]))%list
               ∧ edges G2 = edges G).
  { assert (Hiff : v ∈ (nodes G1).*1 ↔ v ∈ (nodes G).*1 ∨ v = u).
    { rewrite Hn1, elem_of_app. destruct (has_node G u) eqn:Hu.
      - apply has_node_true in Hu. rewrite elem_of_nil.
        split; [tauto|]. intros [?| ->]; tauto.
      - rewrite list_elem_of_singleton. tauto. }
    unfold G2. destruct (has_node G1 v) eqn:Hv1; (split; [|exact He1]).
    - apply has_node_true in Hv1. rewrite bool_decide_eq_true_2 by tauto.
      by rewrite app_nil_r.
    - rewrite bool_decide_eq_false_2.
      + simpl. by rewrite fmap_app, Hn1, <- app_assoc.
      + intros Hv%Hiff. by apply has_node_false in Hv1. }
  destruct H2 as [Hn2 He2]. clearbody G2. rewrite He2.
  destruct (bool_decide ((u, v) ∈ (edges G).*1)); simpl;
    (split; [exact Hn2|]); rewrite ?He2, ?app_nil_r; [done|].
  rewrite insert_edge_Permutation. by rewrite Permutation_cons_append.
Qed.

Lemma add_edge_sublist G u v : edges G `sublist_of` edges (add_edge G u v).
Proof.
  unfold add_edge.
  set (G1 := if has_node G u then G else _).
  assert (He1 : edges G1 = edges G) by (unfold G1; by destruct (has_node G u)).
  clearbody G1.
  set (G2 := if has_node G1 v then G1 else _).
  assert (He2 : edges G2 = edges G) by (unfold G2; by destruct (has_node G1 v)).
  clearbody G2. rewrite He2.
  destruct (bool_decide ((u, v) ∈ (edges G).*1)); simpl; rewrite ?He2; [done|].
  apply insert_edge_sublist.
Qed.

Lemma add_edge_edges_elem G u v e a :
  (e, a) ∈ edges (add_edge G u v) →
  (e, a) ∈ edges G ∨ ((e ∉ (edges G).*1) ∧ a = ∅).
Proof.
  rewrite (proj2 (add_edge_keys G u v)), elem_of_app.
  intros [?|Hnew]; [by left|]. case_bool_decide as Huv; simpl in Hnew.
  - by apply elem_of_nil in Hnew.
  - apply list_elem_of_singleton in Hnew. simplify_eq. by right.
Qed.

Lemma add_edge_nodes_iff G u v n :
  n ∈ (nodes (add_edge G u v)).*1 ↔ n ∈ (nodes G).*1 ∨ n = u ∨ n = v.
Proof.
  rewrite (proj1 (add_edge_keys G u v)), !elem_of_app.
  destruct (has_node G u) eqn:Hu;
    [apply has_node_true in Hu | apply has_node_false in Hu];
    case_bool_decide as Hv; rewrite ?list_elem_of_singleton, ?elem_of_nil.
  - split; [tauto|]. intros [?|[->| ->]]; [tauto..|]. destruct Hv as [?| ->]; tauto.
  - split; [tauto|]. intros [?|[->| ->]]; tauto.
  - split; [tauto|]. intros [?|[->| ->]]; [tauto..|]. destruct Hv as [?| ->]; tauto.
  - tauto.
Qed.

Lemma add_edge_edges_iff G u v e :
  e ∈ (edges (add_edge G u v)).*1 ↔ e ∈ (edges G).*1 ∨ e = (u, v).
Proof.
  rewrite (proj2 (add_edge_keys G u v)), fmap_app, elem_of_app.
  case_bool_decide as Huv; simpl.
  - rewrite elem_of_nil. split; [tauto|]. intros [?| ->]; tauto.
  - by rewrite list_elem_of_singleton.
Qed.

Lemma add_edge_NoDup G u v :
  NoDup (nodes G).*1 → NoDup (edges G).*1 →
  NoDup (nodes (add_edge G u v)).*1 ∧ NoDup (edges (add_edge G u v)).*1.
Proof.
  intros Hn He. destruct (add_edge_keys G u v) as [-> Hes]. rewrite Hes.
  clear Hes. split.
  - apply NoDup_app. split; [done|]. split.
    + intros x Hx. destruct (has_node G u) eqn:Hu.
      * case_bool_decide as Hv; simpl; [apply not_elem_of_nil|].
        intros ->%list_elem_of_singleton. tauto.
      * assert (u ∉ (nodes G).*1) as Hu' by (by apply has_node_false).
        case_bool_decide as Hv; simpl.
        -- intros ->%list_elem_of_singleton. done.
        -- intros [->| ->%list_elem_of_singleton]%elem_of_cons; tauto.
    + destruct (has_node G u); case_bool_decide as Hv; simpl;
        repeat constructor; try apply not_elem_of_nil.
      intros ->%list_elem_of_singleton. tauto.
  - rewrite fmap_app. apply NoDup_app. split; [done|]. split.
    + intros x Hx. case_bool_decide; simpl; [apply not_elem_of_nil|].
      by intros ->%list_elem_of_singleton.
    + case_bool_decide; simpl; repeat constructor; apply not_elem_of_nil.
Qed.

Lemma add_node_NoDup G n a :
  NoDup (nodes G).*1 → NoDup (nodes (add_node G n a)).*1.
Proof.
  intros Hn. rewrite (proj1 (add_node_keys G n a)).
  destruct (has_node G n) eqn:Hh; [done|].
  apply NoDup_app. split; [done|]. split; [|repeat constructor; apply not_elem_of_nil].
  intros x Hx ->%list_elem_of_singleton. by apply has_node_false in Hh.
Qed.

Lemma add_node_nodes_iff G n a m :
  m ∈ (nodes (add_node G n a)).*1 ↔ m ∈ (nodes G).*1 ∨ m = n.
Proof.
  rewrite (proj1 (add_node_keys G n a)). destruct (has_node G n) eqn:Hh.
  - apply has_node_true in Hh. split; [tauto|]. intros [?| ->]; done.
  - by rewrite elem_of_app, list_elem_of_singleton.
Qed.

Section read_gt_tracks_graph.
Variable py_int_of_str : string → res Z.
Variable py_float_of_str : string → res float.
Let parse := parse_gt_row py_int_of_str py_float_of_str.
Let step := read_gt_row py_int_of_str py_float_of_str.

(** The nodes and the edges after a turn of the loop. *)
Lemma read_gt_row_graph G row n a p :
  parse row = Ok (n, a, p) →
  ∃ G', step G row = Ok G'
    ∧ (NoDup (nodes G).*1 → NoDup (edges G).*1 →
       NoDup (nodes G').*1 ∧ NoDup (edges G').*1)
    ∧ (∀ m, m ∈ (nodes G').*1 ↔ m ∈ (nodes G).*1 ∨ m = n ∨ (p ≠ (-1)%Z ∧ m = p))
    ∧ (∀ e, e ∈ (edges G').*1 ↔ e ∈ (edges G).*1 ∨ (p ≠ (-1)%Z ∧ e = (p, n))).
Proof.
  intros Hrow. unfold step, read_gt_row. fold parse. rewrite Hrow. simpl.
  eexists. split; [done|].
  destruct (bool_decide_reflect (p ≠ (-1)%Z)) as [Hp|Hp].
  - split_and!.
    + intros Hn He. apply add_edge_NoDup; [by apply add_node_NoDup|].
      by rewrite (proj2 (add_node_keys G n a)).
    + intros m. rewrite add_edge_nodes_iff, add_node_nodes_iff. tauto.
    + intros e. rewrite add_edge_edges_iff, (proj2 (add_node_keys G n a)). tauto.
  - split_and!.
    + intros Hn He. split; [by apply add_node_NoDup|].
      by rewrite (proj2 (add_node_keys G n a)).
    + intros m. rewrite add_node_nodes_iff. tauto.
    + intros e. rewrite (proj2 (add_node_keys G n a)). tauto.
Qed.

Lemma parent_ids_snoc parsed n a p m :
  m ∈ parent_ids (parsed ++ [(n, a, p)]) ↔ m ∈ parent_ids parsed ∨ (p ≠ (-1)%Z ∧ m = p).
Proof.
  unfold parent_ids. rewrite fmap_app, filter_app, elem_of_app. simpl.
  rewrite filter_cons, filter_nil. simpl.
  destruct (decide (p ≠ (-1)%Z)); rewrite ?list_elem_of_singleton, ?elem_of_nil; tauto.
Qed.

Lemma parent_links_snoc parsed n a p e :
  e ∈ parent_links (parsed ++ [(n, a, p)])
  ↔ e ∈ parent_links parsed ∨ (p ≠ (-1)%Z ∧ e = (p, n)).
Proof.
  unfold parent_links. rewrite filter_app, fmap_app, elem_of_app.
  rewrite filter_cons, filter_nil. simpl.
  destruct (decide (p ≠ (-1)%Z)); simpl;
    rewrite ?list_elem_of_singleton, ?elem_of_nil; tauto.
Qed.

(** The attributes of the nodes after a turn of the loop. *)
Lemma read_gt_row_lookup G row G' n a p :
  parse row = Ok (n, a, p) → step G row = Ok G' →
  ∀ m, node_attrs G' m
       = if decide (n = m)
         then Some (match node_attrs G n with Some old => a ∪ old | None => a end)
         else match node_attrs G m with
              | Some b => Some b
              | None => if decide (p ≠ (-1)%Z ∧ p = m) then Some ∅ else None
              end.
Proof.
  intros Hrow. unfold step, read_gt_row. fold parse. rewrite Hrow. simpl.
  intros [= <-] m.
  destruct (bool_decide_reflect (p ≠ (-1)%Z)) as [Hp|Hp].
  - rewrite node_attrs_add_edge, node_attrs_add_node.
    destruct (decide (n = m)) as [->|Hne]; [done|].
    destruct (node_attrs G m); [done|].
    destruct (decide (p = m ∨ n = m)) as [[->|?]|Hno].
    + by rewrite decide_True.
    + done.
    + rewrite decide_False; [done | tauto].
  - rewrite node_attrs_add_node. destruct (decide (n = m)); [done|].
    destruct (node_attrs G m); [done|]. rewrite decide_False; [done | tauto].
Qed.

Lemma parse_gt_row_row_attrs row n a p : parse row = Ok (n, a, p) → row_attrs a.
Proof.
  intros Hrow. destruct (parse_gt_row_attrs _ _ _ _ _ _ Hrow) as [Hplain _].
  apply parse_gt_row_shape in Hrow as (x & y & t & ->).
  exists t, x, y. split_and!; done.
Qed.

Lemma read_gt_tracks_graph_inv rows : ∀ parsed,
  Forall2 (λ row r, parse row = Ok r) rows parsed →
  ∃ G, for_each step rows empty_graph = Ok G
    ∧ NoDup (nodes G).*1 ∧ NoDup (edges G).*1
    ∧ (∀ m, m ∈ (nodes G).*1 ↔ m ∈ parsed.*1.*1 ∨ m ∈ parent_ids parsed)
    ∧ (∀ e, e ∈ (edges G).*1 ↔ e ∈ parent_links parsed)
    ∧ (∀ m b, node_attrs G m = Some b →
         (m ∈ parsed.*1.*1 ∧ row_attrs b) ∨ ((m ∉ parsed.*1.*1) ∧ b = ∅)).
Proof.
  induction rows as [|row rows IH] using rev_ind; intros parsed Hparsed.
  - apply Forall2_nil_inv_l in Hparsed as ->. exists empty_graph. simpl.
    split; [done|]. split; [constructor|]. split; [constructor|].
    split_and!; [intros x; rewrite ?elem_of_nil; unfold parent_ids, parent_links; simpl;
      rewrite ?elem_of_nil; tauto ..|].
    intros m b. unfold node_attrs. simpl. done.
  - apply Forall2_app_inv_l in Hparsed as (parsed1 & parsed2 & H1 & H2 & ->).
    apply Forall2_cons_inv_l in H2 as ([[n a] p] & ? & Hrow & ->%Forall2_nil_inv_l & ->).
    destruct (IH parsed1 H1) as (G1 & Hrun1 & Hn1 & He1 & Hnodes1 & Hedges1 & Hattrs1).
    destruct (read_gt_row_graph G1 row n a p Hrow) as (G' & Hstep & Hnd & Hnodes & Hedges).
    exists G'. rewrite for_each_app, Hrun1. simpl. fold step. rewrite Hstep.
    split; [done|]. destruct (Hnd Hn1 He1) as [Hn' He']. split; [done|]. split; [done|].
    assert (Hids : ∀ m, m ∈ ((parsed1 ++ [(n, a, p)])%list).*1.*1 ↔ m ∈ parsed1.*1.*1 ∨ m = n).
    { intros m. rewrite !fmap_app, elem_of_app. simpl. by rewrite list_elem_of_singleton. }
    split_and!.
    + intros m. rewrite Hnodes, Hnodes1, parent_ids_snoc, Hids. tauto.
    + intros e. rewrite Hedges, Hedges1, parent_links_snoc. tauto.
    + intros m b. rewrite (read_gt_row_lookup G1 row G' n a p Hrow Hstep), Hids.
      destruct (parse_gt_row_attrs _ _ _ _ _ _ Hrow) as [Hplain Hunion].
      destruct (decide (n = m)) as [->|Hne].
      * intros [= <-]. left. split; [by right|].
        assert (match node_attrs G1 m with Some old => a ∪ old | None => a end = a) as ->.
        { destruct (node_attrs G1 m) as [old|] eqn:Hold; [|done].
          destruct (Hattrs1 m old Hold) as [[_ (t & x & y & _ & _ & _ & Hp)]|[_ ->]].
          - by apply Hunion.
          - apply map_eq. intros k. rewrite lookup_union, lookup_empty.
            by destruct (a !! k). }
        by eapply parse_gt_row_row_attrs.
      * destruct (node_attrs G1 m) as [b1|] eqn:Hm.
        -- intros [= <-]. destruct (Hattrs1 m b1 Hm) as [[? ?]|[? ?]]; [left|right].
           ++ split; [by left | done].
           ++ split; [|done]. intros [?| ->]; done.
        -- destruct (decide _) as [[Hp <-]|]; [|done]. intros [= <-]. right.
           split; [|done]. intros [Hin| ->]; [|done].
           assert (p ∈ (nodes G1).*1) as Hin' by (apply Hnodes1; by left).
           apply alist_lookup_is_Some in Hin'. unfold node_attrs in Hm.
           rewrite Hm in Hin'. by destruct Hin'.
Qed.

End read_gt_tracks_graph.

Lemma indegree_le_1 (es : list (Z * Z)) (v : Z) :
  NoDup es → (∀ u u', (u, v) ∈ es → (u', v) ∈ es → u = u') →
  (indegree_in es v ≤ 1)%nat.
Proof.
  intros Hnd Huniq. unfold indegree_in.
  pose proof (NoDup_filter (λ e : Z * Z, e.2 = v) es Hnd) as Hnd'.
  destruct (filter (λ e : Z * Z, e.2 = v) es) as [|[u1 v1] [|[u2 v2] l]] eqn:Hf;
    simpl; [lia..|].
  assert (H1 : (u1, v1) ∈ filter (λ e : Z * Z, e.2 = v) es) by (rewrite Hf; by left).
  assert (H2 : (u2, v2) ∈ filter (λ e : Z * Z, e.2 = v) es)
    by (rewrite Hf; right; by left).
  apply list_elem_of_filter in H1 as [? H1], H2 as [? H2]. simpl in *. subst.
  rewrite (Huniq u1 u2 H1 H2) in Hnd'. apply NoDup_cons in Hnd' as [Hnotin _].
  destruct Hnotin. by left.
Qed.

Lemma parent_links_NoDup parsed : NoDup parsed.*1.*1 → NoDup (parent_links parsed).
Proof.
  intros Hnd. apply (NoDup_fmap_1 snd). unfold parent_links.
  rewrite <- list_fmap_compose.
  eapply sublist_NoDup; [exact Hnd|].
  rewrite <- list_fmap_compose. apply fmap_sublist, sublist_filter.
Qed.

Lemma parent_links_elem parsed u v :
  (u, v) ∈ parent_links parsed ↔ u ≠ (-1)%Z ∧ ∃ a, (v, a, u) ∈ parsed.
Proof.
  unfold parent_links. rewrite list_elem_of_fmap. split.
  - intros ([[n a] p] & [= -> ->] & [Hp Hin]%list_elem_of_filter). simpl in *. eauto.
  - intros (Hp & a & Hin). exists (v, a, u). split; [done|].
    by apply list_elem_of_filter.
Qed.

(** X4. A table whose rows all convert is read into a graph whose nodes
    are exactly the row ids together with the parent ids other than -1,
    and whose edges are exactly the pairs (parent id, id) of the rows that
    name a parent; no node and no edge is held twice. *)
Theorem read_gt_tracks_nodes_and_edges
    (py_int_of_str : string → res Z) (py_float_of_str : string → res float)
    (rows : list (gmap string string)) (parsed : list (Z * gmap string value * Z)) :
  Forall2 (λ row r, parse_gt_row py_int_of_str py_float_of_str row = Ok r) rows parsed →
  ∃ G, read_gt_tracks py_int_of_str py_float_of_str rows = Ok G
    ∧ NoDup (nodes G).*1 ∧ NoDup (edges G).*1
    ∧ (∀ m, m ∈ (nodes G).*1 ↔ m ∈ parsed.*1.*1 ∨ m ∈ parent_ids parsed)
    ∧ (∀ u v, (u, v) ∈ (edges G).*1 ↔ u ≠ (-1)%Z ∧ ∃ a, (v, a, u) ∈ parsed).
Proof.
  intros Hparsed.
  destruct (read_gt_tracks_graph_inv _ _ rows parsed Hparsed)
    as (G & Hrun & Hn & He & Hnodes & Hedges & _).
  exists G. split; [exact Hrun|]. split; [done|]. split; [done|]. split; [done|].
  intros u v. by rewrite Hedges, parent_links_elem.
Qed.

Lemma read_gt_tracks_nodes_and_edges_witness :
  ∃ G, read_gt_tracks int_of_decimal float_of_decimal dangling_parent_table = Ok G
    ∧ NoDup (nodes G).*1 ∧ NoDup (edges G).*1
    ∧ (∀ m, m ∈ (nodes G).*1 ↔ m ∈ [1; 2; 3]%Z ∨ m ∈ [8; 1]%Z)
    ∧ (∀ u v, (u, v) ∈ (edges G).*1
         ↔ u ≠ (-1)%Z
           ∧ ∃ a, (v, a, u) ∈ [(1, node_data 0 1.5 2.5, -1); (2, node_data 1 4 4, 8);
                               (3, node_data 1 6 2, 1)]%Z).
Proof.
  apply (read_gt_tracks_nodes_and_edges int_of_decimal float_of_decimal
           dangling_parent_table
           [(1, node_data 0 1.5 2.5, -1); (2, node_data 1 4 4, 8);
            (3, node_data 1 6 2, 1)]%Z).
  repeat constructor; vm_compute; reflexivity.
Defined.

(** X5. In the graph read from a table whose rows all convert, the node of
    a row id carries an integer [t] and float [x] and [y] and nothing
    else, while a parent id that is the id of no row is a node without any
    attribute. *)
Theorem read_gt_tracks_node_attributes
    (py_int_of_str : string → res Z) (py_float_of_str : string → res float)
    (rows : list (gmap string string)) (parsed : list (Z * gmap string value * Z)) :
  Forall2 (λ row r, parse_gt_row py_int_of_str py_float_of_str row = Ok r) rows parsed →
  ∃ G, read_gt_tracks py_int_of_str py_float_of_str rows = Ok G
    ∧ (∀ m, m ∈ parsed.*1.*1 → ∃ b, node_attrs G m = Some b ∧ row_attrs b)
    ∧ (∀ m, m ∈ parent_ids parsed → m ∉ parsed.*1.*1 → node_attrs G m = Some ∅).
Proof.
  intros Hparsed.
  destruct (read_gt_tracks_graph_inv _ _ rows parsed Hparsed)
    as (G & Hrun & Hn & He & Hnodes & Hedges & Hattrs).
  exists G. split; [exact Hrun|]. split.
  - intros m Hm. destruct (proj2 (alist_lookup_is_Some m (nodes G))) as [b Hb].
    { apply Hnodes. by left. }
    exists b. split; [done|]. by destruct (Hattrs m b Hb) as [[_ ?]|[? _]].
  - intros m Hm Hnot. destruct (proj2 (alist_lookup_is_Some m (nodes G))) as [b Hb].
    { apply Hnodes. by right. }
    destruct (Hattrs m b Hb) as [[? _]|[_ ->]]; done.
Qed.

Lemma read_gt_tracks_node_attributes_witness :
  ∃ G, read_gt_tracks int_of_decimal float_of_decimal dangling_parent_table = Ok G
    ∧ (∀ m, m ∈ [1; 2; 3]%Z → ∃ b, node_attrs G m = Some b ∧ row_attrs b)
    ∧ (∀ m, m ∈ [8; 1]%Z → m ∉ [1; 2; 3]%Z → node_attrs G m = Some ∅).
Proof.
  apply (read_gt_tracks_node_attributes int_of_decimal float_of_decimal
           dangling_parent_table
           [(1, node_data 0 1.5 2.5, -1); (2, node_data 1 4 4, 8);
            (3, node_data 1 6 2, 1)]%Z).
  repeat constructor; vm_compute; reflexivity.
Defined.

(** X6. When no id comes twice in a table whose rows all convert, every
    node of the graph has at most one incoming edge and the graph has one
    edge for every row that names a parent; when moreover every parent id
    is the id of a row, the graph has one node for every row. *)
Theorem read_gt_tracks_counts
    (py_int_of_str : string → res Z) (py_float_of_str : string → res float)
    (rows : list (gmap string string)) (parsed : list (Z * gmap string value * Z)) :
  Forall2 (λ row r, parse_gt_row py_int_of_str py_float_of_str row = Ok r) rows parsed →
  NoDup parsed.*1.*1 →
  ∃ G, read_gt_tracks py_int_of_str py_float_of_str rows = Ok G
    ∧ (∀ v, (in_degree G v ≤ 1)%nat)
    ∧ length (edges G) = length (filter (λ r, r.2 ≠ (-1)%Z) parsed)
    ∧ ((∀ p, p ∈ parent_ids parsed → p ∈ parsed.*1.*1) →
       length (nodes G) = length rows).
Proof.
  intros Hparsed Hids.
  destruct (read_gt_tracks_graph_inv _ _ rows parsed Hparsed)
    as (G & Hrun & Hn & He & Hnodes & Hedges & _).
  exists G. split; [exact Hrun|]. split_and!.
  - intros v. apply indegree_le_1; [done|].
    intros u u' [_ [a Ha]]%Hedges%parent_links_elem [_ [a' Ha']]%Hedges%parent_links_elem.
    apply list_elem_of_lookup in Ha as [i Hi], Ha' as [j Hj].
    assert (i = j) as ->.
    { eapply NoDup_lookup; [exact Hids| |].
      - by rewrite !list_lookup_fmap, Hi.
      - by rewrite !list_lookup_fmap, Hj. }
    congruence.
  - rewrite <- (length_fmap fst (edges G)).
    rewrite (Permutation_length (NoDup_Permutation _ _ He (parent_links_NoDup _ Hids) Hedges)).
    unfold parent_links. by rewrite length_fmap.
  - intros Hparents. rewrite <- (length_fmap fst (nodes G)).
    rewrite (Permutation_length (NoDup_Permutation _ _ Hn Hids
               (λ m, conj (λ H, match proj1 (Hnodes m) H with
                                | or_introl H1 => H1
                                | or_intror H2 => Hparents m H2
                                end)
                          (λ H, proj2 (Hnodes m) (or_introl H))))).
    rewrite !length_fmap. symmetry. by eapply Forall2_length.
Qed.

Lemma read_gt_tracks_counts_witness :
  ∃ G, read_gt_tracks int_of_decimal float_of_decimal lineage_table = Ok G
    ∧ (∀ v, (in_degree G v ≤ 1)%nat)
    ∧ length (edges G) = 2%nat
    ∧ ((∀ p, p ∈ [1; 1]%Z → p ∈ [1; 2; 3]%Z) → length (nodes G) = 3%nat).
Proof.
  apply (read_gt_tracks_counts int_of_decimal float_of_decimal lineage_table
           [(1, node_data 0 1.5 2.5, -1); (2, node_data 1 4 4, 1);
            (3, node_data 1 6 2, 1)]%Z).
  - repeat constructor; vm_compute; reflexivity.
  - refine (bool_decide_unpack _ _). vm_compute. exact I.
Defined.

(** X7. The read stops at the first row with a field that does not
    convert: it raises the exception of that conversion and returns no
    graph, whatever the rows after it. *)
Theorem read_gt_tracks_first_bad_row
    (py_int_of_str : string → res Z) (py_float_of_str : string → res float)
    (before after : list (gmap string string)) (row : gmap string string) (e : exn) :
  (∀ r, r ∈ before → ∃ parsed, parse_gt_row py_int_of_str py_float_of_str r = Ok parsed) →
  parse_gt_row py_int_of_str py_float_of_str row = Raise e →
  read_gt_tracks py_int_of_str py_float_of_str (before ++ row :: after)%list = Raise e.
Proof.
  intros Hbefore Hrow. unfold read_gt_tracks. rewrite for_each_app.
  destruct (for_each_Ok (read_gt_row py_int_of_str py_float_of_str) (λ _, True)
              before empty_graph I) as (G & -> & _).
  { intros G1 r Hr _. destruct (Hbefore r Hr) as [[[n a] p] Hp].
    destruct (read_gt_row_Ok _ _ G1 r n a p Hp) as [G2 HG2]. by exists G2. }
  change (for_each (read_gt_row py_int_of_str py_float_of_str) (row :: after) G = Raise e).
  cbn [for_each].
  assert (read_gt_row py_int_of_str py_float_of_str G row = Raise e) as ->; [|done].
  unfold read_gt_row. by rewrite Hrow.
Qed.

Lemma read_gt_tracks_first_bad_row_witness :
  read_gt_tracks int_of_decimal float_of_decimal bad_time_table = Raise ValueError.
Proof.
  apply (read_gt_tracks_first_bad_row int_of_decimal float_of_decimal
           [csv_row "1" "0" "1.5" "2.5" "-1"] [csv_row "3" "1" "6" "2" "1"]
           (csv_row "2" "one" "4" "4" "1") ValueError).
  - intros r ->%list_elem_of_singleton. eexists. vm_compute. reflexivity.
  - vm_compute. reflexivity.
Defined.

(** ** Candidate nodes *)

Section nodes_from_segmentation_facts.
Variable regionprops : ndarray2 → list regionprop.

(** The regions of one frame: all of them become nodes when none of their
    labels is a node already or comes twice, and the assertion fails
    otherwise. *)
Lemma add_region_nodes_spec (t : nat) props : ∀ G,
  NoDup (nodes G).*1 →
  for_each (add_region_node (Z.of_nat t)) props G
  = if decide (NoDup ((nodes G).*1 ++ (label <$> props)))
    then Ok (mkDiGraph (nodes G ++ (region_node t <$> props)) (edges G))
    else Raise AssertionError.
Proof.
  induction props as [|rp props IH]; intros G Hnd; cbn [for_each].
  - simpl. destruct (decide _) as [_|Hno].
    + rewrite app_nil_r. by destruct G.
    + destruct Hno. rewrite app_nil_r. exact Hnd.
  - assert (Hstep : add_region_node (Z.of_nat t) G rp
                    = if has_node G (label rp) then Raise AssertionError
                      else Ok (mkDiGraph (nodes G ++ [region_node t rp]) (edges G))).
    { unfold add_region_node, add_node. by destruct (has_node G (label rp)). }
    rewrite Hstep. destruct (has_node G (label rp)) eqn:Hhas; simpl.
    + apply has_node_true in Hhas. rewrite decide_False; [done|].
      intros [_ [Hdis _]]%NoDup_app. apply (Hdis _ Hhas). by left.
    + apply has_node_false in Hhas.
      rewrite IH; simpl.
      * match goal with
        | |- (if decide ?P then _ else _) = (if decide ?Q then _ else _) =>
            assert (P ↔ Q) as Hiff by (by rewrite fmap_app, <- app_assoc);
            destruct (decide P), (decide Q); [|tauto|tauto|done]
        end.
        by rewrite <- app_assoc.
      * rewrite fmap_app. simpl. apply NoDup_app. split; [done|].
        split; [|repeat constructor; apply not_elem_of_nil].
        by intros x Hx ->%list_elem_of_singleton.
Qed.

Lemma region_nodes_snoc (segmentation : ndarray3) (frame : ndarray2) :
  region_nodes regionprops (segmentation ++ [frame])
  = (region_nodes regionprops segmentation
     ++ (region_node (length segmentation) <$> regionprops frame))%list.
Proof.
  unfold region_nodes. rewrite imap_app, concat_app. simpl.
  by rewrite app_nil_r, Nat.add_0_r.
Qed.

Lemma region_nodes_labels (t : nat) props :
  (region_node t <$> props).*1 = label <$> props.
Proof. rewrite <- list_fmap_compose. by apply list_fmap_ext. Qed.

(** The loop over the first [k] frames. *)
Lemma nodes_from_frames_spec (segmentation : ndarray3) (k : nat) :
  (k ≤ length segmentation)%nat →
  for_each (add_frame_nodes regionprops segmentation) (py_range k) empty_graph
  = if decide (NoDup (region_nodes regionprops (take k segmentation)).*1)
    then Ok (mkDiGraph (region_nodes regionprops (take k segmentation)) [])
    else Raise AssertionError.
Proof.
  induction k as [|k IH]; intros Hk.
  - rewrite take_0. unfold region_nodes. by simpl.
  - unfold py_range. rewrite seq_S, fmap_app, for_each_app. fold (py_range k).
    rewrite IH by lia. simpl.
    destruct (lookup_lt_is_Some_2 segmentation k) as [frame Hframe]; [lia|].
    rewrite (take_S_r _ _ _ Hframe), region_nodes_snoc, length_take_le by lia.
    rewrite fmap_app, region_nodes_labels.
    destruct (decide (NoDup (region_nodes regionprops (take k segmentation)).*1))
      as [Hnd|Hnd]; simpl.
    + unfold add_frame_nodes. rewrite (np_getitem_in_range _ _ _ Hframe). simpl.
      rewrite add_region_nodes_spec by done. simpl.
      destruct (decide _); done.
    + rewrite decide_False; [done|]. by intros [? _]%NoDup_app.
Qed.

Lemma nodes_from_segmentation_eq (segmentation : ndarray3) :
  nodes_from_segmentation regionprops segmentation
  = if decide (NoDup (region_nodes regionprops segmentation).*1)
    then Ok (mkDiGraph (region_nodes regionprops segmentation) [])
    else Raise AssertionError.
Proof.
  unfold nodes_from_segmentation. rewrite nodes_from_frames_spec by done.
  by rewrite firstn_all.
Qed.

End nodes_from_segmentation_facts.

(** X8. When no two regions of the segmentation, in one frame or in two,
    have the same label, [nodes_from_segmentation] returns a graph without
    edges that has one node for every region, in the order of the frames:
    its id is the label, its [t] the index of the frame and its [x] and
    [y] the centroid. *)
Theorem nodes_from_segmentation_spec (regionprops : ndarray2 → list regionprop)
    (segmentation : ndarray3) :
  NoDup (region_nodes regionprops segmentation).*1 →
  nodes_from_segmentation regionprops segmentation
  = Ok (mkDiGraph (region_nodes regionprops segmentation) []).
Proof. intros Hnd. by rewrite nodes_from_segmentation_eq, decide_True. Qed.

Lemma nodes_from_segmentation_witness :
  nodes_from_segmentation regionprops_of_labels two_frame_seg
  = Ok (mkDiGraph [(1, node_data 0 0 0.5); (2, node_data 0 1 2);
                   (3, node_data 1 0.5 1.5)]%Z []).
Proof.
  apply (nodes_from_segmentation_spec regionprops_of_labels two_frame_seg).
  refine (bool_decide_unpack _ _). vm_compute. exact I.
Defined.

(** X9. When two regions of the segmentation have the same label, be it
    in two different frames, [nodes_from_segmentation] fails with an
    [AssertionError] and returns no graph. *)
Theorem nodes_from_segmentation_label_reuse (regionprops : ndarray2 → list regionprop)
    (segmentation : ndarray3) :
  ¬ NoDup (region_nodes regionprops segmentation).*1 →
  nodes_from_segmentation regionprops segmentation = Raise AssertionError.
Proof. intros Hnd. by rewrite nodes_from_segmentation_eq, decide_False. Qed.

Lemma nodes_from_segmentation_label_reuse_witness :
  nodes_from_segmentation regionprops_of_labels reused_label_seg = Raise AssertionError.
Proof.
  apply (nodes_from_segmentation_label_reuse regionprops_of_labels reused_label_seg).
  refine (bool_decide_unpack _ _). vm_compute. exact I.
Defined.

(** ** The frame dictionary *)

Lemma frame_group_snoc l n a t :
  frame_group (l ++ [(n, a)]) t
  = (frame_group l t ++ (if decide (attrs_frame a = Some t) then [n] else []))%list.
Proof.
  unfold frame_group. rewrite filter_app, fmap_app. f_equal.
  rewrite filter_cons, filter_nil. simpl. by destruct (decide _).
Qed.

(** The dictionary after the loop over the nodes [l]: a frame is a key when
    it holds a node, and its value lists the nodes it holds. *)
Lemma _compute_node_frame_dict_lookup G d :
  _compute_node_frame_dict G = Ok d →
  ∀ t, d !! t = match nodes_at G t with [] => None | ids => Some ids end.
Proof.
  intros Hrun.
  pose (I := λ (l1 : list (Z * gmap string value)) (d : gmap Z (list Z)),
    ∀ t, d !! t = match frame_group l1 t with [] => None | ids => Some ids end).
  refine (for_each_ind _ I (nodes G) ∅ d _ _ Hrun).
  - intros t. by rewrite lookup_empty.
  - intros l1 [n a] l2 d1 d2 _ Hd1. unfold getitem.
    destruct (a !! "t") as [[t0| |]|] eqn:Ht; simpl; try done.
    intros [= <-] t. rewrite frame_group_snoc.
    assert (Hfr : attrs_frame a = Some t0) by (unfold attrs_frame; by rewrite Ht).
    rewrite Hfr.
    set (d' := if bool_decide (is_Some (d1 !! t0)) then d1 else <[t0 := []]> d1).
    assert (Hd' : default [] (d' !! t0) = frame_group l1 t0).
    { unfold d'. specialize (Hd1 t0). case_bool_decide as Hsome.
      - destruct Hsome as [ids Hids]. rewrite Hids in Hd1 |- *. simpl.
        destruct (frame_group l1 t0); by simplify_eq.
      - rewrite lookup_insert_eq. simpl.
        destruct (frame_group l1 t0); [done|]. rewrite Hd1 in Hsome.
        destruct Hsome. by eexists. }
    destruct (decide (Some t0 = Some t)) as [[= ->]|Hne].
    + rewrite lookup_insert_eq, Hd'. by destruct (frame_group l1 t).
    + rewrite app_nil_r, lookup_insert_ne by congruence.
      unfold d'. case_bool_decide; [apply Hd1|].
      rewrite lookup_insert_ne by congruence. apply Hd1.
Qed.

(** X10. The frame dictionary partitions the nodes by their frame: its
    keys are the frames that hold at least one node, and the value of a
    key lists the nodes of that frame in the order of the graph. *)
Theorem _compute_node_frame_dict_partition (cand_graph : DiGraph) (d : gmap Z (list Z)) :
  _compute_node_frame_dict cand_graph = Ok d →
  ∀ t ids, d !! t = Some ids ↔ ids = nodes_at cand_graph t ∧ ids ≠ [].
Proof.
  intros Hrun t ids. rewrite (_compute_node_frame_dict_lookup _ _ Hrun).
  destruct (nodes_at cand_graph t) as [|n l]; split.
  - done.
  - by intros [-> ?].
  - intros [= <-]. done.
  - by intros [-> _].
Qed.

Lemma _compute_node_frame_dict_partition_witness :
  ∃ d, _compute_node_frame_dict chain_fixture = Ok d
    ∧ ∀ t ids, d !! t = Some ids ↔ ids = nodes_at chain_fixture t ∧ ids ≠ [].
Proof.
  destruct (_compute_node_frame_dict chain_fixture) as [d|] eqn:Hrun;
    [|vm_compute in Hrun; discriminate].
  exists d. split; [done|].
  exact (_compute_node_frame_dict_partition chain_fixture d Hrun).
Defined.

(** ** Candidate edges: the edges as a set *)

Lemma pos_of_node_functional G n p q : pos_of_node G n p → pos_of_node G n q → p = q.
Proof. intros (a & Ha & Hp) (b & Hb & Hq). congruence. Qed.

Lemma plain_extension_refl G : plain_extension G G.
Proof. split; [done|]. split; [|done]. intros e a He. by left. Qed.

Lemma plain_extension_trans G1 G2 G3 :
  plain_extension G1 G2 → plain_extension G2 G3 → plain_extension G1 G3.
Proof.
  intros (S1 & F1 & N1) (S2 & F2 & N2). split; [by etrans|]. split; [|by auto].
  intros e a [He|[He ->]]%F2; [by apply F1|].
  right. split; [|done]. intros Hin. apply He.
  eapply elem_of_sublist; [exact Hin|]. by apply fmap_sublist.
Qed.

Lemma plain_extension_add_edge G u v : plain_extension G (add_edge G u v).
Proof.
  destruct (add_edge_keys G u v) as [_ He]. split; [apply add_edge_sublist|]. split.
  - apply add_edge_edges_elem.
  - intros Hnd. rewrite He, fmap_app. clear He. apply NoDup_app. split; [done|]. split.
    + intros x Hx. case_bool_decide; simpl; [apply not_elem_of_nil|].
      by intros ->%list_elem_of_singleton.
    + case_bool_decide; simpl; repeat constructor; apply not_elem_of_nil.
Qed.

(** The edges made from one node [u] of the earlier frame. *)
Lemma link_node_spec G (u : Z) (next : list Z) (idxs : list nat) Gc Gc' :
  nodes Gc = nodes G → is_Some (node_attrs G u) →
  (∀ v, v ∈ next → is_Some (node_attrs G v)) →
  for_each (λ G next_node_index,
      next_node_id ← np_getitem next (Z.of_nat next_node_index);
      Ok (add_edge G u next_node_id))
    idxs Gc = Ok Gc' →
  nodes Gc' = nodes G ∧ plain_extension Gc Gc'
  ∧ ∀ e, e ∈ (edges Gc').*1
         ↔ e ∈ (edges Gc).*1 ∨ ∃ j v, j ∈ idxs ∧ next !! j = Some v ∧ e = (u, v).
Proof.
  intros Hnodes Hu Hnext Hrun.
  pose (I := λ (l1 : list nat) (Gx : DiGraph),
    nodes Gx = nodes G ∧ plain_extension Gc Gx
    ∧ ∀ e, e ∈ (edges Gx).*1
           ↔ e ∈ (edges Gc).*1 ∨ ∃ j v, j ∈ l1 ∧ next !! j = Some v ∧ e = (u, v)).
  refine (for_each_ind _ I idxs Gc Gc' _ _ Hrun).
  - split; [done|]. split; [apply plain_extension_refl|]. intros e. split; [by left|].
    intros [?|(j & v & []%elem_of_nil & _)]. done.
  - intros l1 j l2 G1 G2 _ (Hn1 & Hx1 & He1).
    destruct (np_getitem next (Z.of_nat j)) as [v|] eqn:Hv; simpl; [|done].
    intros [= <-]. apply np_getitem_Ok in Hv as (k & Hk & Hv).
    apply np_index_nat in Hk as ->.
    destruct (add_edge_existing G1 u v) as [Hn2 _].
    { unfold node_attrs. by rewrite Hn1. }
    { unfold node_attrs. rewrite Hn1. apply Hnext. by eapply list_elem_of_lookup_2. }
    split; [congruence|]. split.
    { eapply plain_extension_trans; [exact Hx1 | apply plain_extension_add_edge]. }
    intros e. rewrite add_edge_edges_iff, He1. split.
    + intros [[?|(j' & v' & Hj' & Hv' & ->)]| ->].
      * by left.
      * right. exists j', v'. split; [apply elem_of_app; by left | done].
      * right. exists j, v. split; [|done]. apply elem_of_app. right. by left.
    + intros [?|(j' & v' & [Hj'| ->%list_elem_of_singleton]%elem_of_app & Hv' & ->)].
      * left. by left.
      * left. right. by exists j', v'.
      * right. congruence.
Qed.

(** The edges made between the nodes of two frames: all the pairs within
    the distance, and no other. *)
Lemma link_frames_iff G D Gc Gc' prev ptree next ntree :
  nodes Gc = nodes G →
  Forall2 (pos_of_node G) prev ptree → Forall2 (pos_of_node G) next ntree →
  for_each (λ G '(prev_node_id, next_node_indices),
      for_each (λ G next_node_index,
          next_node_id ← np_getitem next (Z.of_nat next_node_index);
          Ok (add_edge G prev_node_id next_node_id))
        next_node_indices G)
    (zip prev (query_ball_tree ptree ntree D)) Gc = Ok Gc' →
  nodes Gc' = nodes G ∧ plain_extension Gc Gc'
  ∧ ∀ e, e ∈ (edges Gc').*1
         ↔ e ∈ (edges Gc).*1 ∨ (e.1 ∈ prev ∧ e.2 ∈ next ∧ within_distance G D e.1 e.2).
Proof.
  intros Hnodes Hprev Hnext Hrun.
  assert (Hnode : ∀ l t n, Forall2 (pos_of_node G) l t → n ∈ l → is_Some (node_attrs G n)).
  { intros l t n HF Hn. apply list_elem_of_lookup in Hn as [i Hi].
    destruct (Forall2_lookup_l _ _ _ _ _ HF Hi) as (p & _ & a & Ha & _). by exists a. }
  set (matched := query_ball_tree ptree ntree D) in *.
  pose (I := λ (l1 : list (Z * list nat)) (Gx : DiGraph),
    nodes Gx = nodes G ∧ plain_extension Gc Gx
    ∧ ∀ e, e ∈ (edges Gx).*1
           ↔ e ∈ (edges Gc).*1
             ∨ ∃ idxs j, (e.1, idxs) ∈ l1 ∧ j ∈ idxs ∧ next !! j = Some e.2).
  assert (HI : I (zip prev matched) Gc').
  { refine (for_each_ind _ I (zip prev matched) Gc Gc' _ _ Hrun).
    - split; [done|]. split; [apply plain_extension_refl|]. intros e. split; [by left|].
      intros [?|(idxs & j & []%elem_of_nil & _)]. done.
    - intros l1 [u idxs] l2 G1 G2 Hzip (Hn1 & Hx1 & He1) Hstep.
      assert (Hu : u ∈ prev).
      { assert ((u, idxs) ∈ zip prev matched) as Hin
          by (rewrite Hzip; apply elem_of_app; right; by left).
        apply elem_of_lookup_zip_with_1 in Hin as (i & u' & idxs' & [= -> ->] & Hi & _).
        by eapply list_elem_of_lookup_2. }
      destruct (link_node_spec G u next idxs G1 G2 Hn1 (Hnode _ _ _ Hprev Hu)
                  (λ v, Hnode _ _ v Hnext) Hstep) as (Hn2 & Hx2 & He2).
      split; [done|]. split; [by eapply plain_extension_trans|].
      intros [eu ev]. rewrite He2, He1. simpl. split.
      + intros [[?|(idxs' & j & Hin & Hj & Hv)]|(j & v & Hj & Hv & [= -> ->])].
        * by left.
        * right. exists idxs', j. split; [apply elem_of_app; by left | done].
        * right. exists idxs, j. split; [|done]. apply elem_of_app. right. by left.
      + intros [?|(idxs' & j & [Hin|Hin%list_elem_of_singleton]%elem_of_app & Hj & Hv)].
        * left. by left.
        * left. right. by exists idxs', j.
        * injection Hin as -> ->. right. by exists j, ev. }
  destruct HI as (Hn & Hx & He). split; [done|]. split; [done|].
  intros [eu ev]. rewrite He. simpl. split.
  - intros [?|(idxs & j & Hin & Hj & Hv)]; [by left|]. right.
    apply elem_of_lookup_zip_with_1 in Hin as (i & u' & idxs' & [= -> ->] & Hi & Hidxs).
    unfold matched, query_ball_tree in Hidxs.
    apply list_lookup_fmap_Some_1 in Hidxs as (p & -> & Hp).
    apply list_elem_of_fmap in Hj as ([j' q] & -> & Hjq).
    apply list_elem_of_filter in Hjq as [Hclose Hjq]. simpl in *.
    apply elem_of_lookup_imap_1 in Hjq as (j & q' & [= -> ->] & Hq).
    split_and!.
    + by eapply list_elem_of_lookup_2.
    + by eapply list_elem_of_lookup_2.
    + exists p, q'. split_and!; [|  |done].
      * by eapply (Forall2_lookup_lr _ _ _ _ _ _ Hprev).
      * by eapply (Forall2_lookup_lr _ _ _ _ _ _ Hnext).
  - intros [?|(Hu & Hv & pu & pv & Hpu & Hpv & Hclose)]; [by left|]. right.
    apply list_elem_of_lookup in Hu as [i Hi], Hv as [j Hj].
    destruct (Forall2_lookup_l _ _ _ _ _ Hprev Hi) as (p & Hp & Hpos).
    destruct (Forall2_lookup_l _ _ _ _ _ Hnext Hj) as (q & Hq & Hqos).
    rewrite (pos_of_node_functional _ _ _ _ Hpu Hpos) in Hclose.
    rewrite (pos_of_node_functional _ _ _ _ Hpv Hqos) in Hclose.
    exists ((filter (λ jq : nat * (float * float), PrimFloat.leb (sqeuclidean p jq.2) (D * D) = true)
               (imap (λ j q, (j, q)) ntree)).*1), j.
    split_and!; [| |done].
    + apply elem_of_lookup_zip_with. exists i, eu. eexists. split; [done|].
      split; [done|]. unfold matched, query_ball_tree. by rewrite list_lookup_fmap, Hp.
    + apply list_elem_of_fmap. exists (j, q). split; [done|].
      apply list_elem_of_filter. split; [done|].
      apply elem_of_lookup_imap. by exists j, q.
Qed.

(** One turn of the loop over the frames. *)
Lemma add_cand_edges_step_iff G D d Gc prev ptree frame Gc' prev' ptree' :
  nodes Gc = nodes G → Forall2 (pos_of_node G) prev ptree →
  add_cand_edges_step d D (Gc, prev, ptree) frame = Ok (Gc', prev', ptree') →
  nodes Gc' = nodes G ∧ Forall2 (pos_of_node G) prev' ptree' ∧ plain_extension Gc Gc'
  ∧ ((d !! (frame + 1)%Z = None ∧ Gc' = Gc ∧ prev' = prev)
     ∨ (d !! (frame + 1)%Z = Some prev'
        ∧ ∀ e, e ∈ (edges Gc').*1
               ↔ e ∈ (edges Gc).*1
                 ∨ (e.1 ∈ prev ∧ e.2 ∈ prev' ∧ within_distance G D e.1 e.2))).
Proof.
  intros Hnodes Hprev. unfold add_cand_edges_step.
  destruct (d !! (frame + 1)%Z) as [next|] eqn:Hd.
  - destruct (create_kdtree Gc next) as [ntree|] eqn:Hk; simpl; [|done].
    assert (Hnext : Forall2 (pos_of_node G) next ntree).
    { apply create_kdtree_spec in Hk. eapply Forall2_impl; [exact Hk|].
      intros n p. unfold pos_of_node, node_attrs. by rewrite Hnodes. }
    destruct (for_each _ _ Gc) as [G2|] eqn:Hloop; simpl; [|done].
    intros [= <- <- <-].
    destruct (link_frames_iff _ _ _ _ _ _ _ _ Hnodes Hprev Hnext Hloop) as (Hn2 & Hx2 & He2).
    split; [done|]. split; [done|]. split; [done|]. right. by split.
  - intros [= <- <- <-]. split; [done|]. split; [done|].
    split; [apply plain_extension_refl|]. left. by split.
Qed.

(** A sorted list of distinct integers that leaves out none between two of
    its members has no gap. *)
Lemma sorted_no_gap (l : list Z) :
  Sorted Z.le l → NoDup l →
  (∀ a b t, a ∈ l → b ∈ l → (a ≤ t ≤ b)%Z → t ∈ l) →
  no_gap l.
Proof.
  intros Hsorted%Sorted_StronglySorted; [|apply _].
  induction Hsorted as [|a l Hs IH Hall]; intros Hnd Hconv i f f' Hf Hf'.
  { by rewrite lookup_nil in Hf. }
  apply NoDup_cons in Hnd as [Ha Hnd].
  destruct i as [|i]; simpl in Hf, Hf'.
  - injection Hf as <-. destruct l as [|b l']; [done|]. simpl in Hf'. injection Hf' as <-.
    apply Forall_cons in Hall as [Hab Hall].
    assert (a ≠ b) as Hne by (intros ->; apply Ha; by left).
    assert ((a + 1)%Z ∈ a :: b :: l') as Hin.
    { apply (Hconv a b); [by left | right; by left | lia]. }
    apply elem_of_cons in Hin as [?|Hin]; [lia|].
    apply StronglySorted_inv in Hs as [_ Hb].
    apply elem_of_cons in Hin as [?|Hin]; [lia|].
    rewrite Forall_forall in Hb. specialize (Hb _ Hin). lia.
  - apply (IH Hnd) with (i := i); [|done..].
    intros a' b' t Ha' Hb' Ht.
    assert (t ∈ a :: l) as Hin by (apply (Hconv a' b'); [by right | by right | done]).
    apply elem_of_cons in Hin as [->|Hin]; [|done].
    rewrite Forall_forall in Hall. specialize (Hall _ Ha').
    assert (a' = a) as -> by lia. done.
Qed.

Lemma frame_of_attrs_frame G n : frame_of G n = node_attrs G n ≫= attrs_frame.
Proof. done. Qed.

Lemma nodes_at_elem G n t :
  n ∈ nodes_at G t ↔ ∃ a, (n, a) ∈ nodes G ∧ attrs_frame a = Some t.
Proof.
  unfold nodes_at, frame_group. rewrite list_elem_of_fmap. split.
  - intros ([n' a] & -> & [Ht Hin]%list_elem_of_filter). by exists a.
  - intros (a & Hin & Ht). exists (n, a). split; [done|]. by apply list_elem_of_filter.
Qed.

Lemma nodes_at_frame_of G n t :
  NoDup (nodes G).*1 → n ∈ nodes_at G t ↔ frame_of G n = Some t.
Proof.
  intros Hnd. rewrite nodes_at_elem, frame_of_attrs_frame. split.
  - intros (a & Hin & Ht). unfold node_attrs.
    rewrite (alist_lookup_in_NoDup n a) by done. done.
  - destruct (node_attrs G n) as [a|] eqn:Ha; simpl; [|done]. intros Ht.
    exists a. split; [|done]. by apply alist_lookup_Some_in.
Qed.

(** The frames are the keys of the dictionary, sorted: those that hold a
    node. *)
Lemma frames_keys G d :
  _compute_node_frame_dict G = Ok d →
  ∀ f, f ∈ merge_sort Z.le (map_to_list d).*1 ↔ nodes_at G f ≠ [].
Proof.
  intros Hd f. rewrite merge_sort_Permutation, list_elem_of_fmap. split.
  - intros ([f' ids] & -> & Hin%elem_of_map_to_list).
    rewrite (_compute_node_frame_dict_lookup G d Hd) in Hin.
    simpl. intros Hnil. by rewrite Hnil in Hin.
  - intros Hne. exists (f, nodes_at G f). split; [done|].
    apply elem_of_map_to_list. rewrite (_compute_node_frame_dict_lookup G d Hd).
    by destruct (nodes_at G f).
Qed.

(** The sorted frames of a graph whose frames are contiguous have no gap. *)
Lemma frames_no_gap G d :
  contiguous_frames G → _compute_node_frame_dict G = Ok d →
  no_gap (merge_sort Z.le (map_to_list d).*1).
Proof.
  intros Hcont Hd. pose proof (frames_keys G d Hd) as Hkeys. apply sorted_no_gap.
  - apply Sorted_merge_sort. apply _.
  - rewrite merge_sort_Permutation. apply NoDup_fst_map_to_list.
  - intros a b t Ha%Hkeys Hb%Hkeys Ht. apply Hkeys. exact (Hcont a b t Ha Hb Ht).
Qed.

(** The run of [add_cand_edges], opened up: the dictionary, the sorted
    frames and the final state of the loop. *)
Lemma add_cand_edges_run G D G' :
  add_cand_edges G D = Ok G' →
  ∃ d frame0 prev0 ptree0 prev ptree,
    _compute_node_frame_dict G = Ok d
    ∧ merge_sort Z.le (map_to_list d).*1 !! 0%nat = Some frame0
    ∧ d !! frame0 = Some prev0
    ∧ create_kdtree G prev0 = Ok ptree0
    ∧ for_each (add_cand_edges_step d D) (merge_sort Z.le (map_to_list d).*1)
        (G, prev0, ptree0) = Ok (G', prev, ptree).
Proof.
  unfold add_cand_edges.
  destruct (_compute_node_frame_dict G) as [d|] eqn:Hd; simpl; [|done].
  destruct (np_getitem _ 0) as [frame0|] eqn:Hf0; simpl; [|done].
  destruct (frames_getitem d frame0) as [prev0|] eqn:Hp0; simpl; [|done].
  destruct (create_kdtree G prev0) as [ptree0|] eqn:Hk; simpl; [|done].
  destruct (for_each _ _ _) as [[[Gc prev] ptree]|] eqn:Hloop; simpl; [|done].
  intros [= ->]. exists d, frame0, prev0, ptree0, prev, ptree.
  split; [done|]. split.
  { apply np_getitem_Ok in Hf0 as (k & Hk0 & Hf0).
    by apply (np_index_nat _ 0) in Hk0 as ->. }
  split; [|done]. unfold frames_getitem in Hp0. destruct (d !! frame0); by simplify_eq.
Qed.

(** The edges after [add_cand_edges], when the frames are contiguous: the
    edges there were, and the pairs of a node of a frame and a node of the
    next frame that are within the distance. *)
Lemma add_cand_edges_edges G D G' :
  NoDup (nodes G).*1 → contiguous_frames G → add_cand_edges G D = Ok G' →
  ∀ u v, (u, v) ∈ (edges G').*1
    ↔ (u, v) ∈ (edges G).*1
      ∨ ∃ t, frame_of G u = Some t ∧ frame_of G v = Some (t + 1)%Z
             ∧ within_distance G D u v.
Proof.
  intros Hnd Hcont (d & frame0 & prev0 & ptree0 & prev & ptree
                    & Hd & Hf0 & Hp0 & Hk & Hloop)%add_cand_edges_run.
  pose proof (frames_no_gap G d Hcont Hd) as Hgap.
  pose proof (frames_keys G d Hd) as Hkeys.
  pose proof (_compute_node_frame_dict_lookup G d Hd) as Hdict.
  set (frames := merge_sort Z.le (map_to_list d).*1) in *.
  assert (Hat : ∀ f ids, d !! f = Some ids → ids = nodes_at G f).
  { intros f ids. rewrite Hdict. destruct (nodes_at G f); by intros [= <-]. }
  pose (I := λ (l1 : list Z) (st : DiGraph * list Z * list (float * float)),
     nodes st.1.1 = nodes G
     ∧ Forall2 (pos_of_node G) st.1.2 st.2
     ∧ (∀ a l2, frames = (l1 ++ a :: l2)%list → d !! a = Some st.1.2)
     ∧ ∀ e, e ∈ (edges st.1.1).*1
         ↔ e ∈ (edges G).*1
           ∨ ∃ f ids ids', f ∈ l1 ∧ d !! f = Some ids ∧ d !! (f + 1)%Z = Some ids'
                           ∧ e.1 ∈ ids ∧ e.2 ∈ ids' ∧ within_distance G D e.1 e.2).
  assert (HI : I frames (G', prev, ptree)).
  { refine (for_each_ind (add_cand_edges_step d D) I frames (G, prev0, ptree0) _ _ _ Hloop).
    - split; [done|]. split; [by apply create_kdtree_spec|]. split.
      + intros a l2 Hfr. simpl in *. rewrite Hfr in Hf0. simpl in Hf0. by simplify_eq.
      + intros e. split; [by left|].
        intros [?|(f & ids & ids' & []%elem_of_nil & _)]. done.
    - intros l1 a l2 [[G1 prev1] ptree1] [[G2 prev2] ptree2] Hfr
        (Hn1 & Hp1 & Hcur & He1) Hstep. simpl in *.
      specialize (Hcur a l2 Hfr).
      destruct (add_cand_edges_step_iff _ _ _ _ _ _ _ _ _ _ Hn1 Hp1 Hstep)
        as (Hn2 & Hp2 & _ & Hcase).
      split; [done|]. split; [done|].
      assert (Hnext : ∀ a' l2', frames = ((l1 ++ [a]) ++ a' :: l2')%list → a' = (a + 1)%Z).
      { intros a' l2' Hfr'. apply (Hgap (length l1) a a').
        - rewrite Hfr. by apply list_lookup_middle.
        - rewrite Hfr', <- app_assoc. simpl.
          rewrite lookup_app_r by lia.
          by replace (S (length l1) - length l1)%nat with 1%nat by lia. }
      destruct Hcase as [(Hnone & -> & ->)|[Hsome He2]].
      + split.
        * intros a' l2' Hfr'. rewrite (Hnext a' l2' Hfr'), Hnone.
          destruct (frames_present_keys d (a + 1)%Z) as [ids Hids]; [|congruence].
          fold frames. rewrite Hfr', <- (Hnext a' l2' Hfr').
          apply elem_of_app. right. by left.
        * intros e. rewrite He1. split.
          -- intros [?|(f & ids & ids' & Hf & Hrest)]; [by left|]. right.
             exists f, ids, ids'. split; [apply elem_of_app; by left | done].
          -- intros [?|(f & ids & ids' & [Hf| ->%list_elem_of_singleton]%elem_of_app
                        & Hids & Hids' & Hrest)]; [by left| |congruence].
             right. by exists f, ids, ids'.
      + split.
        { intros a' l2' Hfr'. by rewrite (Hnext a' l2' Hfr'). }
        intros e. rewrite He2, He1. split.
        * intros [[?|(f & ids & ids' & Hf & Hrest)]|(Hu & Hv & Hw)].
          -- by left.
          -- right. exists f, ids, ids'. split; [apply elem_of_app; by left | done].
          -- right. exists a, prev1, prev2.
             split; [apply elem_of_app; right; by left | done].
        * intros [?|(f & ids & ids' & [Hf| ->%list_elem_of_singleton]%elem_of_app
                     & Hids & Hids' & Hu & Hv & Hw)].
          -- left. by left.
          -- left. right. by exists f, ids, ids'.
          -- right. by simplify_eq. }
  destruct HI as (_ & _ & _ & He). intros u v. rewrite (He (u, v)). simpl.
  split; (intros [?|Hnew]; [by left|right]).
  - destruct Hnew as (f & ids & ids' & Hf & Hids & Hids' & Hu & Hv & Hw).
    exists f. rewrite (Hat _ _ Hids) in Hu. rewrite (Hat _ _ Hids') in Hv.
    split_and!; [by apply nodes_at_frame_of..|done].
  - destruct Hnew as (t & Hu%nodes_at_frame_of & Hv%nodes_at_frame_of & Hw); [|done..].
    exists t, (nodes_at G t), (nodes_at G (t + 1)%Z).
    assert (Hlook : ∀ f n, n ∈ nodes_at G f → d !! f = Some (nodes_at G f)).
    { intros f n Hn. rewrite Hdict. destruct (nodes_at G f); [|done].
      by apply elem_of_nil in Hn. }
    split_and!; [|by eapply Hlook|by eapply Hlook|done..].
    apply Hkeys. intros Hnil. rewrite Hnil in Hu. by apply elem_of_nil in Hu.
Qed.

(** X11. When no node id is repeated and the frames that hold nodes are
    contiguous, [add_cand_edges] leaves out no candidate: every node of a
    frame [t] is joined to every node of the frame [t + 1] that is in its
    ball as the tree measures it, the squared distance of the two
    positions, computed in binary64, being at most [max_edge_distance]
    squared. *)
Theorem add_cand_edges_complete (cand_graph G' : DiGraph) (max_edge_distance : float)
    (u v t : Z) :
  NoDup (nodes cand_graph).*1 → contiguous_frames cand_graph →
  add_cand_edges cand_graph max_edge_distance = Ok G' →
  frame_of cand_graph u = Some t → frame_of cand_graph v = Some (t + 1)%Z →
  within_distance cand_graph max_edge_distance u v →
  (u, v) ∈ (edges G').*1.
Proof.
  intros Hnd Hcont Hrun Hu Hv Hw.
  apply (add_cand_edges_edges cand_graph max_edge_distance G' Hnd Hcont Hrun).
  right. by exists t.
Qed.

(** The graph after [add_cand_edges] extends the graph before. *)
Lemma add_cand_edges_plain_extension G D G' :
  add_cand_edges G D = Ok G' → nodes G' = nodes G ∧ plain_extension G G'.
Proof.
  intros (d & frame0 & prev0 & ptree0 & prev & ptree
          & Hd & Hf0 & Hp0 & Hk & Hloop)%add_cand_edges_run.
  cut (nodes G' = nodes G ∧ Forall2 (pos_of_node G) prev ptree ∧ plain_extension G G').
  { intros (Hn & _ & Hx). done. }
  refine (for_each_inv _
    (λ st : DiGraph * list Z * list (float * float),
       nodes st.1.1 = nodes G ∧ Forall2 (pos_of_node G) st.1.2 st.2
       ∧ plain_extension G st.1.1)
    _ _ (G', prev, ptree) _ _ Hloop).
  - split; [done|]. split; [by apply create_kdtree_spec|]. apply plain_extension_refl.
  - intros [[G1 prev1] ptree1] frame [[G2 prev2] ptree2] _ (Hn1 & Hp1 & Hx1) Hstep.
    simpl in *.
    destruct (add_cand_edges_step_iff _ _ _ _ _ _ _ _ _ _ Hn1 Hp1 Hstep)
      as (Hn2 & Hp2 & Hx2 & _).
    split; [done|]. split; [done|]. by eapply plain_extension_trans.
Qed.

(** X12. [add_cand_edges] only adds to the graph: the nodes stay as they
    are; the edges that were there are all still there, with their
    attributes and in the order they had among themselves (a new edge may
    be listed in front of them); every edge that is new carries no
    attribute at all; and no edge is held twice unless one was before. *)
Theorem add_cand_edges_extends (cand_graph G' : DiGraph) (max_edge_distance : float) :
  add_cand_edges cand_graph max_edge_distance = Ok G' →
  nodes G' = nodes cand_graph
  ∧ edges cand_graph `sublist_of` edges G'
  ∧ (∀ e a, (e, a) ∈ edges G' →
       (e, a) ∈ edges cand_graph ∨ ((e ∉ (edges cand_graph).*1) ∧ a = ∅))
  ∧ (NoDup (edges cand_graph).*1 → NoDup (edges G').*1).
Proof.
  intros (Hn & Hx & Hdup)%add_cand_edges_plain_extension. done.
Qed.

(** A new edge is listed where its source stands among the nodes: here in
    front of the edge that was there. *)
Example add_cand_edges_new_edge_first :
  edges <$> add_cand_edges prior_edge_fixture 5
  = Ok [((1, 2)%Z, ∅); ((2, 4)%Z, <["dist" := VFloat 0]> ∅)].
Proof. vm_compute. reflexivity. Qed.

(** X13. On a graph without nodes [add_cand_edges] fails: there is no
    first frame, and the lookup [frames[0]] raises [IndexError]. *)
Theorem add_cand_edges_empty (cand_graph : DiGraph) (max_edge_distance : float) :
  nodes cand_graph = [] →
  add_cand_edges cand_graph max_edge_distance = Raise IndexError.
Proof.
  intros Hnodes. unfold add_cand_edges, _compute_node_frame_dict. rewrite Hnodes.
  reflexivity.
Qed.

(** ** Candidate edges: when the pass succeeds *)

Lemma list_comp_Ok {A B : Type} (f : A → res B) l :
  (∀ a, a ∈ l → ∃ b, f a = Ok b) → ∃ bs, list_comp f l = Ok bs.
Proof.
  induction l as [|a l IH]; intros Hall; simpl; [by eexists|].
  destruct (Hall a) as [b ->]; [by left|]. simpl.
  destruct IH as [bs ->]; [intros a' Ha'; apply Hall; by right|]. simpl. by eexists.
Qed.

Lemma for_each_total {A S : Type} (f : S → A → res S) (l : list A) (s : S) :
  (∀ s1 a, a ∈ l → ∃ s2, f s1 a = Ok s2) → ∃ s', for_each f l s = Ok s'.
Proof.
  intros Hstep. destruct (for_each_Ok f (λ _, True) l s I) as (s' & Hs' & _); [|by exists s'].
  intros s1 a Ha _. destruct (Hstep s1 a Ha) as [s2 Hs2]. by exists s2.
Qed.

Lemma detection_pos G n :
  (∀ m a, (m, a) ∈ nodes G → detection a) → n ∈ (nodes G).*1 →
  ∃ p, pos_of_node G n p
       ∧ PrimFloat.is_finite p.1 = true ∧ PrimFloat.is_finite p.2 = true.
Proof.
  intros Hdet [a Ha]%alist_lookup_is_Some.
  destruct (Hdet n a) as (t & x & y & Ht & Hx & Hy & Hfx & Hfy);
    [by apply alist_lookup_Some_in|].
  exists (x, y). split; [|done]. exists a. split; [done|].
  unfold node_pos, getitem. by rewrite Hx, Hy.
Qed.

(** Building the tree on nodes that have positions is building it on
    these positions. *)
Lemma create_kdtree_eq G ids positions :
  Forall2 (pos_of_node G) ids positions → create_kdtree G ids = KDTree positions.
Proof.
  intros HF. unfold create_kdtree.
  match goal with |- mbind _ ?m = _ => assert (m = Ok positions) as Hm end;
    [|by rewrite Hm].
  induction HF as [|n p ids positions (a & Ha & Hp) HF IH]; simpl; [done|].
  rewrite IH. unfold nodes_getitem. rewrite Ha. simpl.
  unfold node_pos, getitem in Hp |- *.
  destruct (a !! "x") as [[| |]|], (a !! "y") as [[| |]|]; simpl in *; try done.
  by injection Hp as <-.
Qed.

Lemma KDTree_Ok data :
  data ≠ [] →
  Forall (λ p, PrimFloat.is_finite p.1 = true ∧ PrimFloat.is_finite p.2 = true) data →
  KDTree data = Ok data.
Proof.
  intros Hne HF. unfold KDTree. destruct data as [|p data]; [done|].
  assert (forallb (λ p, PrimFloat.is_finite p.1 && PrimFloat.is_finite p.2) (p :: data)
          = true) as ->; [|done].
  induction HF as [|q l [H1 H2] HF IH]; [done|]. simpl. rewrite H1, H2. simpl.
  destruct l; [done|]. by apply IH.
Qed.

(** The tree is built when there is at least one node and every node has
    a position of two numbers. *)
Lemma create_kdtree_Ok G ids :
  ids ≠ [] →
  (∀ n, n ∈ ids → ∃ p, pos_of_node G n p
       ∧ PrimFloat.is_finite p.1 = true ∧ PrimFloat.is_finite p.2 = true) →
  ∃ tree, create_kdtree G ids = Ok tree.
Proof.
  intros Hne Hall.
  assert (∃ positions, Forall2 (pos_of_node G) ids positions
            ∧ Forall (λ p, PrimFloat.is_finite p.1 = true
                           ∧ PrimFloat.is_finite p.2 = true) positions)
    as (positions & HF & Hfin).
  { clear Hne. induction ids as [|n ids IH]; [by exists []|].
    destruct (Hall n) as (p & Hp & Hf); [by left|].
    destruct IH as (positions & HF & Hfin); [intros m Hm; apply Hall; by right|].
    exists (p :: positions). split; by constructor. }
  exists positions. rewrite (create_kdtree_eq G ids positions HF).
  apply KDTree_Ok; [|done]. intros ->. apply Forall2_nil_inv_r in HF. done.
Qed.

Lemma nodes_at_subseteq G t n : n ∈ nodes_at G t → n ∈ (nodes G).*1.
Proof.
  intros (a & Hin & _)%nodes_at_elem. apply list_elem_of_fmap. by exists (n, a).
Qed.

(** The loops over the nodes of two frames do not fail. *)
Lemma link_frames_Ok G D Gc prev ptree next ntree :
  nodes Gc = nodes G →
  Forall2 (pos_of_node G) prev ptree → Forall2 (pos_of_node G) next ntree →
  ∃ Gc', for_each (λ G '(prev_node_id, next_node_indices),
      for_each (λ G next_node_index,
          next_node_id ← np_getitem next (Z.of_nat next_node_index);
          Ok (add_edge G prev_node_id next_node_id))
        next_node_indices G)
    (zip prev (query_ball_tree ptree ntree D)) Gc = Ok Gc'.
Proof.
  intros Hnodes Hprev Hnext.
  assert (Hnode : ∀ l t n, Forall2 (pos_of_node G) l t → n ∈ l → is_Some (node_attrs G n)).
  { intros l t n HF Hn. apply list_elem_of_lookup in Hn as [i Hi].
    destruct (Forall2_lookup_l _ _ _ _ _ HF Hi) as (p & _ & a & Ha & _). by exists a. }
  destruct (for_each_Ok
    (λ G '(prev_node_id, next_node_indices),
      for_each (λ G next_node_index,
          next_node_id ← np_getitem next (Z.of_nat next_node_index);
          Ok (add_edge G prev_node_id next_node_id))
        next_node_indices G)
    (λ Gx, nodes Gx = nodes G) (zip prev (query_ball_tree ptree ntree D)) Gc Hnodes)
    as (Gc' & Hrun & _); [|by exists Gc'].
  intros G1 [u idxs] Hin Hn1.
  apply elem_of_lookup_zip_with_1 in Hin as (i & u' & idxs' & [= <- <-] & Hi & Hidxs).
  unfold query_ball_tree in Hidxs.
  apply list_lookup_fmap_Some_1 in Hidxs as (p & -> & Hp).
  apply for_each_Ok; [done|].
  intros G2 j Hj Hn2.
  apply list_elem_of_fmap in Hj as ([j' q] & -> & Hjq).
  apply list_elem_of_filter in Hjq as [_ Hjq]. simpl.
  apply elem_of_lookup_imap_1 in Hjq as (j & q' & [= <- <-] & Hq).
  destruct (Forall2_lookup_r _ _ _ _ _ Hnext Hq) as (v & Hv & _).
  rewrite (np_getitem_in_range _ _ _ Hv). simpl. eexists. split; [done|].
  destruct (add_edge_existing G2 u v) as [Hn3 _].
  - unfold node_attrs. rewrite Hn2. apply (Hnode _ _ _ Hprev).
    by eapply list_elem_of_lookup_2.
  - unfold node_attrs. rewrite Hn2. apply (Hnode _ _ _ Hnext).
    by eapply list_elem_of_lookup_2.
  - congruence.
Qed.

Lemma add_cand_edges_Ok G D :
  nodes G ≠ [] → (∀ n a, (n, a) ∈ nodes G → detection a) →
  ∃ G', add_cand_edges G D = Ok G'.
Proof.
  intros Hne Hdet. unfold add_cand_edges.
  assert (Hdict0 : ∃ d, _compute_node_frame_dict G = Ok d).
  { apply for_each_total. intros d1 [n a] Hin.
    destruct (Hdet n a Hin) as (t & x & y & Ht & _).
    unfold getitem. rewrite Ht. simpl. by eexists. }
  destruct Hdict0 as [d Hd]. rewrite Hd. simpl.
  pose proof (frames_keys G d Hd) as Hkeys.
  pose proof (_compute_node_frame_dict_lookup G d Hd) as Hdict.
  assert (Hpos : ∀ f ids, d !! f = Some ids →
            ids ≠ []
            ∧ ∀ n, n ∈ ids → ∃ p, pos_of_node G n p
                ∧ PrimFloat.is_finite p.1 = true ∧ PrimFloat.is_finite p.2 = true).
  { intros f ids Hids. rewrite Hdict in Hids. split.
    - destruct (nodes_at G f); by simplify_eq.
    - intros n Hn. apply detection_pos; [done|].
      apply (nodes_at_subseteq G f). destruct (nodes_at G f); by simplify_eq. }
  pose proof (frames_present_keys d) as Hpresent.
  destruct (merge_sort Z.le (map_to_list d).*1) as [|frame0 rest] eqn:Hfr.
  { destruct (nodes G) as [|[n a] l] eqn:Hnodes; [done|].
    destruct (Hdet n a) as (t & x & y & Ht & _); [by left|].
    assert (nodes_at G t ≠ []) as Hat.
    { intros Hnil.
      assert (n ∈ nodes_at G t) as Hn.
      { apply nodes_at_elem. exists a. rewrite Hnodes. split; [by left|].
        unfold attrs_frame. by rewrite Ht. }
      rewrite Hnil in Hn. by apply elem_of_nil in Hn. }
    apply Hkeys in Hat. rewrite ?Hfr in Hat. by apply elem_of_nil in Hat. }
  destruct (Hpresent frame0) as [prev0 Hprev0]; [rewrite ?Hfr; by left|].
  destruct (Hpos _ _ Hprev0) as [Hne0 Hpos0].
  destruct (create_kdtree_Ok G prev0 Hne0 Hpos0) as [ptree0 Hk].
  destruct (for_each_Ok (add_cand_edges_step d D)
    (λ st, nodes st.1.1 = nodes G ∧ Forall2 (pos_of_node G) st.1.2 st.2)
    (frame0 :: rest) (G, prev0, ptree0)) as (st & Hst & _).
  - split; [done|]. by apply create_kdtree_spec.
  - intros [[Gc prev] ptree] frame _ [Hn Hp]. simpl in *.
    unfold add_cand_edges_step.
    destruct (d !! (frame + 1)%Z) as [next|] eqn:Hnext; [|by eexists].
    destruct (Hpos _ _ Hnext) as [Hnen Hposn].
    destruct (create_kdtree_Ok Gc next Hnen) as [ntree Hkn].
    { intros n Hin. destruct (Hposn n Hin) as (p & Hpn & Hfin). exists p.
      split; [|done]. unfold pos_of_node, node_attrs in *. by rewrite Hn. }
    rewrite Hkn. simpl.
    assert (Hnt : Forall2 (pos_of_node G) next ntree).
    { apply create_kdtree_spec in Hkn. eapply Forall2_impl; [exact Hkn|].
      intros n p. unfold pos_of_node, node_attrs. by rewrite Hn. }
    destruct (link_frames_Ok G D Gc prev ptree next ntree Hn Hp Hnt) as [Gc' Hloop].
    rewrite Hloop. simpl. eexists. split; [done|]. simpl.
    split; [|done].
    by destruct (link_frames_iff _ _ _ _ _ _ _ _ Hn Hp Hnt Hloop) as [? _].
  - assert (np_getitem (frame0 :: rest) 0 = Ok frame0) as -> by reflexivity.
    change (∃ G', (prev_node_ids ← frames_getitem d frame0;
                   prev_kdtree ← create_kdtree G prev_node_ids;
                   st ← for_each (add_cand_edges_step d D) (frame0 :: rest)
                          (G, prev_node_ids, prev_kdtree);
                   Ok st.1.1) = Ok G').
    assert (frames_getitem d frame0 = Ok prev0) as ->
      by (unfold frames_getitem; by rewrite Hprev0).
    change (∃ G', (prev_kdtree ← create_kdtree G prev0;
                   st ← for_each (add_cand_edges_step d D) (frame0 :: rest)
                          (G, prev0, prev_kdtree);
                   Ok st.1.1) = Ok G').
    rewrite Hk.
    change (∃ G', (st ← for_each (add_cand_edges_step d D) (frame0 :: rest)
                          (G, prev0, ptree0);
                   Ok st.1.1) = Ok G').
    rewrite Hst. by eexists.
Qed.


(** The tree is not built on a position that is not a number. *)
Example add_cand_edges_nan : add_cand_edges nan_fixture 5 = Raise ValueError.
Proof. vm_compute. reflexivity. Qed.

Lemma nodes_at_nonempty G t :
  nodes_at G t ≠ [] ↔ ∃ n a, (n, a) ∈ nodes G ∧ attrs_frame a = Some t.
Proof.
  split.
  - destruct (nodes_at G t) as [|n l] eqn:Hat; [done|]. intros _.
    assert (n ∈ nodes_at G t) as Hn by (rewrite Hat; by left).
    apply nodes_at_elem in Hn. by exists n.
  - intros (n & a & Hin & Ht) Hnil.
    assert (n ∈ nodes_at G t) as Hn by (apply nodes_at_elem; by exists a).
    rewrite Hnil in Hn. by apply elem_of_nil in Hn.
Qed.

(** Frames that fill an interval are contiguous. *)
Lemma contiguous_frames_range G (lo hi : Z) :
  (∀ t, nodes_at G t ≠ [] ↔ (lo ≤ t < hi)%Z) → contiguous_frames G.
Proof.
  intros Hrange t1 t2 t H1%Hrange H2%Hrange Ht. apply Hrange. lia.
Qed.

Lemma chain_fixture_contiguous : contiguous_frames chain_fixture.
Proof.
  apply (contiguous_frames_range _ 0 3). intros t. rewrite nodes_at_nonempty. split.
  - intros (n & a & Hin & Ht). unfold chain_fixture in Hin. simpl in Hin.
    repeat (apply elem_of_cons in Hin as [[= -> ->]|Hin]);
      [vm_compute in Ht; injection Ht as <-; lia ..|by apply elem_of_nil in Hin].
  - intros Ht. assert (t = 0 ∨ t = 1 ∨ t = 2)%Z as [->|[->| ->]] by lia.
    + exists 1%Z, (node_data 0 0 0). split; [by left | done].
    + exists 2%Z, (node_data 1 5 5). split; [right; by left | done].
    + exists 4%Z, (node_data 2 6 6). split; [do 3 right; by left | done].
Qed.

Lemma add_cand_edges_complete_witness :
  ∃ G', add_cand_edges chain_fixture 50 = Ok G' ∧ (1, 2)%Z ∈ (edges G').*1.
Proof.
  destruct (add_cand_edges chain_fixture 50) as [G'|] eqn:Hrun;
    [|vm_compute in Hrun; discriminate].
  exists G'. split; [done|].
  apply (add_cand_edges_complete chain_fixture G' 50 1 2 0).
  - refine (bool_decide_unpack _ _). vm_compute. exact I.
  - exact chain_fixture_contiguous.
  - exact Hrun.
  - reflexivity.
  - reflexivity.
  - exists (0%float, 0%float), (5%float, 5%float). split_and!.
    + by exists (node_data 0 0 0).
    + by exists (node_data 1 5 5).
    + vm_compute. reflexivity.
Defined.

Lemma add_cand_edges_extends_witness :
  ∃ G', add_cand_edges prior_edge_fixture 5 = Ok G'
    ∧ nodes G' = nodes prior_edge_fixture
    ∧ edges prior_edge_fixture `sublist_of` edges G'
    ∧ (∀ e a, (e, a) ∈ edges G' →
         (e, a) ∈ edges prior_edge_fixture
         ∨ ((e ∉ (edges prior_edge_fixture).*1) ∧ a = ∅))
    ∧ (NoDup (edges prior_edge_fixture).*1 → NoDup (edges G').*1).
Proof.
  destruct (add_cand_edges prior_edge_fixture 5) as [G'|] eqn:Hrun;
    [|vm_compute in Hrun; discriminate].
  exists G'. split; [done|].
  exact (add_cand_edges_extends prior_edge_fixture G' 5 Hrun).
Defined.

Lemma add_cand_edges_empty_witness :
  add_cand_edges empty_graph 50 = Raise IndexError.
Proof. apply (add_cand_edges_empty empty_graph 50). reflexivity. Defined.


(** ** From the segmentation to the candidate graph *)

Section region_nodes_facts.
Variable regionprops : ndarray2 → list regionprop.

Lemma region_nodes_elem (segmentation : ndarray3) x :
  x ∈ region_nodes regionprops segmentation
  ↔ ∃ k frame rp, segmentation !! k = Some frame ∧ rp ∈ regionprops frame
                  ∧ x = region_node k rp.
Proof.
  induction segmentation as [|frame0 segmentation IH] using rev_ind.
  - unfold region_nodes. simpl. rewrite elem_of_nil. split; [done|].
    intros (k & frame & rp & Hk & _). by rewrite lookup_nil in Hk.
  - rewrite region_nodes_snoc, elem_of_app, IH, list_elem_of_fmap. split.
    + intros [(k & frame & rp & Hk & Hrp & ->)|(rp & -> & Hrp)].
      * exists k, frame, rp. split; [|done]. by apply lookup_app_l_Some.
      * exists (length segmentation), frame0, rp. split; [|done].
        by apply list_lookup_middle.
    + intros (k & frame & rp & Hk & Hrp & ->).
      apply lookup_app_Some in Hk as [Hk|[Hlen Hk]].
      * left. by exists k, frame, rp.
      * right. destruct (k - length segmentation)%nat as [|k'] eqn:Hsub; [|done].
        simpl in Hk. injection Hk as <-.
        assert (k = length segmentation) as -> by lia. by exists rp.
Qed.

Lemma region_node_detection k rp :
  PrimFloat.is_finite (centroid rp).1 = true →
  PrimFloat.is_finite (centroid rp).2 = true →
  detection (region_node k rp).2.
Proof. intros Hx Hy. by eexists _, _, _. Qed.

Lemma region_node_frame k rp : attrs_frame (region_node k rp).2 = Some (Z.of_nat k).
Proof. done. Qed.

Lemma region_nodes_frames (segmentation : ndarray3) :
  (∀ frame, frame ∈ segmentation → regionprops frame ≠ []) →
  ∀ t, nodes_at (mkDiGraph (region_nodes regionprops segmentation) []) t ≠ []
       ↔ (0 ≤ t < Z.of_nat (length segmentation))%Z.
Proof.
  intros Hfull t. rewrite nodes_at_nonempty. simpl. split.
  - intros (n & a & (k & frame & rp & Hk & Hrp & [= -> ->])%region_nodes_elem & Ht).
    change (Some (Z.of_nat k) = Some t) in Ht. injection Ht as <-.
    apply lookup_lt_Some in Hk. lia.
  - intros Ht. destruct (lookup_lt_is_Some_2 segmentation (Z.to_nat t)) as [frame Hframe];
      [lia|].
    destruct (regionprops frame) as [|rp l] eqn:Hrp.
    { destruct (Hfull frame); [by eapply list_elem_of_lookup_2 | done]. }
    exists (label rp), (region_node (Z.to_nat t) rp).2. split.
    + apply region_nodes_elem. exists (Z.to_nat t), frame, rp.
      split; [done|]. split; [rewrite Hrp; by left | done].
    + rewrite region_node_frame. f_equal. lia.
Qed.

End region_nodes_facts.

(** X15. When the segmentation has at least one frame, every frame has
    at least one region and the centroids of the regions are numbers
    (neither [nan] nor infinite, as the means of pixel indices are), the
    graph that [nodes_from_segmentation] returns is turned by
    [add_cand_edges] into a candidate graph as the solver expects it: the
    pass succeeds, no node and no edge is repeated, and every edge goes
    from a node of some frame to a node of the next frame. *)
Theorem candidate_graph_pipeline (regionprops : ndarray2 → list regionprop)
    (segmentation : ndarray3) (max_edge_distance : float) (cand_graph : DiGraph) :
  segmentation ≠ [] →
  (∀ frame, frame ∈ segmentation → regionprops frame ≠ []) →
  (∀ frame rp, frame ∈ segmentation → rp ∈ regionprops frame →
     PrimFloat.is_finite (centroid rp).1 = true
     ∧ PrimFloat.is_finite (centroid rp).2 = true) →
  nodes_from_segmentation regionprops segmentation = Ok cand_graph →
  ∃ G', add_cand_edges cand_graph max_edge_distance = Ok G' ∧ candidate_graph G'.
Proof.
  intros Hseg Hfull Hfin. rewrite nodes_from_segmentation_eq.
  destruct (decide _) as [Hnd|]; [|done]. intros [= <-].
  set (G := mkDiGraph (region_nodes regionprops segmentation) []).
  assert (Hcont : contiguous_frames G).
  { eapply contiguous_frames_range. by apply region_nodes_frames. }
  destruct (add_cand_edges_Ok G max_edge_distance) as [G' Hrun].
  { destruct segmentation as [|frame0 rest]; [done|].
    destruct (regionprops frame0) as [|rp l] eqn:Hrp.
    { destruct (Hfull frame0); [by left | done]. }
    intros Hnil.
    assert (region_node 0 rp ∈ nodes G) as Hin.
    { apply region_nodes_elem. exists 0%nat, frame0, rp.
      split; [done|]. split; [rewrite Hrp; by left | done]. }
    rewrite Hnil in Hin. by apply elem_of_nil in Hin. }
  { intros n a (k & frame & rp & Hk & Hrp & [= -> ->])%region_nodes_elem.
    destruct (Hfin frame rp) as [Hx Hy]; [by eapply list_elem_of_lookup_2 | done |].
    by apply (region_node_detection k rp). }
  exists G'. split; [done|].
  destruct (add_cand_edges_plain_extension G max_edge_distance G' Hrun) as [Hn [_ Hdup]].
  split; [by rewrite Hn|]. split; [apply Hdup; constructor|].
  intros u v [Hold|(t & Hu & Hv & _)]%(add_cand_edges_edges G max_edge_distance G' Hnd Hcont Hrun).
  { by apply elem_of_nil in Hold. }
  assert (Hframe : ∀ n, frame_of G' n = frame_of G n).
  { intros n. unfold frame_of, node_attrs. by rewrite Hn. }
  assert (Hin : ∀ n f, frame_of G n = Some f → n ∈ (nodes G').*1).
  { intros n f Hf. rewrite Hn. apply alist_lookup_is_Some.
    unfold frame_of in Hf. fold (node_attrs G n).
    destruct (node_attrs G n); [by eexists | done]. }
  split; [by eapply Hin|]. split; [by eapply Hin|].
  exists t, (t + 1)%Z. by rewrite !Hframe.
Qed.

Lemma candidate_graph_pipeline_witness :
  ∃ G', add_cand_edges (mkDiGraph [(1, node_data 0 0 0.5); (2, node_data 0 1 2);
                                   (3, node_data 1 0.5 1.5)]%Z []) 50 = Ok G'
        ∧ candidate_graph G'.
Proof.
  apply (candidate_graph_pipeline regionprops_of_labels two_frame_seg 50).
  - done.
  - intros frame Hin. unfold two_frame_seg in Hin.
    repeat (apply elem_of_cons in Hin as [->|Hin]);
      [vm_compute; discriminate ..|by apply elem_of_nil in Hin].
  - intros frame rp Hin Hrp. unfold two_frame_seg in Hin.
    repeat (apply elem_of_cons in Hin as [->|Hin]); [| |by apply elem_of_nil in Hin];
      vm_compute in Hrp;
      repeat (apply elem_of_cons in Hrp as [->|Hrp]);
      try (by apply elem_of_nil in Hrp); split; reflexivity.
  - vm_compute. reflexivity.
Defined.

(** ** The appear-ignore tagger: failure and repetition *)

(** A loop that fails, fails at some item, after the turns before it. *)
Lemma for_each_Raise {A S : Type} (f : S → A → res S) (l : list A) (s : S) (e : exn) :
  for_each f l s = Raise e →
  ∃ l1 a l2 s1, l = (l1 ++ a :: l2)%list ∧ for_each f l1 s = Ok s1 ∧ f s1 a = Raise e.
Proof.
  revert s. induction l as [|a l IH]; intros s; simpl; [done|].
  destruct (f s a) as [s2|e'] eqn:Hf; simpl.
  - intros (l1 & b & l2 & s1 & -> & Hrun & Hb)%IH.
    exists (a :: l1), b, l2, s1. simpl. rewrite Hf. done.
  - intros [= ->]. by exists [], a, l, s.
Qed.

Lemma same_t_x_refl G : same_t_x G G.
Proof. split; [done|]. intros n. split; [done|]. intros a1 a ? ?. by simplify_eq. Qed.

Lemma same_t_x_step G G1 n0 G2 :
  same_t_x G G1 → add_appear_ignore_attr_step G1 n0 = Ok G2 → same_t_x G G2.
Proof.
  intros [Hk Hsame] (Hk3 & _ & Hl3)%add_appear_ignore_attr_step_spec.
  split; [congruence|]. intros n. destruct (Hsame n) as [Hsome Htx]. rewrite Hl3.
  destruct (decide (n0 = n)) as [->|]; [|done]. split.
  + rewrite <- Hsome. by rewrite fmap_is_Some.
  + intros a1 a Ha1 Ha. destruct (node_attrs G1 n) as [a2|] eqn:Ha2; [|done].
    simpl in Ha1. injection Ha1 as <-. rewrite !appear_tag_lookup_ne by done.
    by apply Htx.
Qed.

Lemma add_appear_ignore_attr_prefix G l G1 :
  for_each add_appear_ignore_attr_step l G = Ok G1 → same_t_x G G1.
Proof.
  apply for_each_inv; [apply same_t_x_refl|].
  intros G2 n0 G3 _ Hs Hstep. by eapply same_t_x_step.
Qed.

Lemma add_appear_ignore_attr_step_Ok G n a :
  node_attrs G n = Some a → is_Some (a !! "t") → is_Some (a !! "x") →
  ∃ G', add_appear_ignore_attr_step G n = Ok G'.
Proof.
  intros Ha [t Ht] [x Hx].
  unfold add_appear_ignore_attr_step, nodes_getitem, getitem, set_node_attr, nodes_getitem.
  rewrite Ha. simpl. rewrite Ht. simpl. rewrite Hx. simpl.
  destruct (_ || _); simpl; by eexists.
Qed.

Lemma add_appear_ignore_attr_step_Raise G n e :
  n ∈ (nodes G).*1 → add_appear_ignore_attr_step G n = Raise e →
  e = KeyError
  ∧ ∃ a, node_attrs G n = Some a ∧ (a !! "t" = None ∨ a !! "x" = None).
Proof.
  intros [a Ha]%alist_lookup_is_Some. fold (node_attrs G n) in Ha.
  unfold add_appear_ignore_attr_step, nodes_getitem, getitem, set_node_attr, nodes_getitem.
  rewrite Ha. simpl.
  destruct (a !! "t") as [t|] eqn:Ht; simpl; [|intros [= <-]; eauto].
  destruct (a !! "x") as [x|] eqn:Hx; simpl; [|intros [= <-]; eauto].
  destruct (_ || _); simpl; done.
Qed.

(** The tagger succeeds when every node has a [t] and an [x]. *)
Lemma add_appear_ignore_attr_Ok G :
  (∀ n a, node_attrs G n = Some a → is_Some (a !! "t") ∧ is_Some (a !! "x")) →
  ∃ G', add_appear_ignore_attr G = Ok G'.
Proof.
  intros Hall.
  destruct (for_each_Ok add_appear_ignore_attr_step (same_t_x G) (nodes G).*1 G)
    as (G' & Hrun & _); [apply same_t_x_refl| |by exists G'].
  intros G1 n Hn Hs. pose proof Hs as [Hk Hsame].
  destruct (Hsame n) as [Hsome Htx].
  destruct (proj2 (alist_lookup_is_Some n (nodes G)) Hn) as [a Ha].
  fold (node_attrs G n) in Ha.
  destruct (proj2 Hsome (ex_intro _ a Ha)) as [a1 Ha1].
  destruct (Htx a1 a Ha1 Ha) as [Ht Hx]. destruct (Hall n a Ha) as [Hta Hxa].
  destruct (add_appear_ignore_attr_step_Ok G1 n a1 Ha1) as [G2 HG2];
    [by rewrite Ht | by rewrite Hx |].
  exists G2. split; [done|]. by eapply same_t_x_step.
Qed.

(** X16. When the appear-ignore pass fails on a graph whose attribute
    values are integers, floats or booleans, the exception is a
    [KeyError] and some node of the graph lacks its [t] or its [x]: the
    pass raises nothing else. *)
Theorem add_appear_ignore_attr_failure (cand_graph : DiGraph) (e : exn) :
  add_appear_ignore_attr cand_graph = Raise e →
  e = KeyError
  ∧ ∃ n a, node_attrs cand_graph n = Some a ∧ (a !! "t" = None ∨ a !! "x" = None).
Proof.
  intros (l1 & n & l2 & G1 & Hl & Hrun & Hstep)%for_each_Raise.
  pose proof (add_appear_ignore_attr_prefix _ _ _ Hrun) as [Hk Hsame].
  destruct (add_appear_ignore_attr_step_Raise G1 n e) as (-> & a1 & Ha1 & Hlack);
    [|done|].
  { rewrite Hk, Hl. apply elem_of_app. right. by left. }
  split; [done|]. destruct (Hsame n) as [Hsome Htx].
  destruct (proj1 Hsome (ex_intro _ a1 Ha1)) as [a Ha].
  exists n, a. split; [done|]. destruct (Htx a1 a Ha1 Ha) as [<- <-]. done.
Qed.

Lemma add_appear_ignore_attr_failure_witness :
  add_appear_ignore_attr missing_x_fixture = Raise KeyError
  ∧ KeyError = KeyError
  ∧ ∃ n a, node_attrs missing_x_fixture n = Some a
           ∧ (a !! "t" = None ∨ a !! "x" = None).
Proof.
  split; [vm_compute; reflexivity|].
  apply (add_appear_ignore_attr_failure missing_x_fixture KeyError).
  vm_compute. reflexivity.
Defined.

(** X17. The appear-ignore pass succeeds on every graph whose nodes all
    have a [t] and an [x], be their values integers, floats or
    booleans. *)
Theorem add_appear_ignore_attr_succeeds (cand_graph : DiGraph) :
  (∀ n a, node_attrs cand_graph n = Some a → is_Some (a !! "t") ∧ is_Some (a !! "x")) →
  ∃ G', add_appear_ignore_attr cand_graph = Ok G'.
Proof. apply add_appear_ignore_attr_Ok. Qed.

Lemma add_appear_ignore_attr_succeeds_witness :
  ∃ G', add_appear_ignore_attr appear_fixture = Ok G'.
Proof.
  apply (add_appear_ignore_attr_succeeds appear_fixture).
  intros n a. unfold node_attrs, appear_fixture. simpl.
  repeat case_decide; intros; simplify_eq; split; by eexists.
Defined.

Lemma alist_ext {K V : Type} `{EqDecision K} (l1 l2 : list (K * V)) :
  l1.*1 = l2.*1 → NoDup l1.*1 →
  (∀ k, alist_lookup k l1 = alist_lookup k l2) → l1 = l2.
Proof.
  revert l2. induction l1 as [|[k v] l1 IH]; intros [|[k' v'] l2]; simpl; try done.
  intros [= <- Hk] [Hnot Hnd]%NoDup_cons Hl. f_equal.
  - specialize (Hl k). simpl in Hl. rewrite !decide_True in Hl by done. congruence.
  - apply IH; [done..|]. intros k0. specialize (Hl k0). simpl in Hl.
    destruct (decide (k = k0)) as [<-|]; [|done].
    assert (alist_lookup k l1 = None) as -> by (by apply alist_lookup_None).
    symmetry. apply alist_lookup_None. intros Hin. apply Hnot.
    exact (eq_ind_r (λ l, k ∈ l) Hin Hk).
Qed.

(** X18. Running the appear-ignore pass a second time changes nothing: on
    a graph without repeated node ids, the graph it returns is returned
    unchanged by a second run. *)
Theorem add_appear_ignore_attr_idempotent (cand_graph G1 : DiGraph) :
  NoDup (nodes cand_graph).*1 →
  add_appear_ignore_attr cand_graph = Ok G1 →
  add_appear_ignore_attr G1 = Ok G1.
Proof.
  intros Hnd Hrun.
  pose proof (add_appear_ignore_attr_prefix _ _ _ Hrun) as [_ Hsame].
  pose proof (add_appear_ignore_attr_lookup _ _ Hrun) as (Hk1 & He1 & Hl1).
  destruct (add_appear_ignore_attr_Ok G1) as [G2 Hrun2].
  { intros n a1 Ha1. destruct (Hsame n) as [Hsome Htx].
    destruct (proj1 Hsome (ex_intro _ a1 Ha1)) as [a Ha].
    destruct (Htx a1 a Ha1 Ha) as [-> ->].
    assert (n ∈ (nodes cand_graph).*1) as Hn.
    { apply alist_lookup_is_Some. unfold node_attrs in Ha. by rewrite Ha. }
    apply list_elem_of_split in Hn as (l1 & l2 & Hl).
    unfold add_appear_ignore_attr in Hrun. rewrite Hl, for_each_app in Hrun.
    destruct (for_each add_appear_ignore_attr_step l1 cand_graph) as [Gm|] eqn:Hm;
      simpl in Hrun; [|done].
    destruct (add_appear_ignore_attr_step Gm n) as [Gm'|] eqn:Hstep;
      simpl in Hrun; [|done].
    pose proof (add_appear_ignore_attr_prefix _ _ _ Hm) as [_ Hsm].
    destruct (Hsm n) as [Hsome' Htx'].
    destruct (proj2 Hsome' (ex_intro _ a Ha)) as [am Ham].
    destruct (Htx' am a Ham Ha) as [<- <-].
    unfold add_appear_ignore_attr_step, nodes_getitem, getitem in Hstep.
    rewrite Ham in Hstep. simpl in Hstep.
    destruct (am !! "t"); simpl in Hstep; [|done].
    destruct (am !! "x"); simpl in Hstep; [|done]. split; by eexists. }
  rewrite Hrun2. f_equal.
  pose proof (add_appear_ignore_attr_lookup _ _ Hrun2) as (Hk2 & He2 & Hl2).
  destruct G1 as [n1 e1], G2 as [n2 e2]. simpl in *. f_equal; [|done].
  apply alist_ext; [done| congruence |].
  intros k. specialize (Hl2 k). specialize (Hl1 k). unfold node_attrs in *. simpl in *.
  rewrite Hl2, Hl1. destruct (alist_lookup k (nodes cand_graph)); simpl; [|done].
  by rewrite appear_tag_idemp.
Qed.

Lemma add_appear_ignore_attr_idempotent_witness :
  ∃ G1, add_appear_ignore_attr appear_fixture = Ok G1
        ∧ add_appear_ignore_attr G1 = Ok G1.
Proof.
  destruct (add_appear_ignore_attr appear_fixture) as [G1|] eqn:Hrun;
    [|vm_compute in Hrun; discriminate].
  exists G1. split; [done|].
  apply (add_appear_ignore_attr_idempotent appear_fixture G1); [|exact Hrun].
  refine (bool_decide_unpack _ _). vm_compute. exact I.
Defined.

(** ** The drift-distance tagger: success and sign *)

Lemma add_drift_dist_attr_Ok G dr :
  (∀ u v, (u, v) ∈ (edges G).*1 →
     (∃ pu, pos_of_node G u pu) ∧ ∃ pv, pos_of_node G v pv) →
  ∃ G', add_drift_dist_attr G dr = Ok G'.
Proof.
  intros Hpos.
  destruct (for_each_Ok (add_drift_dist_attr_step dr)
    (λ G1, nodes G1 = nodes G ∧ (edges G1).*1 = (edges G).*1) (edges G).*1 G)
    as (G' & Hrun & _); [done| |by exists G'].
  intros G1 [u v] Hin [Hn He].
  destruct (Hpos u v Hin) as [(pu & au & Hau & Hpu) (pv & av & Hav & Hpv)].
  destruct (proj2 (alist_lookup_is_Some (u, v) (edges G1))) as [a Ha]; [by rewrite He|].
  unfold add_drift_dist_attr_step, nodes_getitem, set_edge_attr, edges_getitem,
    node_attrs, edge_attrs in *.
  rewrite Hn, Hau. simpl. rewrite Hpu. simpl. rewrite Hav. simpl. rewrite Hpv. simpl.
  rewrite Ha. simpl. eexists. split; [done|]. simpl. split; [done|].
  by rewrite alist_alter_keys.
Qed.

(** Every edge after [add_cand_edges] is an edge from before or joins two
    nodes with positions. *)
Lemma add_cand_edges_positions G D G' :
  add_cand_edges G D = Ok G' →
  ∀ e, e ∈ (edges G').*1 → e ∈ (edges G).*1 ∨ within_distance G D e.1 e.2.
Proof.
  intros (d & frame0 & prev0 & ptree0 & prev & ptree
          & Hd & Hf0 & Hp0 & Hk & Hloop)%add_cand_edges_run.
  cut (nodes G' = nodes G ∧ Forall2 (pos_of_node G) prev ptree
       ∧ ∀ e, e ∈ (edges G').*1 → e ∈ (edges G).*1 ∨ within_distance G D e.1 e.2).
  { intros (_ & _ & He). done. }
  refine (for_each_inv _
    (λ st : DiGraph * list Z * list (float * float),
       nodes st.1.1 = nodes G ∧ Forall2 (pos_of_node G) st.1.2 st.2
       ∧ ∀ e, e ∈ (edges st.1.1).*1 → e ∈ (edges G).*1 ∨ within_distance G D e.1 e.2)
    _ _ (G', prev, ptree) _ _ Hloop).
  - split; [done|]. split; [by apply create_kdtree_spec|]. by left.
  - intros [[G1 prev1] ptree1] frame [[G2 prev2] ptree2] _ (Hn1 & Hp1 & He1) Hstep.
    simpl in *.
    destruct (add_cand_edges_step_iff _ _ _ _ _ _ _ _ _ _ Hn1 Hp1 Hstep)
      as (Hn2 & Hp2 & _ & [(_ & -> & ->)|[_ He2]]); [done|].
    split; [done|]. split; [done|].
    intros e [He|(_ & _ & He)]%He2; [by apply He1 | by right].
Qed.

(** X19. The drift pass cannot fail on what [add_cand_edges] returns for
    a graph without edges: every candidate edge joins two nodes that have
    positions, so a [drift_dist] is computed for each. *)
Theorem add_drift_dist_attr_after_cand_edges (cand_graph G' : DiGraph)
    (max_edge_distance : float) (drift : float * float) :
  edges cand_graph = [] →
  add_cand_edges cand_graph max_edge_distance = Ok G' →
  ∃ G'', add_drift_dist_attr G' drift = Ok G''.
Proof.
  intros Hedges Hrun. apply add_drift_dist_attr_Ok. intros u v Huv.
  destruct (add_cand_edges_plain_extension _ _ _ Hrun) as [Hn _].
  destruct (add_cand_edges_positions _ _ _ Hrun (u, v) Huv)
    as [Hold|(pu & pv & Hpu & Hpv & _)].
  { rewrite Hedges in Hold. by apply elem_of_nil in Hold. }
  unfold pos_of_node, node_attrs in *. rewrite Hn. eauto.
Qed.

Lemma add_drift_dist_attr_after_cand_edges_witness :
  ∃ G' G'', add_cand_edges chain_fixture 50 = Ok G'
            ∧ add_drift_dist_attr G' drift = Ok G''.
Proof.
  destruct (add_cand_edges chain_fixture 50) as [G'|] eqn:Hrun;
    [|vm_compute in Hrun; discriminate].
  destruct (add_drift_dist_attr_after_cand_edges chain_fixture G' 50 drift eq_refl Hrun)
    as [G'' Hdrift].
  by exists G', G''.
Defined.

(** A square root is not below zero. *)
Lemma sqrt_not_negative (f : float) : PrimFloat.ltb (PrimFloat.sqrt f) 0 = false.
Proof.
  rewrite ltb_spec, sqrt_spec. change (Prim2SF 0) with (S754_zero false).
  assert (Hround : ∀ m e l, SFltb (binary_round_aux prec emax false m e l)
                              (S754_zero false) = false).
  { intros m e l. unfold binary_round_aux.
    destruct (shr_fexp prec emax m e l) as [mrs' e'].
    destruct (shr_fexp prec emax _ e' loc_Exact) as [mrs'' e''].
    destruct (shr_m mrs''); [done| |done]. by destruct (_ <=? _)%Z. }
  unfold SF64sqrt, SFsqrt. destruct (Prim2SF f) as [s|[|]| |[|] m e]; try done.
  destruct (SFsqrt_core_binary prec emax (Z.pos m) e) as [[mz ez] lz]. apply Hround.
Qed.

(** X20. The [drift_dist] that the drift pass stores on an edge is never
    below zero. *)
Theorem add_drift_dist_attr_not_negative (cand_graph G' : DiGraph) (d : float * float)
    (e : Z * Z) (a : gmap string value) :
  add_drift_dist_attr cand_graph d = Ok G' →
  edge_attrs G' e = Some a →
  ∃ f, a !! "drift_dist" = Some (VFloat f) ∧ PrimFloat.ltb f 0 = false.
Proof.
  intros (Hn & Hk & Hd & Hl)%add_drift_dist_attr_lookup Ha.
  rewrite Hl in Ha. destruct (edge_attrs cand_graph e) as [a0|] eqn:Ha0; [|done].
  simpl in Ha. injection Ha as <-.
  destruct (Hd e) as [f Hf].
  { apply alist_lookup_is_Some. unfold edge_attrs in Ha0. by rewrite Ha0. }
  unfold drift_tag. rewrite Hf. exists f. split; [apply lookup_insert_eq|].
  unfold drift_dist_of in Hf.
  destruct (node_attrs cand_graph e.1) as [au|]; simpl in Hf; [|done].
  destruct (node_attrs cand_graph e.2) as [av|]; simpl in Hf; [|done].
  destruct (node_pos au), (node_pos av); try done. injection Hf as <-.
  apply sqrt_not_negative.
Qed.

Lemma add_drift_dist_attr_not_negative_witness :
  ∃ G' a f, add_drift_dist_attr drift_fixture drift = Ok G'
    ∧ edge_attrs G' (1, 3)%Z = Some a
    ∧ a !! "drift_dist" = Some (VFloat f) ∧ PrimFloat.ltb f 0 = false.
Proof.
  destruct (add_drift_dist_attr drift_fixture drift) as [G'|] eqn:Hrun;
    [|vm_compute in Hrun; discriminate].
  destruct (edge_attrs G' (1, 3)%Z) as [a|] eqn:Ha.
  - destruct (add_drift_dist_attr_not_negative drift_fixture G' drift (1, 3)%Z a Hrun Ha)
      as (f & Hf & Hsign).
    by exists G', a, f.
  - vm_compute in Hrun. injection Hrun as <-. vm_compute in Ha. discriminate.
Defined.

(** ** The lookup at the border of the image *)

Lemma np_getitem_negative {A : Type} (a : list A) (i : Z) (v : A) :
  (- Z.of_nat (length a) ≤ i < 0)%Z →
  a !! Z.to_nat (Z.of_nat (length a) + i) = Some v →
  np_getitem a i = Ok v.
Proof.
  intros Hi Hv. apply np_getitem_Ok. exists (Z.to_nat (Z.of_nat (length a) + i)).
  split; [|done]. unfold np_index.
  assert ((i <? 0)%Z = true) as -> by lia.
  assert ((0 <=? i + Z.of_nat (length a))%Z && (i + Z.of_nat (length a) <? Z.of_nat (length a))%Z
          = true) as -> by (apply andb_true_iff; lia).
  f_equal. lia.
Qed.

Lemma np_getitem_out_of_range {A : Type} (a : list A) (i : Z) :
  (i < - Z.of_nat (length a) ∨ Z.of_nat (length a) ≤ i)%Z →
  np_getitem a i = Raise IndexError.
Proof.
  intros Hi. unfold np_getitem, np_index.
  destruct (i <? 0)%Z eqn:Hneg.
  - assert ((0 <=? i + Z.of_nat (length a))%Z && (i + Z.of_nat (length a) <? Z.of_nat (length a))%Z
            = false) as -> by (apply andb_false_iff; lia).
    done.
  - assert ((0 <=? i)%Z && (i <? Z.of_nat (length a))%Z = false) as ->
      by (apply andb_false_iff; lia).
    done.
Qed.

(** X21. A ground-truth node whose [x], cut by [int], is negative is not
    refused: as long as it is no further above the image than the image
    is high, the lookup counts the row from the far end of the frame and
    returns the label found there. *)
Theorem get_cand_id_negative_wraps (gt_track : DiGraph) (cand_segmentation : ndarray3)
    (gt_node : Z) (data : gmap string value) (t j : nat) (x y : value) (ix : Z)
    (frame : ndarray2) (row : list Z) (v : Z) :
  node_attrs gt_track gt_node = Some data →
  data !! "t" = Some (VInt (Z.of_nat t)) →
  data !! "x" = Some x → data !! "y" = Some y →
  py_int x = Ok ix → py_int y = Ok (Z.of_nat j) →
  cand_segmentation !! t = Some frame →
  (- Z.of_nat (length frame) ≤ ix < 0)%Z →
  frame !! Z.to_nat (Z.of_nat (length frame) + ix) = Some row →
  row !! j = Some v →
  get_cand_id gt_node gt_track cand_segmentation = Ok v.
Proof.
  intros Hdata Ht Hx Hy Hix Hiy Hframe Hneg Hrow Hv.
  unfold get_cand_id, nodes_getitem, getitem. rewrite Hdata. simpl.
  rewrite Ht, Hx. simpl. rewrite Hix. simpl.
  rewrite (np_getitem_in_range _ _ _ Hframe). simpl.
  rewrite (np_getitem_negative _ _ _ Hneg Hrow). simpl.
  rewrite Hy. simpl. rewrite Hiy. simpl.
  by apply np_getitem_in_range.
Qed.

Lemma get_cand_id_negative_wraps_witness :
  get_cand_id 1 above_fixture_graph lookup_fixture_seg = Ok 9%Z.
Proof.
  eapply (get_cand_id_negative_wraps above_fixture_graph lookup_fixture_seg 1
            _ 0 1 (VFloat (-1.5)) (VFloat 1.25) (-1)).
  - reflexivity.
  - vm_compute. reflexivity.
  - vm_compute. reflexivity.
  - vm_compute. reflexivity.
  - vm_compute. reflexivity.
  - vm_compute. reflexivity.
  - reflexivity.
  - simpl. lia.
  - reflexivity.
  - reflexivity.
Defined.

(** X22. A ground-truth node whose [x], cut by [int], is at or beyond the
    number of rows of its frame, or further above the image than the
    image is high, makes the lookup raise [IndexError]. *)
Theorem get_cand_id_index_error (gt_track : DiGraph) (cand_segmentation : ndarray3)
    (gt_node : Z) (data : gmap string value) (t : nat) (x : value) (ix : Z)
    (frame : ndarray2) :
  node_attrs gt_track gt_node = Some data →
  data !! "t" = Some (VInt (Z.of_nat t)) → data !! "x" = Some x →
  py_int x = Ok ix →
  cand_segmentation !! t = Some frame →
  (ix < - Z.of_nat (length frame) ∨ Z.of_nat (length frame) ≤ ix)%Z →
  get_cand_id gt_node gt_track cand_segmentation = Raise IndexError.
Proof.
  intros Hdata Ht Hx Hix Hframe Hout.
  unfold get_cand_id, nodes_getitem, getitem. rewrite Hdata. simpl.
  rewrite Ht, Hx. simpl. rewrite Hix. simpl.
  rewrite (np_getitem_in_range _ _ _ Hframe). simpl.
  by rewrite (np_getitem_out_of_range _ _ Hout).
Qed.

Lemma get_cand_id_index_error_witness :
  get_cand_id 1 below_fixture_graph lookup_fixture_seg = Raise IndexError.
Proof.
  eapply (get_cand_id_index_error below_fixture_graph lookup_fixture_seg 1
            _ 0 (VFloat 4.5) 4).
  - reflexivity.
  - vm_compute. reflexivity.
  - vm_compute. reflexivity.
  - vm_compute. reflexivity.
  - reflexivity.
  - simpl. lia.
Defined.

(** ** The annotator: failure *)

(** X23. When the lookup of some ground-truth node fails, the annotation
    fails with it: [add_gt_annotations] raises an exception and returns
    no graph. *)
Theorem add_gt_annotations_lookup_failure (gt_tracks cand_graph : DiGraph)
    (segmentation : ndarray3) (g : Z) (e : exn) :
  g ∈ (nodes gt_tracks).*1 →
  get_cand_id g gt_tracks segmentation = Raise e →
  ∃ e', add_gt_annotations gt_tracks cand_graph segmentation = Raise e'.
Proof.
  intros (l1 & l2 & Hl)%list_elem_of_split Hg. unfold add_gt_annotations.
  rewrite Hl, for_each_app.
  destruct (for_each _ l1 cand_graph) as [G1|e1]; simpl; [|by eexists].
  assert (annotate_gt_node gt_tracks segmentation G1 g = Raise e) as ->.
  { unfold annotate_gt_node. by rewrite Hg. }
  simpl. by eexists.
Qed.

Lemma add_gt_annotations_lookup_failure_witness :
  ∃ e', add_gt_annotations below_fixture_graph annotator_cand lookup_fixture_seg
        = Raise e'.
Proof.
  apply (add_gt_annotations_lookup_failure below_fixture_graph annotator_cand
           lookup_fixture_seg 1 IndexError).
  - by left.
  - vm_compute. reflexivity.
Defined.

(** ** The annotator: the edges *)

Lemma set_edge_attr_spec G e k v G' :
  set_edge_attr G e k v = Ok G' →
  nodes G' = nodes G ∧ (edges G').*1 = (edges G).*1
  ∧ ∀ e', edge_attrs G' e'
          = if decide (e = e') then <[k := v]> <$> edge_attrs G e' else edge_attrs G e'.
Proof.
  unfold set_edge_attr, edges_getitem.
  destruct (edge_attrs G e); simpl; [|done]. intros [= <-]. simpl.
  split; [done|]. split; [apply alist_alter_keys|]. intros e'.
  unfold edge_attrs. simpl. apply alist_lookup_alter.
Qed.

(** The loop over the candidate successors of a matched node [c]. *)
Lemma mark_successors_spec (c : Z) (matches succs : list Z) G G' :
  for_each (λ cand_graph succ,
      set_edge_attr cand_graph (c, succ) "gt" (VBool (bool_decide (succ ∈ matches))))
    succs G = Ok G' →
  nodes G' = nodes G ∧ (edges G').*1 = (edges G).*1
  ∧ ∀ e, edge_attrs G' e
         = if decide (e.1 = c ∧ e.2 ∈ succs)
           then <["gt" := VBool (bool_decide (e.2 ∈ matches))]> <$> edge_attrs G e
           else edge_attrs G e.
Proof.
  intros Hrun.
  pose (I := λ (l1 : list Z) (Gx : DiGraph),
    nodes Gx = nodes G ∧ (edges Gx).*1 = (edges G).*1
    ∧ ∀ e, edge_attrs Gx e
           = if decide (e.1 = c ∧ e.2 ∈ l1)
             then <["gt" := VBool (bool_decide (e.2 ∈ matches))]> <$> edge_attrs G e
             else edge_attrs G e).
  refine (for_each_ind _ I succs G G' _ _ Hrun).
  - split; [done|]. split; [done|]. intros e. rewrite decide_False; [done|].
    intros [_ []%elem_of_nil].
  - intros l1 s l2 G1 G2 _ (Hn & Hk & Hl) (Hn2 & Hk2 & Hl2)%set_edge_attr_spec.
    split; [congruence|]. split; [congruence|]. intros [eu ev]. rewrite Hl2, Hl. simpl.
    destruct (decide ((c, s) = (eu, ev))) as [[= <- <-]|Hne].
    + rewrite (decide_True (P := c = c ∧ s ∈ (l1 ++ [s])%list))
        by (split; [done|apply elem_of_app; right; by left]).
      destruct (decide (c = c ∧ s ∈ l1)); [|done].
      destruct (edge_attrs G (c, s)); simpl; [|done]. by rewrite insert_insert_eq.
    + destruct (decide (eu = c ∧ ev ∈ l1)) as [[-> Hin]|Hno].
      * rewrite decide_True; [done|]. split; [done|]. apply elem_of_app. by left.
      * rewrite decide_False; [done|].
        intros [-> [Hin| ->%list_elem_of_singleton]%elem_of_app]; [by apply Hno|done].
Qed.

Lemma successors_elem G u v : v ∈ successors G u ↔ (u, v) ∈ (edges G).*1.
Proof.
  unfold successors. rewrite list_elem_of_fmap. split.
  - intros ([u' v'] & -> & [Hu Hin]%list_elem_of_filter). simpl in *. by subst.
  - intros Hin. exists (u, v). split; [done|]. by apply list_elem_of_filter.
Qed.

Lemma annotate_gt_node_edges gt_tracks segmentation G g G' :
  annotate_gt_node gt_tracks segmentation G g = Ok G' →
  (nodes G').*1 = (nodes G).*1 ∧ (edges G').*1 = (edges G).*1
  ∧ ∀ u v, edge_attrs G' (u, v)
           = gt_edge (mark_of_turn gt_tracks G segmentation g u v) <$> edge_attrs G (u, v).
Proof.
  unfold annotate_gt_node, mark_of_turn.
  destruct (get_cand_id g gt_tracks segmentation) as [c|]; simpl; [|done].
  destruct (bool_decide_reflect (c ≠ 0%Z)) as [Hc|Hc]; simpl.
  - destruct (has_node G c) eqn:Hhas.
    + destruct (set_node_attr G c "gt" (VBool true)) as [G1|] eqn:Hset; simpl; [|done].
      unfold gt_succ_matches_of.
      destruct (list_comp _ _) as [matches|]; simpl; [|done].
      apply set_node_attr_spec in Hset as (Hk1 & He1 & _).
      intros (Hn & Hk & Hl)%mark_successors_spec.
      split; [by rewrite Hn|]. split; [by rewrite Hk, He1|]. intros u v.
      rewrite Hl. simpl. unfold edge_attrs. rewrite He1. fold (edge_attrs G (u, v)).
      destruct (decide (u = c ∧ v ∈ successors G1 c)) as [[-> Hv]|Hno].
      * rewrite (bool_decide_eq_true_2 (c = c ∧ c ≠ 0%Z))
          by (split; [reflexivity | exact Hc]).
        by rewrite Hhas.
      * destruct (bool_decide_reflect (c = u ∧ u ≠ 0%Z)) as [[<- _]|]; simpl.
        -- rewrite Hhas. destruct (edge_attrs G (c, v)) as [a|] eqn:Ha; [|done].
           destruct Hno. split; [done|]. apply successors_elem. rewrite He1.
           apply alist_lookup_is_Some. unfold edge_attrs in Ha. by rewrite Ha.
        -- by destruct (edge_attrs G (u, v)).
    + intros [= <-]. split; [done|]. split; [done|]. intros u v.
      destruct (bool_decide_reflect (c = u ∧ u ≠ 0%Z)) as [[<- _]|]; simpl.
      * rewrite Hhas. by destruct (edge_attrs G (c, v)).
      * by destruct (edge_attrs G (u, v)).
  - intros [= <-]. split; [done|]. split; [done|]. intros u v.
    rewrite (bool_decide_eq_false_2 (c = u ∧ u ≠ 0%Z)) by (intros [-> ?]; tauto). simpl.
    by destruct (edge_attrs G (u, v)).
Qed.

Lemma edge_mark_snoc gt_tracks cand_graph segmentation gs g u v :
  edge_mark gt_tracks cand_graph segmentation (gs ++ [g]) u v
  = match mark_of_turn gt_tracks cand_graph segmentation g u v with
    | Some b => Some b
    | None => edge_mark gt_tracks cand_graph segmentation gs u v
    end.
Proof.
  unfold edge_mark, mark_of_turn. rewrite foldl_app. simpl.
  destruct (get_cand_id g gt_tracks segmentation); [|done]. by destruct (_ && _).
Qed.

Lemma mark_of_turn_keys gt_tracks G cand_graph segmentation g u v :
  (nodes G).*1 = (nodes cand_graph).*1 →
  mark_of_turn gt_tracks G segmentation g u v
  = mark_of_turn gt_tracks cand_graph segmentation g u v.
Proof. intros Hk. unfold mark_of_turn, has_node. by rewrite Hk. Qed.

Lemma gt_edge_twice m1 m2 a :
  gt_edge m2 (gt_edge m1 a) = gt_edge (match m2 with Some b => Some b | None => m1 end) a.
Proof. destruct m1, m2; simpl; try done. apply insert_insert_eq. Qed.

(** The edges after the loop over the ground-truth nodes. *)
Lemma annotate_gt_nodes_edges gt_tracks segmentation cand_graph G1 :
  for_each (annotate_gt_node gt_tracks segmentation) (nodes gt_tracks).*1 cand_graph
  = Ok G1 →
  ∀ u v, edge_attrs G1 (u, v)
         = gt_edge (edge_mark gt_tracks cand_graph segmentation (nodes gt_tracks).*1 u v)
           <$> edge_attrs cand_graph (u, v).
Proof.
  intros Hrun.
  pose (I := λ (l1 : list Z) (Gx : DiGraph),
    (nodes Gx).*1 = (nodes cand_graph).*1
    ∧ ∀ u v, edge_attrs Gx (u, v)
             = gt_edge (edge_mark gt_tracks cand_graph segmentation l1 u v)
               <$> edge_attrs cand_graph (u, v)).
  cut (I (nodes gt_tracks).*1 G1); [by intros [_ ?]|].
  refine (for_each_ind _ I _ cand_graph G1 _ _ Hrun).
  - split; [done|]. intros u v. simpl. by destruct (edge_attrs cand_graph (u, v)).
  - intros l1 g l2 Gx Gy _ [Hk Hl] (Hk2 & _ & Hl2)%annotate_gt_node_edges.
    split; [congruence|]. intros u v.
    rewrite Hl2, Hl, edge_mark_snoc, (mark_of_turn_keys _ Gx cand_graph) by done.
    destruct (edge_attrs cand_graph (u, v)); simpl; [|done]. by rewrite gt_edge_twice.
Qed.

Lemma edge_mark_None gt_tracks cand_graph segmentation gs u v :
  u ∈ (nodes cand_graph).*1 →
  edge_mark gt_tracks cand_graph segmentation gs u v = None
  ↔ matched_by gt_tracks segmentation gs u = false.
Proof.
  intros Hu%has_node_true.
  induction gs as [|g gs IH] using rev_ind; [done|].
  rewrite edge_mark_snoc.
  assert (Hm : matched_by gt_tracks segmentation (gs ++ [g]) u
               = matched_by gt_tracks segmentation gs u
                 || match get_cand_id g gt_tracks segmentation with
                    | Ok c => bool_decide (c = u ∧ u ≠ 0%Z)
                    | Raise _ => false
                    end).
  { unfold matched_by. rewrite existsb_app. simpl. by rewrite orb_false_r. }
  rewrite Hm. unfold mark_of_turn. rewrite Hu.
  destruct (get_cand_id g gt_tracks segmentation) as [c|];
    [|by rewrite orb_false_r].
  destruct (bool_decide (c = u ∧ u ≠ 0%Z)); simpl.
  - rewrite orb_true_r. done.
  - by rewrite orb_false_r.
Qed.

Lemma edge_mark_true gt_tracks cand_graph segmentation gs u v :
  edge_mark gt_tracks cand_graph segmentation gs u v = Some true →
  ∃ g, g ∈ gs ∧ get_cand_id g gt_tracks segmentation = Ok u
       ∧ v ∈ gt_succ_matches_of gt_tracks segmentation g.
Proof.
  induction gs as [|g gs IH] using rev_ind; [done|].
  rewrite edge_mark_snoc. unfold mark_of_turn.
  assert (Hold : edge_mark gt_tracks cand_graph segmentation gs u v = Some true →
                 ∃ g0, g0 ∈ (gs ++ [g])%list ∧ get_cand_id g0 gt_tracks segmentation = Ok u
                       ∧ v ∈ gt_succ_matches_of gt_tracks segmentation g0).
  { intros (g0 & Hin & Hrest)%IH. exists g0. split; [apply elem_of_app; by left | done]. }
  destruct (get_cand_id g gt_tracks segmentation) as [c|] eqn:Hc; [|done].
  destruct (bool_decide_reflect (c = u ∧ u ≠ 0%Z)) as [[-> _]|]; simpl; [|done].
  destruct (has_node cand_graph u); [|done].
  intros [= Hv%bool_decide_eq_true]. exists g.
  split; [apply elem_of_app; right; by left | done].
Qed.

Lemma gt_succ_matches_of_elem gt_tracks segmentation g v :
  v ∈ gt_succ_matches_of gt_tracks segmentation g →
  ∃ g', (g, g') ∈ (edges gt_tracks).*1 ∧ get_cand_id g' gt_tracks segmentation = Ok v.
Proof.
  unfold gt_succ_matches_of.
  destruct (list_comp _ _) as [l|] eqn:Hl; [|by intros ?%elem_of_nil].
  apply list_comp_Forall2 in Hl. intros [i Hi]%list_elem_of_lookup.
  destruct (Forall2_lookup_r _ _ _ _ _ Hl Hi) as (g' & Hg' & Hget).
  exists g'. split; [|done]. apply successors_elem. by eapply list_elem_of_lookup_2.
Qed.

(** X24. After the annotation, a candidate edge that leaves a node to
    which no ground-truth node is matched is as it was: it gets no [gt]
    at all.  An edge that leaves a matched node gets a boolean [gt], and
    this is [True] only when some ground-truth edge is matched to it end
    by end. *)
Theorem add_gt_annotations_edges (gt_tracks cand_graph G' : DiGraph)
    (segmentation : ndarray3) (u v : Z) (a : gmap string value) :
  add_gt_annotations gt_tracks cand_graph segmentation = Ok G' →
  u ∈ (nodes cand_graph).*1 →
  edge_attrs cand_graph (u, v) = Some a →
  (matched_by gt_tracks segmentation (nodes gt_tracks).*1 u = false →
   edge_attrs G' (u, v) = Some a)
  ∧ (matched_by gt_tracks segmentation (nodes gt_tracks).*1 u = true →
     ∃ b, edge_attrs G' (u, v) = Some (<["gt" := VBool b]> a)
       ∧ (b = true →
          ∃ g g', (g, g') ∈ (edges gt_tracks).*1
                  ∧ get_cand_id g gt_tracks segmentation = Ok u
                  ∧ get_cand_id g' gt_tracks segmentation = Ok v)).
Proof.
  unfold add_gt_annotations.
  destruct (for_each _ (nodes gt_tracks).*1 cand_graph) as [G1|] eqn:Hloop1; simpl; [|done].
  intros Hloop2 Hu Ha.
  assert (He : edges G' = edges G1).
  { refine (for_each_inv _ (λ Gx, edges Gx = edges G1) _ _ _ _ _ Hloop2); [done|].
    intros Gx n Gy _ Hx (_ & Hy & _)%default_gt_node_spec. congruence. }
  pose proof (annotate_gt_nodes_edges _ _ _ _ Hloop1 u v) as Hl.
  unfold edge_attrs in *. rewrite He, Hl, Ha. simpl.
  destruct (edge_mark gt_tracks cand_graph segmentation (nodes gt_tracks).*1 u v)
    as [b|] eqn:Hmark.
  - split.
    + intros Hno%(edge_mark_None gt_tracks cand_graph segmentation _ u v Hu). congruence.
    + intros _. exists b. split; [done|]. intros ->.
      apply edge_mark_true in Hmark as (g & _ & Hg & (g' & Hgg' & Hg')%gt_succ_matches_of_elem).
      by exists g, g'.
  - split; [done|].
    apply (edge_mark_None gt_tracks cand_graph segmentation _ u v Hu) in Hmark. congruence.
Qed.

Lemma add_gt_annotations_edges_witness :
  ∃ G', add_gt_annotations linked_gt linked_cand linked_seg = Ok G'
    ∧ (matched_by linked_gt linked_seg (nodes linked_gt).*1 7 = false →
       edge_attrs G' (7, 8)%Z = Some ∅)
    ∧ (matched_by linked_gt linked_seg (nodes linked_gt).*1 7 = true →
       ∃ b, edge_attrs G' (7, 8)%Z = Some (<["gt" := VBool b]> ∅)
         ∧ (b = true →
            ∃ g g', (g, g') ∈ (edges linked_gt).*1
                    ∧ get_cand_id g linked_gt linked_seg = Ok 7%Z
                    ∧ get_cand_id g' linked_gt linked_seg = Ok 8%Z)).
Proof.
  destruct (add_gt_annotations linked_gt linked_cand linked_seg) as [G'|] eqn:Hrun;
    [|vm_compute in Hrun; discriminate].
  exists G'. split; [done|].
  apply (add_gt_annotations_edges linked_gt linked_cand G' linked_seg 7 8 ∅ Hrun).
  - by left.
  - reflexivity.
Defined.

(** ** The annotator: counting the labelled nodes *)

Lemma alist_lookup_fmap_values {K V : Type} `{EqDecision K} (f : K → V → V)
    (l : list (K * V)) k :
  alist_lookup k ((λ kv, (kv.1, f kv.1 kv.2)) <$> l) = f k <$> alist_lookup k l.
Proof.
  induction l as [|[k' v] l IH]; simpl; [done|].
  destruct (decide (k' = k)) as [->|]; [done | apply IH].
Qed.

(** With distinct ids, the nodes after the annotation are the nodes
    before, each with its [gt]. *)
Lemma add_gt_annotations_nodes gt_tracks cand_graph segmentation G' :
  NoDup (nodes cand_graph).*1 →
  add_gt_annotations gt_tracks cand_graph segmentation = Ok G' →
  nodes G'
  = (λ na, (na.1, gt_default (gt_true (matched_by gt_tracks segmentation
                                          (nodes gt_tracks).*1 na.1) na.2)))
    <$> nodes cand_graph.
Proof.
  intros Hnd (Hk & _ & Hl)%add_gt_annotations_lookup.
  apply alist_ext.
  - rewrite Hk, <- list_fmap_compose. by apply list_fmap_ext.
  - by rewrite Hk.
  - intros k. specialize (Hl k). unfold node_attrs in Hl. rewrite Hl.
    by rewrite (alist_lookup_fmap_values
                  (λ n a, gt_default (gt_true (matched_by gt_tracks segmentation
                                                 (nodes gt_tracks).*1 n) a))).
Qed.

Lemma gt_label a (b : bool) :
  a !! "gt" = None → gt_default (gt_true b a) !! "gt" = Some (VBool b).
Proof.
  intros Ha. unfold gt_true, gt_default. destruct b.
  - rewrite bool_decide_eq_true_2 by (rewrite lookup_insert_eq; by eexists).
    apply lookup_insert_eq.
  - rewrite bool_decide_eq_false_2 by (rewrite Ha; by intros [? ?]).
    apply lookup_insert_eq.
Qed.

Lemma filter_fmap_keys {A B : Type} (P : A → Prop) `{∀ x, Decision (P x)}
    (Q : B → Prop) `{∀ x, Decision (Q x)} (f : A → A) (key : A → B) (l : list A) :
  (∀ x, x ∈ l → key (f x) = key x ∧ (P (f x) ↔ Q (key x))) →
  key <$> filter P (f <$> l) = filter Q (key <$> l).
Proof.
  induction l as [|x l IH]; intros Hall; [done|].
  rewrite !fmap_cons, !filter_cons.
  destruct (Hall x) as [Hkey Hiff]; [by left|].
  assert (IH' := IH (λ y Hy, Hall y (list_elem_of_further _ _ _ Hy))).
  destruct (decide (P (f x))) as [HP|HP], (decide (Q (key x))) as [HQ|HQ];
    try tauto.
  by rewrite fmap_cons, Hkey, IH'.
Qed.

Lemma length_filter_bool {A : Type} (m : A → bool) (l : list A) :
  (length (filter (λ c, m c = true) l) + length (filter (λ c, m c = false) l))%nat
  = length l.
Proof.
  induction l as [|x l IH]; [done|]. rewrite !filter_cons.
  destruct (decide (m x = true)) as [Ht|Hf], (decide (m x = false)) as [Hf'|Ht'];
    simpl; try lia; [congruence|].
  by destruct (m x).
Qed.

(** X25. After the annotation of a graph with distinct node ids that
    carried no [gt], the positive nodes of the notebook's count are the
    matched candidates and the negative nodes are all the others: every
    node is counted once, as positive or as negative. *)
Theorem add_gt_annotations_counts (gt_tracks cand_graph G' : DiGraph)
    (segmentation : ndarray3) :
  NoDup (nodes cand_graph).*1 →
  (∀ c a, (c, a) ∈ nodes cand_graph → a !! "gt" = None) →
  add_gt_annotations gt_tracks cand_graph segmentation = Ok G' →
  gt_pos_nodes G'
  = filter (λ c, matched_by gt_tracks segmentation (nodes gt_tracks).*1 c = true)
           (nodes cand_graph).*1
  ∧ gt_neg_nodes G'
    = filter (λ c, matched_by gt_tracks segmentation (nodes gt_tracks).*1 c = false)
             (nodes cand_graph).*1
  ∧ (length (gt_pos_nodes G') + length (gt_neg_nodes G'))%nat = length (nodes G').
Proof.
  intros Hnd Hfresh Hrun.
  pose proof (add_gt_annotations_nodes _ _ _ _ Hnd Hrun) as Hnodes.
  set (m := matched_by gt_tracks segmentation (nodes gt_tracks).*1) in *.
  assert (Hpos : gt_pos_nodes G' = filter (λ c, m c = true) (nodes cand_graph).*1).
  { unfold gt_pos_nodes. rewrite Hnodes. apply filter_fmap_keys.
    intros [c a] Hin. split; [done|]. simpl. unfold gt_is.
    rewrite (gt_label a (m c) (Hfresh c a Hin)). by destruct (m c). }
  assert (Hneg : gt_neg_nodes G' = filter (λ c, m c = false) (nodes cand_graph).*1).
  { unfold gt_neg_nodes. rewrite Hnodes. apply filter_fmap_keys.
    intros [c a] Hin. split; [done|]. simpl. unfold gt_is.
    rewrite (gt_label a (m c) (Hfresh c a Hin)). by destruct (m c). }
  split; [done|]. split; [done|].
  rewrite Hpos, Hneg, length_filter_bool, Hnodes. by rewrite !length_fmap.
Qed.

Lemma add_gt_annotations_counts_witness :
  ∃ G', add_gt_annotations annotator_gt annotator_cand lookup_fixture_seg = Ok G'
    ∧ gt_pos_nodes G' = [7]%Z ∧ gt_neg_nodes G' = [9]%Z
    ∧ (length (gt_pos_nodes G') + length (gt_neg_nodes G'))%nat = length (nodes G').
Proof.
  destruct (add_gt_annotations annotator_gt annotator_cand lookup_fixture_seg)
    as [G'|] eqn:Hrun; [|vm_compute in Hrun; discriminate].
  exists G'. split; [done|].
  apply (add_gt_annotations_counts annotator_gt annotator_cand G' lookup_fixture_seg);
    [| |exact Hrun].
  - refine (bool_decide_unpack _ _). vm_compute. exact I.
  - intros c a Hin. unfold annotator_cand in Hin. simpl in Hin.
    repeat (apply elem_of_cons in Hin as [[= -> ->]|Hin]);
      [reflexivity ..|by apply elem_of_nil in Hin].
Defined.

(** ** Ground-truth detections *)

Lemma np_index_functional n i k k' : np_index n i = Ok k → np_index n i = Ok k' → k = k'.
Proof. congruence. Qed.

Lemma covers_snoc rc r c h w i j :
  covers (rc ++ [(r, c)]) h w i j
  = covers rc h w i j
    || match np_index h r, np_index w c with
       | Ok i', Ok j' => bool_decide (i' = i ∧ j' = j)
       | _, _ => false
       end.
Proof. unfold covers. rewrite existsb_app. simpl. by rewrite orb_false_r. Qed.

Lemma rect_insert h w frame i row :
  rect h w frame → length row = w → rect h w (<[i := row]> frame).
Proof.
  intros [Hlen Hrows] Hrow. split; [by rewrite length_insert|].
  apply Forall_insert; done.
Qed.

Lemma rect_lookup h w frame i row : rect h w frame → frame !! i = Some row → length row = w.
Proof. intros [_ Hrows] Hi. by eapply (Forall_lookup_1 _ _ _ _ Hrows). Qed.

(** The pixel [(i, j)] of a frame. *)
Lemma fancy_assign_spec h w frame rc v frame' :
  rect h w frame → fancy_assign frame rc v = Ok frame' →
  rect h w frame'
  ∧ ∀ i j, (frame' !! i ≫= (.!! j))
           = if covers rc h w i j then (frame !! i ≫= (.!! j)) ≫= (λ _, Some v)
             else frame !! i ≫= (.!! j).
Proof.
  intros Hrect Hrun.
  pose (I := λ (l1 : list (Z * Z)) (fx : ndarray2),
    rect h w fx
    ∧ ∀ i j, (fx !! i ≫= (.!! j))
             = if covers l1 h w i j then (frame !! i ≫= (.!! j)) ≫= (λ _, Some v)
               else frame !! i ≫= (.!! j)).
  refine (for_each_ind _ I rc frame frame' _ _ Hrun).
  - split; [done|]. intros i j. done.
  - intros l1 [r c] l2 f1 f2 _ [Hr1 Hpx].
    pose proof Hr1 as [Hlen1 _].
    destruct (np_index (length f1) r) as [i0|] eqn:Hi0; simpl; [|done].
    destruct (np_getitem f1 r) as [row|] eqn:Hrow; simpl; [|done].
    apply np_getitem_Ok in Hrow as (i0' & Hi0' & Hrow).
    rewrite Hi0 in Hi0'. injection Hi0' as <-.
    pose proof (rect_lookup _ _ _ _ _ Hr1 Hrow) as Hw.
    destruct (np_index (length row) c) as [j0|] eqn:Hj0; simpl; [|done].
    intros [= <-]. split.
    { apply rect_insert; [done|]. by rewrite length_insert. }
    intros i j. rewrite covers_snoc. rewrite Hlen1 in Hi0. rewrite Hw in Hj0.
    rewrite Hi0, Hj0. specialize (Hpx i j).
    pose proof (np_index_lt _ _ _ Hi0) as Hi0lt.
    pose proof (np_index_lt _ _ _ Hj0) as Hj0lt.
    destruct (decide (i0 = i)) as [->|Hne].
    + rewrite list_lookup_insert_eq by lia. simpl.
      rewrite Hrow in Hpx. simpl in Hpx.
      destruct (decide (j0 = j)) as [->|Hnej].
      * rewrite list_lookup_insert_eq by lia.
        rewrite bool_decide_eq_true_2 by done. rewrite orb_true_r.
        destruct (lookup_lt_is_Some_2 row j) as [z Hz]; [lia|]. rewrite Hz in Hpx.
        destruct (frame !! i ≫= (.!! j)) as [z0|]; simpl; [done|].
        by destruct (covers l1 h w i j).
      * rewrite list_lookup_insert_ne by done.
        rewrite bool_decide_eq_false_2 by (intros [_ ?]; done).
        by rewrite orb_false_r.
    + rewrite list_lookup_insert_ne by done.
      rewrite bool_decide_eq_false_2 by (intros [? _]; done).
      by rewrite orb_false_r.
Qed.

Lemma pixel_np_zeros (data_shape : nat * nat * nat) (k i j : nat) :
  (k < data_shape.1.1)%nat → (i < data_shape.1.2)%nat → (j < data_shape.2)%nat →
  pixel (np_zeros data_shape) k i j = Some 0%Z.
Proof.
  intros Hk Hi Hj. unfold pixel, np_zeros.
  rewrite lookup_replicate_2 by done. simpl.
  rewrite lookup_replicate_2 by done. simpl.
  by rewrite lookup_replicate_2.
Qed.

Lemma pixel_np_zeros_inv (data_shape : nat * nat * nat) (k i j : nat) (z : Z) :
  pixel (np_zeros data_shape) k i j = Some z → z = 0%Z.
Proof.
  unfold pixel, np_zeros. intros Hpx.
  destruct (replicate _ _ !! k) as [frame|] eqn:Hframe; simpl in Hpx; [|done].
  apply lookup_replicate in Hframe as [-> _].
  destruct (replicate _ _ !! i) as [row|] eqn:Hrow; simpl in Hpx; [|done].
  apply lookup_replicate in Hrow as [-> _].
  by apply lookup_replicate in Hpx as [-> _].
Qed.

Lemma np_zeros_rect (data_shape : nat * nat * nat) :
  length (np_zeros data_shape) = data_shape.1.1
  ∧ Forall (rect data_shape.1.2 data_shape.2) (np_zeros data_shape).
Proof.
  unfold np_zeros. split; [apply length_replicate|].
  apply Forall_replicate. split; [apply length_replicate|].
  apply Forall_replicate. apply length_replicate.
Qed.

Lemma to_uint32_Ok n v : to_uint32 n = Ok v → v = n.
Proof. unfold to_uint32. destruct (_ && _); by intros [= <-]. Qed.

Section make_gt_detections_facts.
Variable disk : value * value → value → nat * nat → list (Z * Z).
Variable data_shape : nat * nat * nat.
Variable radius : value.
Let T := data_shape.1.1.
Let H := data_shape.1.2.
Let W := data_shape.2.

(** One turn of the loop: the label of the node, and its disk in the
    array. *)
Lemma make_gt_detections_step_spec Gx seg n Gx' seg' :
  length seg = T → Forall (rect H W) seg →
  make_gt_detections_step disk radius (H, W) (Gx, seg) n = Ok (Gx', seg') →
  (nodes Gx').*1 = (nodes Gx).*1 ∧ edges Gx' = edges Gx
  ∧ (∀ m, node_attrs Gx' m
          = if decide (n = m) then <["label" := VInt n]> <$> node_attrs Gx m
            else node_attrs Gx m)
  ∧ length seg' = T ∧ Forall (rect H W) seg'
  ∧ ∀ k i j, pixel seg' k i j
             = if paints disk data_shape radius Gx n k i j
               then pixel seg k i j ≫= (λ _, Some n)
               else pixel seg k i j.
Proof.
  intros Hlen Hrect. unfold make_gt_detections_step, nodes_getitem, getitem, paints.
  destruct (node_attrs Gx n) as [data|] eqn:Hdata; simpl; [|done].
  destruct (data !! "x") as [x|] eqn:Hx; simpl; [|done].
  destruct (data !! "y") as [y|] eqn:Hy; simpl; [|done].
  destruct (data !! "t") as [t|] eqn:Ht; simpl; [|done].
  destruct (set_node_attr Gx n "label" (VInt n)) as [G1|] eqn:Hset; simpl; [|done].
  apply set_node_attr_spec in Hset as (Hk1 & He1 & Hl1).
  destruct (as_index t) as [ti|]; simpl; [|done].
  rewrite Hlen. fold T.
  destruct (np_index T ti) as [k0|] eqn:Hk0; simpl; [|done].
  destruct (np_getitem seg ti) as [frame|] eqn:Hframe; simpl; [|done].
  apply np_getitem_Ok in Hframe as (k0' & Hk0' & Hframe).
  rewrite Hlen in Hk0'. fold T in Hk0'. rewrite Hk0 in Hk0'. injection Hk0' as <-.
  destruct (to_uint32 n) as [v|] eqn:Hv; simpl; [|done].
  apply to_uint32_Ok in Hv as ->.
  destruct (fancy_assign frame _ n) as [frame'|] eqn:Hfancy; simpl; [|done].
  intros [= <- <-].
  assert (Hfr : rect H W frame) by (by eapply (Forall_lookup_1 _ _ _ _ Hrect)).
  destruct (fancy_assign_spec H W frame _ n frame' Hfr Hfancy) as [Hfr' Hpx].
  split; [done|]. split; [done|]. split; [done|].
  split; [by rewrite length_insert|]. split; [by apply Forall_insert|].
  intros k i j. unfold pixel.
  destruct (decide (k0 = k)) as [->|Hne].
  - rewrite list_lookup_insert_eq by (apply lookup_lt_Some in Hframe; lia).
    rewrite Hframe. simpl. rewrite Hpx. rewrite bool_decide_eq_true_2 by done. simpl.
    fold H W. by destruct (covers _ H W i j).
  - rewrite list_lookup_insert_ne by done.
    by rewrite (bool_decide_eq_false_2 (k0 = k)) by done.
Qed.

Lemma detection_label_snoc G ns n k i j :
  detection_label disk data_shape radius G (ns ++ [n]) k i j
  = if paints disk data_shape radius G n k i j then n
    else detection_label disk data_shape radius G ns k i j.
Proof. unfold detection_label. by rewrite foldl_app. Qed.

Lemma paints_ext G Gx n k i j (f : gmap string value → gmap string value) :
  node_attrs Gx n = f <$> node_attrs G n →
  (∀ a key, key ≠ "label" → f a !! key = a !! key) →
  paints disk data_shape radius Gx n k i j = paints disk data_shape radius G n k i j.
Proof.
  intros Hn Hf. unfold paints. rewrite Hn.
  destruct (node_attrs G n) as [a|]; simpl; [|done]. by rewrite !Hf.
Qed.

(** The whole loop. *)
Lemma make_gt_detections_run G G' seg :
  make_gt_detections disk data_shape G radius = Ok (G', seg) →
  (nodes G').*1 = (nodes G).*1 ∧ edges G' = edges G
  ∧ (∀ m, node_attrs G' m = <["label" := VInt m]> <$> node_attrs G m)
  ∧ length seg = T ∧ Forall (rect H W) seg
  ∧ ∀ k i j, pixel seg k i j
             = pixel (np_zeros data_shape) k i j
               ≫= (λ _, Some (detection_label disk data_shape radius G (nodes G).*1 k i j)).
Proof.
  intros Hrun. unfold make_gt_detections in Hrun.
  pose (I := λ (l1 : list Z) (st : DiGraph * ndarray3),
    (nodes st.1).*1 = (nodes G).*1 ∧ edges st.1 = edges G
    ∧ (∀ m, node_attrs st.1 m
            = (λ a, if decide (m ∈ l1) then <["label" := VInt m]> a else a)
              <$> node_attrs G m)
    ∧ length st.2 = T ∧ Forall (rect H W) st.2
    ∧ ∀ k i j, pixel st.2 k i j
               = pixel (np_zeros data_shape) k i j
                 ≫= (λ _, Some (detection_label disk data_shape radius G l1 k i j))).
  assert (HI : I (nodes G).*1 (G', seg)).
  { refine (for_each_ind _ I _ _ (G', seg) _ _ Hrun).
    - destruct (np_zeros_rect data_shape) as [Hlen Hrect].
      split; [done|]. split; [done|]. split_and!; [|done|done|].
      + intros m. simpl. destruct (decide (m ∈ [])) as [[]%elem_of_nil|].
        by destruct (node_attrs G m).
      + intros k i j. simpl.
        destruct (pixel (np_zeros data_shape) k i j) as [z|] eqn:Hz; [|done].
        by apply pixel_np_zeros_inv in Hz as ->.
    - intros l1 n l2 [Gx sx] [Gy sy] _ (Hk & He & Hl & Hlen & Hrect & Hpx) Hstep.
      simpl in *.
      destruct (make_gt_detections_step_spec Gx sx n Gy sy Hlen Hrect Hstep)
        as (Hk2 & He2 & Hl2 & Hlen2 & Hrect2 & Hpx2).
      unfold I. cbn [fst snd].
      split; [congruence|]. split; [congruence|]. split_and!; [|done|done|].
      + intros m. rewrite Hl2, Hl.
        destruct (node_attrs G m) as [a|]; [|by destruct (decide (n = m))].
        cbn [fmap option_fmap option_map].
        destruct (decide (m ∈ l1)) as [H1|H1],
                 (decide (m ∈ (l1 ++ [n])%list)) as [H2|H2],
                 (decide (n = m)) as [->|Hne]; cbn [fmap option_fmap option_map];
          try done.
        * by rewrite insert_insert_eq.
        * destruct H2. apply elem_of_app. by left.
        * destruct H2. apply elem_of_app. by left.
        * apply elem_of_app in H2 as [?| ->%list_elem_of_singleton]; done.
        * destruct H2. apply elem_of_app. right. by left.
      + intros k i j. rewrite Hpx2, Hpx, detection_label_snoc.
        rewrite (paints_ext G Gx n k i j _ (Hl n)).
        * destruct (paints disk data_shape radius G n k i j); [|done].
          by destruct (pixel (np_zeros data_shape) k i j).
        * intros a key Hkey. destruct (decide (n ∈ l1)); [|done].
          by rewrite lookup_insert_ne. }
  destruct HI as (Hk & He & Hl & Hlen & Hrect & Hpx). simpl in *.
  split; [done|]. split; [done|]. split_and!; [|done..].
  intros m. rewrite Hl. destruct (decide (m ∈ (nodes G).*1)) as [Hin|Hin]; [done|].
  assert (node_attrs G m = None) as ->; [|done]. by apply alist_lookup_None.
Qed.

End make_gt_detections_facts.

(** X26. [make_gt_detections] labels the ground-truth graph in place:
    when it returns, every node carries a [label] equal to its own id,
    and nothing else of the graph has changed. *)
Theorem make_gt_detections_labels (disk : value * value → value → nat * nat → list (Z * Z))
    (data_shape : nat * nat * nat) (radius : value) (gt_tracks G' : DiGraph)
    (segmentation : ndarray3) :
  make_gt_detections disk data_shape gt_tracks radius = Ok (G', segmentation) →
  (nodes G').*1 = (nodes gt_tracks).*1 ∧ edges G' = edges gt_tracks
  ∧ ∀ n a, node_attrs gt_tracks n = Some a →
      ∃ a', node_attrs G' n = Some a' ∧ a' !! "label" = Some (VInt n)
            ∧ ∀ k, k ≠ "label" → a' !! k = a !! k.
Proof.
  intros (Hk & He & Hl & _)%make_gt_detections_run.
  split; [done|]. split; [done|]. intros n a Ha. eexists. rewrite Hl, Ha.
  split; [done|]. split; [apply lookup_insert_eq|].
  intros k Hne. by apply lookup_insert_ne.
Qed.

(** X27. The array that [make_gt_detections] returns has the shape it
    was asked for, and a pixel shows the id of the last node, in the
    order of the graph, whose disk reaches it in its frame, or 0 when no
    disk does: where two disks overlap, the later node wins. *)
Theorem make_gt_detections_pixels (disk : value * value → value → nat * nat → list (Z * Z))
    (data_shape : nat * nat * nat) (radius : value) (gt_tracks G' : DiGraph)
    (segmentation : ndarray3) :
  make_gt_detections disk data_shape gt_tracks radius = Ok (G', segmentation) →
  length segmentation = data_shape.1.1
  ∧ Forall (rect data_shape.1.2 data_shape.2) segmentation
  ∧ ∀ k i j, (k < data_shape.1.1)%nat → (i < data_shape.1.2)%nat →
      (j < data_shape.2)%nat →
      pixel segmentation k i j
      = Some (detection_label disk data_shape radius gt_tracks (nodes gt_tracks).*1 k i j).
Proof.
  intros (_ & _ & _ & Hlen & Hrect & Hpx)%make_gt_detections_run.
  split; [done|]. split; [done|]. intros k i j Hk Hi Hj.
  by rewrite Hpx, pixel_np_zeros.
Qed.

Lemma make_gt_detections_labels_witness :
  ∃ G' seg,
    make_gt_detections square_disk (1, 4, 4)%nat overlap_fixture (VInt 1) = Ok (G', seg)
    ∧ (nodes G').*1 = (nodes overlap_fixture).*1 ∧ edges G' = edges overlap_fixture
    ∧ ∀ n a, node_attrs overlap_fixture n = Some a →
        ∃ a', node_attrs G' n = Some a' ∧ a' !! "label" = Some (VInt n)
              ∧ ∀ k, k ≠ "label" → a' !! k = a !! k.
Proof.
  destruct (make_gt_detections square_disk (1, 4, 4)%nat overlap_fixture (VInt 1))
    as [[G' seg]|] eqn:Hrun; [|vm_compute in Hrun; discriminate].
  exists G', seg. split; [done|].
  exact (make_gt_detections_labels square_disk (1, 4, 4)%nat (VInt 1) overlap_fixture
           G' seg Hrun).
Defined.

Lemma make_gt_detections_pixels_witness :
  ∃ G' seg,
    make_gt_detections square_disk (1, 4, 4)%nat overlap_fixture (VInt 1) = Ok (G', seg)
    ∧ pixel seg 0 0 0 = Some 1%Z ∧ pixel seg 0 1 1 = Some 2%Z
    ∧ pixel seg 0 3 0 = Some 0%Z.
Proof.
  destruct (make_gt_detections square_disk (1, 4, 4)%nat overlap_fixture (VInt 1))
    as [[G' seg]|] eqn:Hrun; [|vm_compute in Hrun; discriminate].
  exists G', seg. split; [done|].
  destruct (make_gt_detections_pixels square_disk (1, 4, 4)%nat (VInt 1) overlap_fixture
              G' seg Hrun) as (_ & _ & Hpx).
  split_and!.
  - rewrite (Hpx 0 0 0)%nat by (simpl; lia). vm_compute. reflexivity.
  - rewrite (Hpx 0 1 1)%nat by (simpl; lia). vm_compute. reflexivity.
  - rewrite (Hpx 0 3 0)%nat by (simpl; lia). vm_compute. reflexivity.
Defined.
